(** * go-peg: the parsing expression evaluator of [ope.go]

    A shallow embedding of the operator algebra of the PEG engine
    (package [peg], file [ope.go]) and the properties of its evaluation:
    frame effects of sequence, prioritized choice and repetition, the
    token boundary, character classes, the word check of literals, the
    depth of the stack of semantic-value frames, macro parameters and the
    termination of the repetition loops.

    Conventions of the embedding.
    - A Go [int] is a [Z] in the signed 64-bit range; [+] and [-] on
      lengths and positions wrap around ([int_add], [int_sub]).
    - A Go [string] is a sequence of bytes: a [string] of 8-bit [ascii].
    - A pointer [v *Values] is threaded as a value: every evaluator takes
      the frame and returns the frame it leaves behind.  The frames of
      [c.svStack] are reached only through the pointer [push] returns, and
      only between that [push] and the matching [pop], so the value that
      is threaded is the slot.
    - The context [c *context] is threaded the same way.
    - State that belongs to operator nodes (the [sync.Once] memo of a
      literal) and the output of the tracer hooks live in a [heap] that
      outlives contexts.
    - A run-time panic (index or slice out of range, nil dereference) is
      the outcome [Panic]; [OutOfFuel] stands for a computation that has
      not finished within the given number of steps. *)

From stdpp Require Import base option list gmap strings.
From Stdlib Require Import ZArith Ascii String Lia.

Set Warnings "-register-all".

Local Open Scope string_scope.
Local Open Scope list_scope.
Local Open Scope Z_scope.

(** ** Machine integers *)

Definition int_min : Z := - 2 ^ 63.
Definition int_max : Z := 2 ^ 63 - 1.

(** Two's complement wrap-around of a 64-bit signed integer. *)
Definition wrap (z : Z) : Z := (z + 2 ^ 63) mod 2 ^ 64 - 2 ^ 63.

Definition int_add (a b : Z) : Z := wrap (a + b).
Definition int_sub (a b : Z) : Z := wrap (a - b).

Definition in_int (z : Z) : Prop := int_min <= z <= int_max.

(** ** Strings of bytes *)

(** [len(s)] *)
Definition len (s : string) : Z := Z.of_nat (String.length s).

Inductive panic : Type :=
| IndexOutOfRange
| SliceOutOfRange
| NilDereference.

(** The three ways an evaluation can end. *)
Inductive outcome (A : Type) : Type :=
| Ret (a : A)
| Panic (e : panic)
| OutOfFuel.

Arguments Ret {A} a.
Arguments Panic {A} e.
Arguments OutOfFuel {A}.

#[global] Instance outcome_ret : MRet outcome := fun A a => Ret a.
#[global] Instance outcome_bind : MBind outcome := fun A B f m =>
  match m with
  | Ret a => f a
  | Panic e => Panic e
  | OutOfFuel => OutOfFuel
  end.

(** [s[i]]: panics unless [0 <= i < len(s)]. *)
Definition index (s : string) (i : Z) : outcome ascii :=
  if i <? 0 then Panic IndexOutOfRange
  else match String.get (Z.to_nat i) s with
       | Some b => Ret b
       | None => Panic IndexOutOfRange
       end.

(** [s[lo:hi]]: panics unless [0 <= lo <= hi <= len(s)]. *)
Definition slice (s : string) (lo hi : Z) : outcome string :=
  if (0 <=? lo) && (lo <=? hi) && (hi <=? len s)
  then Ret (String.substring (Z.to_nat lo) (Z.to_nat (hi - lo)) s)
  else Panic SliceOutOfRange.

(** Comparison of bytes as unsigned 8-bit numbers. *)
Definition byte_eqb (a b : ascii) : bool := Ascii.eqb a b.
Definition byte_leb (a b : ascii) : bool := (N_of_ascii a <=? N_of_ascii b)%N.

(** ** Error carriers *)

Inductive error : Type :=
| OperatorError (Expected : list string) (Got : string) (Line Col Length : Z)
| SequenceError (Errs : list error)
| OtherError (msg : string).

(** ** Semantic values *)

Inductive Any : Type :=
| AnyNil
| AnyInt (n : Z)
| AnyStr (s : string)
| AnyBool (b : bool)
| AnyList (l : list Any).

Record Token : Type := mkToken {
  tok_Pos : Z;
  tok_S : string
}.

Record Values : Type := mkValues {
  v_SS : string;
  v_Vs : list Any;
  v_Pos : Z;
  v_S : string;
  v_Choice : Z;
  v_Ts : list Token
}.

(** [Values{}] *)
Definition Values_zero : Values := mkValues "" [] 0 "" 0 [].

(** [Values{SS: s}] *)
Definition Values_new (s : string) : Values := mkValues s [] 0 "" 0 [].

Definition set_Vs_Ts (vs : list Any) (ts : list Token) (v : Values) : Values :=
  mkValues (v_SS v) vs (v_Pos v) (v_S v) (v_Choice v) ts.

Definition append_Ts (t : Token) (v : Values) : Values :=
  set_Vs_Ts (v_Vs v) (v_Ts v ++ [t]) v.

Definition append_Vs (a : Any) (v : Values) : Values :=
  set_Vs_Ts (v_Vs v ++ [a]) (v_Ts v) v.

(** [func (v *Values) Token() string] *)
Definition Values_Token (v : Values) : string :=
  match v_Ts v with
  | t :: _ => tok_S t
  | [] => v_S v
  end.

(** ** Operators *)

Definition user_fn : Type :=
  string -> Z -> Values -> Any -> Z * option error * Values.

(** The variants of the [operator] interface.  A [literalString] carries
    the identity of its node ([lit_id]), the key of its [isWord] memo in
    the heap; a [reference] points to its rule by the index of the rule in
    the rule table ([None] is the nil pointer). *)
Inductive operator : Type :=
| sequence (opes : list operator)
| prioritizedChoice (opes : list operator)
| zeroOrMore (ope : operator)
| oneOrMore (ope : operator)
| option_ (ope : operator)
| andPredicate (ope : operator)
| notPredicate (ope : operator)
| literalString (lit_id : nat) (lit : string)
| characterClass (chars : string)
| anyCharacter
| tokenBoundary (ope : operator)
| ignore (ope : operator)
| user (fn : user_fn)
| reference (name : string) (iarg : Z) (args : list operator)
            (iargs : list Z) (pos : Z) (rule : option nat)
| whitespace (ope : operator).

(** [Label()]: the name of the dynamic type, ["*peg.sequence"[5:]]. *)
Definition Label (o : operator) : string :=
  match o with
  | sequence _ => "sequence"
  | prioritizedChoice _ => "prioritizedChoice"
  | zeroOrMore _ => "zeroOrMore"
  | oneOrMore _ => "oneOrMore"
  | option_ _ => "option"
  | andPredicate _ => "andPredicate"
  | notPredicate _ => "notPredicate"
  | literalString _ _ => "literalString"
  | characterClass _ => "characterClass"
  | anyCharacter => "anyCharacter"
  | tokenBoundary _ => "tokenBoundary"
  | ignore _ => "ignore"
  | user _ => "user"
  | reference _ _ _ _ _ _ => "reference"
  | whitespace _ => "whitespace"
  end.

(** Constructors of [ope.go]. *)
Definition Seq (opes : list operator) : operator := sequence opes.
Definition Cho (opes : list operator) : operator := prioritizedChoice opes.
Definition Zom (ope : operator) : operator := zeroOrMore ope.
Definition Oom (ope : operator) : operator := oneOrMore ope.
Definition Opt (ope : operator) : operator := option_ ope.
Definition Apd (ope : operator) : operator := andPredicate ope.
Definition Npd (ope : operator) : operator := notPredicate ope.
Definition Lit (id : nat) (lit : string) : operator := literalString id lit.
Definition Cls (chars : string) : operator := characterClass chars.
Definition Dot : operator := anyCharacter.
Definition Tok (ope : operator) : operator := tokenBoundary ope.
Definition Ign (ope : operator) : operator := ignore ope.
Definition Usr (fn : user_fn) : operator := user fn.
Definition Ref (ident : string) (args : list operator) (pos : Z) : operator :=
  reference ident 0 args [] pos None.
Definition Wsp (ope : operator) : operator := whitespace (Ign ope).

(** ** Context *)

Definition tracer_enter : Type := string -> string -> Values -> Any -> Z -> string.
Definition tracer_leave : Type := string -> string -> Values -> Any -> Z -> Z -> string.

Record context : Type := mkContext {
  c_s : string;
  c_errorPos : Z;
  c_messagePos : Z;
  c_message : string;
  c_svStack : list Values;
  c_argsStack : list (list operator);
  c_inToken : bool;
  c_whitespaceOpe : option operator;
  c_inWhitespace : bool;
  c_wordOpe : option operator;
  c_tracerEnter : option tracer_enter;
  c_tracerLeave : option tracer_leave
}.

(** [context{s: s}] *)
Definition context_new (s : string) : context :=
  mkContext s 0 0 "" [] [] false None false None None None.

Definition set_errorPos (p : Z) (c : context) : context :=
  mkContext (c_s c) p (c_messagePos c) (c_message c) (c_svStack c)
    (c_argsStack c) (c_inToken c) (c_whitespaceOpe c) (c_inWhitespace c)
    (c_wordOpe c) (c_tracerEnter c) (c_tracerLeave c).

Definition set_svStack (st : list Values) (c : context) : context :=
  mkContext (c_s c) (c_errorPos c) (c_messagePos c) (c_message c) st
    (c_argsStack c) (c_inToken c) (c_whitespaceOpe c) (c_inWhitespace c)
    (c_wordOpe c) (c_tracerEnter c) (c_tracerLeave c).

Definition set_argsStack (st : list (list operator)) (c : context) : context :=
  mkContext (c_s c) (c_errorPos c) (c_messagePos c) (c_message c) (c_svStack c)
    st (c_inToken c) (c_whitespaceOpe c) (c_inWhitespace c)
    (c_wordOpe c) (c_tracerEnter c) (c_tracerLeave c).

Definition set_inToken (b : bool) (c : context) : context :=
  mkContext (c_s c) (c_errorPos c) (c_messagePos c) (c_message c) (c_svStack c)
    (c_argsStack c) b (c_whitespaceOpe c) (c_inWhitespace c)
    (c_wordOpe c) (c_tracerEnter c) (c_tracerLeave c).

Definition set_inWhitespace (b : bool) (c : context) : context :=
  mkContext (c_s c) (c_errorPos c) (c_messagePos c) (c_message c) (c_svStack c)
    (c_argsStack c) (c_inToken c) (c_whitespaceOpe c) b
    (c_wordOpe c) (c_tracerEnter c) (c_tracerLeave c).

(** [func (c *context) setErrorPos(p int)] *)
Definition setErrorPos (p : Z) (c : context) : context :=
  if c_errorPos c <? p then set_errorPos p c else c.

(** [func (c *context) push() *Values]: the new frame and the context. *)
Definition push (c : context) : Values * context :=
  let v := Values_new (c_s c) in
  (v, set_svStack (c_svStack c ++ [v]) c).

(** [func (c *context) pop()]: [c.svStack[:len(c.svStack)-1]]. *)
Definition pop (c : context) : outcome context :=
  match c_svStack c with
  | [] => Panic SliceOutOfRange
  | _ :: _ => Ret (set_svStack (removelast (c_svStack c)) c)
  end.

(** [func (c *context) pushArgs(args []operator)] *)
Definition pushArgs (args : list operator) (c : context) : context :=
  set_argsStack (c_argsStack c ++ [args]) c.

(** [func (c *context) popArgs()] *)
Definition popArgs (c : context) : outcome context :=
  match c_argsStack c with
  | [] => Panic SliceOutOfRange
  | _ :: _ => Ret (set_argsStack (removelast (c_argsStack c)) c)
  end.

(** [func (c *context) topArg() []operator]: nil (the empty list) when the
    stack is empty. *)
Definition topArg (c : context) : list operator :=
  match c_argsStack c with
  | [] => []
  | _ :: _ => List.last (c_argsStack c) []
  end.

(** ** Heap: state that outlives a context *)

(** [h_isWord] holds, for the literal nodes whose [initIsWord] has fired,
    the value of their [isWord] field; [h_trace] collects what the tracer
    hooks emit. *)
Record heap : Type := mkHeap {
  h_isWord : gmap nat bool;
  h_trace : list string
}.

Definition heap_empty : heap := mkHeap ∅ [].

Definition set_isWord (id : nat) (b : bool) (h : heap) : heap :=
  mkHeap (<[id := b]> (h_isWord h)) (h_trace h).

Definition emit (line : string) (h : heap) : heap :=
  mkHeap (h_isWord h) (h_trace h ++ [line]).

(** ** Results of an evaluation *)

(** What a call [ope.parse(s, p, v, c, d)] leaves behind: the returned
    pair [(l, err)], the frame behind [v], the context behind [c] and the
    heap. *)
Record result : Type := mkResult {
  res_l : Z;
  res_err : option error;
  res_v : Values;
  res_c : context;
  res_h : heap
}.

Definition parser : Type :=
  operator -> string -> Z -> Values -> context -> Any -> heap -> outcome result.

(** ** Rules *)

Record Rule : Type := mkRule {
  rule_Name : string;
  rule_Parameters : option (list string);
  rule_Ope : operator;
  rule_Action : option (Values -> Any -> Any);
  rule_WhitespaceOpe : option operator;
  rule_WordOpe : option operator
}.

(** Modelled from the spec: the substitution visitor [findReference] is
    not part of [ope.go].  It replaces a reference whose name is one of
    the parameters by the argument at the same place of the argument list
    on top of the stack of arguments, and leaves every other operator as
    it is (one level, no descent). *)
Fixpoint find_param (params : list string) (args : list operator)
    (name : string) : option operator :=
  match params, args with
  | prm :: params', a :: args' =>
      if String.eqb prm name then Some a else find_param params' args' name
  | _, _ => None
  end.

Definition findReference (args : list operator) (params : list string)
    (arg : operator) : operator :=
  match arg with
  | reference name _ _ _ _ _ =>
      match find_param params args name with
      | Some a => a
      | None => arg
      end
  | _ => arg
  end.

(** [args[i]] for a Go [int] index. *)
Definition nth_arg (args : list operator) (i : Z) : option operator :=
  if i <? 0 then None else args !! Z.to_nat i.

(** ** Character classes *)

(** The scan of [characterClass.parseCore] over the class string, from
    index [i]: [Ret true] when the byte belongs to the class. *)
Fixpoint characterClass_loop (fuel : nat) (chars : string) (ch : ascii)
    (i : Z) : outcome bool :=
  if i <? len chars then
    match fuel with
    | O => OutOfFuel
    | S k =>
        dash ← (if int_add i 2 <? len chars
                then b ← index chars (int_add i 1); Ret (byte_eqb b "-")
                else Ret false);
        if (dash : bool) then
          lo ← index chars i;
          hi ← index chars (int_add i 2);
          if byte_leb lo ch && byte_leb ch hi then Ret true
          else characterClass_loop k chars ch (int_add i 3)
        else
          a ← index chars i;
          if byte_eqb a ch then Ret true
          else characterClass_loop k chars ch (int_add i 1)
    end
  else Ret false.

(** The class string as the spec reads it: a list of single characters
    and inclusive ranges. *)
Inductive class_item : Type :=
| Single (a : ascii)
| Range (lo hi : ascii).

Fixpoint class_items (chars : string) : list class_item :=
  match chars with
  | EmptyString => []
  | String a rest =>
      match rest with
      | String dash (String b rest') =>
          if byte_eqb dash "-" then Range a b :: class_items rest'
          else Single a :: class_items rest
      | _ => Single a :: class_items rest
      end
  end.

Definition item_matches (ch : ascii) (it : class_item) : bool :=
  match it with
  | Single a => byte_eqb a ch
  | Range lo hi => byte_leb lo ch && byte_leb ch hi
  end.

Definition in_class (chars : string) (ch : ascii) : bool :=
  existsb (item_matches ch) (class_items chars).

(** ** Literals *)

(** The comparison loop of [literalString.parseCore]: [rest] is
    [o.lit[l:]]; [Ret true] when every byte matched. *)
Fixpoint literal_loop (rest : string) (s : string) (p l : Z) : outcome bool :=
  match rest with
  | EmptyString => Ret true
  | String b rest' =>
      if int_add p l =? len s then Ret false
      else
        a ← index s (int_add p l);
        if byte_eqb a b then literal_loop rest' s p (l + 1) else Ret false
  end.

(** ** The evaluator *)

Section Engine.

(** [lineInfo(s, p)] computes the line and the column of an error; it is
    defined outside [ope.go] and the evaluation does not depend on what
    it returns. *)
Variable lineInfo : string -> Z -> Z * Z.

(** The rule graph: [reference.rule] points into this table. *)
Variable rules : list Rule.

Definition mkOperatorError (expected : string) (s : string) (p : Z)
    (length : Z) : error :=
  let '(line, col) := lineInfo s p in
  OperatorError [expected] s line col length.

(** *** Sequence *)

Fixpoint sequence_loop (rec : parser) (opes : list operator) (s : string)
    (p l : Z) (v : Values) (c : context) (d : Any) (h : heap)
    : outcome result :=
  match opes with
  | [] => Ret (mkResult l None v c h)
  | ope :: rest =>
      r ← rec ope s (int_add p l) v c d h;
      match res_err r with
      | Some e => Ret (mkResult 0 (Some e) (res_v r) (res_c r) (res_h r))
      | None =>
          sequence_loop rec rest s p (int_add l (res_l r))
            (res_v r) (res_c r) d (res_h r)
      end
  end.

Definition sequence_parseCore (rec : parser) (opes : list operator)
    (s : string) (p : Z) (v : Values) (c : context) (d : Any) (h : heap)
    : outcome result :=
  sequence_loop rec opes s p 0 v c d h.

(** *** Prioritized choice *)

(** The frame of the parent after alternative [id] has succeeded with the
    child frame [chv]. *)
Definition splice (v chv : Values) (id : Z) : Values :=
  mkValues (v_SS v) (v_Vs v ++ v_Vs chv) (v_Pos chv) (v_S chv) id
    (v_Ts v ++ v_Ts chv).

Fixpoint prioritizedChoice_loop (rec : parser) (opes : list operator)
    (s : string) (p : Z) (v : Values) (c : context) (d : Any) (h : heap)
    (errs : list error) (id : Z) : outcome result :=
  match opes with
  | [] => Ret (mkResult 0 (Some (SequenceError errs)) v c h)
  | ope :: rest =>
      let '(chv, c1) := push c in
      r ← rec ope s p chv c1 d h;
      c2 ← pop (res_c r);
      match res_err r with
      | None => Ret (mkResult (res_l r) None (splice v (res_v r) id) c2 (res_h r))
      | Some e =>
          prioritizedChoice_loop rec rest s p v c2 d (res_h r)
            (errs ++ [e]) (id + 1)
      end
  end.

Definition prioritizedChoice_parseCore (rec : parser) (opes : list operator)
    (s : string) (p : Z) (v : Values) (c : context) (d : Any) (h : heap)
    : outcome result :=
  prioritizedChoice_loop rec opes s p v c d h [] 0.

(** *** Zero or more, one or more *)

(** The loop [for p+l < len(s) { ... }] that [zeroOrMore.parseCore] and
    [oneOrMore.parseCore] share word for word; [saveErrorPos] was taken
    before the loop. *)
Fixpoint repetition_loop (fuel : nat) (rec : parser) (ope : operator)
    (s : string) (p : Z) (saveErrorPos : Z) (l : Z) (v : Values)
    (c : context) (d : Any) (h : heap) : outcome result :=
  if int_add p l <? len s then
    match fuel with
    | O => OutOfFuel
    | S k =>
        let saveVs := v_Vs v in
        let saveTs := v_Ts v in
        r ← rec ope s (int_add p l) v c d h;
        match res_err r with
        | Some _ =>
            Ret (mkResult l None (set_Vs_Ts saveVs saveTs (res_v r))
                   (set_errorPos saveErrorPos (res_c r)) (res_h r))
        | None =>
            repetition_loop k rec ope s p saveErrorPos
              (int_add l (res_l r)) (res_v r) (res_c r) d (res_h r)
        end
    end
  else Ret (mkResult l None v c h).

Definition zeroOrMore_parseCore (fuel : nat) (rec : parser) (ope : operator)
    (s : string) (p : Z) (v : Values) (c : context) (d : Any) (h : heap)
    : outcome result :=
  let saveErrorPos := c_errorPos c in
  repetition_loop fuel rec ope s p saveErrorPos 0 v c d h.

Definition oneOrMore_parseCore (fuel : nat) (rec : parser) (ope : operator)
    (s : string) (p : Z) (v : Values) (c : context) (d : Any) (h : heap)
    : outcome result :=
  r ← rec ope s p v c d h;
  match res_err r with
  | Some e => Ret r
  | None =>
      let saveErrorPos := c_errorPos (res_c r) in
      repetition_loop fuel rec ope s p saveErrorPos (res_l r)
        (res_v r) (res_c r) d (res_h r)
  end.

(** *** Option *)

Definition option_parseCore (rec : parser) (ope : operator)
    (s : string) (p : Z) (v : Values) (c : context) (d : Any) (h : heap)
    : outcome result :=
  let saveErrorPos := c_errorPos c in
  let saveVs := v_Vs v in
  let saveTs := v_Ts v in
  r ← rec ope s p v c d h;
  match res_err r with
  | Some _ =>
      Ret (mkResult 0 None (set_Vs_Ts saveVs saveTs (res_v r))
             (set_errorPos saveErrorPos (res_c r)) (res_h r))
  | None => Ret (mkResult (res_l r) None (res_v r) (res_c r) (res_h r))
  end.

(** *** Predicates *)

Definition andPredicate_parseCore (rec : parser) (ope : operator)
    (s : string) (p : Z) (v : Values) (c : context) (d : Any) (h : heap)
    : outcome result :=
  let '(chv, c1) := push c in
  r ← rec ope s p chv c1 d h;
  c2 ← pop (res_c r);
  Ret (mkResult 0 (res_err r) v c2 (res_h r)).

Definition notPredicate_parseCore (rec : parser) (ope : operator)
    (s : string) (p : Z) (v : Values) (c : context) (d : Any) (h : heap)
    : outcome result :=
  let saveErrorPos := c_errorPos c in
  let '(chv, c1) := push c in
  r ← rec ope s p chv c1 d h;
  c2 ← pop (res_c r);
  match res_err r with
  | None =>
      Ret (mkResult 0
             (Some (mkOperatorError ("Not " +:+ Label ope) s p (res_l r)))
             v (setErrorPos p c2) (res_h r))
  | Some _ => Ret (mkResult 0 None v (set_errorPos saveErrorPos c2) (res_h r))
  end.

(** *** Literal string *)

(** [o.initIsWord.Do(...)]: the body runs once per node; it classifies the
    literal by running [c.wordOpe] over the literal itself in a new
    context.  The node counts as classified once the body has returned.
    A word operator that reaches the node being classified calls [Do]
    again from inside the body: in Go that call never returns, here the
    body runs again.  The two agree on every grammar whose word operator
    does not contain the literals it classifies. *)
Definition literalString_initIsWord (rec : parser) (id : nat) (lit : string)
    (s : string) (c : context) (h : heap) : outcome heap :=
  match h_isWord h !! id with
  | Some _ => Ret h
  | None =>
      match c_wordOpe c with
      | None => Ret (set_isWord id false h)
      | Some w =>
          r ← rec w lit 0 Values_zero (context_new s) AnyNil h;
          Ret (set_isWord id (bool_decide (res_err r = None)) (res_h r))
      end
  end.

(** The field [o.isWord] of node [id]. *)
Definition isWord (id : nat) (h : heap) : bool :=
  default false (h_isWord h !! id).

(** The part of [literalString.parseCore] after the word check:
    ["Skip whitespace"]. *)
Definition literalString_skip (rec : parser) (s : string) (p l : Z)
    (v : Values) (c : context) (d : Any) (h : heap) : outcome result :=
  match negb (c_inToken c), c_whitespaceOpe c with
  | true, Some ws =>
      r ← rec ws s (int_add p l) v c d h;
      match res_err r with
      | Some e => Ret (mkResult 0 (Some e) (res_v r) (res_c r) (res_h r))
      | None =>
          Ret (mkResult (int_add l (res_l r)) None (res_v r) (res_c r) (res_h r))
      end
  | _, _ => Ret (mkResult l None v c h)
  end.

(** The word check proper: [Npd(c.wordOpe).parse(s, p+l, v, &context{s: s}, nil)].
    A nil [c.wordOpe] is dereferenced by the predicate. *)
Definition literalString_boundary (rec : parser) (s : string) (p l : Z)
    (v : Values) (c : context) (h : heap) : outcome result :=
  match c_wordOpe c with
  | None => Panic NilDereference
  | Some w => rec (Npd w) s (int_add p l) v (context_new s) AnyNil h
  end.

Definition literalString_parseCore (rec : parser) (id : nat) (lit : string)
    (s : string) (p : Z) (v : Values) (c : context) (d : Any) (h : heap)
    : outcome result :=
  matched ← literal_loop lit s p 0;
  if (matched : bool) then
    let l := len lit in
    h1 ← literalString_initIsWord rec id lit s c h;
    if isWord id h1 then
      r ← literalString_boundary rec s p l v c h1;
      match res_err r with
      | Some e => Ret (mkResult 0 (Some e) (res_v r) c (res_h r))
      | None =>
          literalString_skip rec s p (int_add l (res_l r)) (res_v r) c d (res_h r)
      end
    else literalString_skip rec s p l v c d h1
  else
    Ret (mkResult 0 (Some (mkOperatorError lit s p (len lit))) v
           (setErrorPos p c) h).

(** *** Character class, any character *)

Definition characterClass_parseCore (chars : string)
    (s : string) (p : Z) (v : Values) (c : context) (h : heap)
    : outcome result :=
  if int_sub (len s) p <? 1 then
    Ret (mkResult 0 (Some (mkOperatorError chars s p 0)) v (setErrorPos p c) h)
  else
    ch ← index s p;
    hit ← characterClass_loop (String.length chars) chars ch 0;
    if (hit : bool) then Ret (mkResult 1 None v c h)
    else
      Ret (mkResult 0 (Some (mkOperatorError chars s p 1)) v (setErrorPos p c) h).

Definition anyCharacter_parseCore
    (s : string) (p : Z) (v : Values) (c : context) (h : heap)
    : outcome result :=
  if int_sub (len s) p <? 1 then
    Ret (mkResult 0 (Some (mkOperatorError "Anything" s p 0)) v
           (setErrorPos p c) h)
  else Ret (mkResult 1 None v c h).

(** *** Token boundary *)

Definition tokenBoundary_parseCore (rec : parser) (ope : operator)
    (s : string) (p : Z) (v : Values) (c : context) (d : Any) (h : heap)
    : outcome result :=
  let c0 := set_inToken true c in
  r ← rec ope s p v c0 d h;
  let c1 := set_inToken false (res_c r) in
  match res_err r with
  | None =>
      let l := res_l r in
      tok ← slice s p (int_add p l);
      let v1 := append_Ts (mkToken p tok) (res_v r) in
      match c_whitespaceOpe c1 with
      | Some ws =>
          rw ← rec ws s (int_add p l) v1 c1 d (res_h r);
          match res_err rw with
          | Some e => Ret (mkResult 0 (Some e) (res_v rw) (res_c rw) (res_h rw))
          | None =>
              Ret (mkResult (int_add l (res_l rw)) None
                     (res_v rw) (res_c rw) (res_h rw))
          end
      | None => Ret (mkResult l None v1 c1 (res_h r))
      end
  | Some e => Ret (mkResult (res_l r) (Some e) (res_v r) c1 (res_h r))
  end.

(** *** Ignore, user, whitespace *)

Definition ignore_parseCore (rec : parser) (ope : operator)
    (s : string) (p : Z) (v : Values) (c : context) (d : Any) (h : heap)
    : outcome result :=
  let '(chv, c1) := push c in
  r ← rec ope s p chv c1 d h;
  c2 ← pop (res_c r);
  Ret (mkResult (res_l r) (res_err r) v c2 (res_h r)).

Definition user_parseCore (fn : user_fn)
    (s : string) (p : Z) (v : Values) (c : context) (d : Any) (h : heap)
    : outcome result :=
  let '(l, err, v1) := fn s p v d in
  Ret (mkResult l err v1 c h).

Definition whitespace_parseCore (rec : parser) (ope : operator)
    (s : string) (p : Z) (v : Values) (c : context) (d : Any) (h : heap)
    : outcome result :=
  if c_inWhitespace c then Ret (mkResult 0 None v c h)
  else
    r ← rec ope s p v (set_inWhitespace true c) d h;
    Ret (mkResult (res_l r) (res_err r) (res_v r)
           (set_inWhitespace false (res_c r)) (res_h r)).

(** *** Rules and references *)

(** The value a rule without action forwards: the single child value, or
    the whole list. *)
Definition default_value (vs : list Any) : Any :=
  match vs with
  | [a] => a
  | _ => AnyList vs
  end.

(** Modelled from the spec: [Rule.parse], the invocation of a rule by a
    reference, is not part of [ope.go].  It pushes a frame, evaluates the
    root operator of the rule on it, on success places the value of the
    action (or the default value) on the [Vs] of the frame of the caller,
    pops the frame and hands on the length and the error. *)
Definition Rule_parse (rec : parser) (r : Rule)
    (s : string) (p : Z) (v : Values) (c : context) (d : Any) (h : heap)
    : outcome result :=
  let '(chv, c1) := push c in
  res ← rec (rule_Ope r) s p chv c1 d h;
  c2 ← pop (res_c res);
  match res_err res with
  | None =>
      let val := match rule_Action r with
                 | Some act => act (res_v res) d
                 | None => default_value (v_Vs (res_v res))
                 end in
      Ret (mkResult (res_l res) None (append_Vs val v) c2 (res_h res))
  | Some e => Ret (mkResult (res_l res) (Some e) v c2 (res_h res))
  end.

Definition reference_parseCore (rec : parser) (iarg : Z)
    (args : list operator) (rule : option nat)
    (s : string) (p : Z) (v : Values) (c : context) (d : Any) (h : heap)
    : outcome result :=
  match rule with
  | Some rid =>
      match rules !! rid with
      | None => Panic NilDereference
      | Some r =>
          match rule_Parameters r with
          | None => Rule_parse rec r s p v c d h
          | Some params =>
              let args' := map (findReference (topArg c) params) args in
              res ← Rule_parse rec r s p v (pushArgs args' c) d h;
              c2 ← popArgs (res_c res);
              Ret (mkResult (res_l res) (res_err res) (res_v res) c2 (res_h res))
          end
      end
  | None =>
      match nth_arg (topArg c) iarg with
      | None => Panic IndexOutOfRange
      | Some a => rec a s p v c d h
      end
  end.

(** *** Dispatch *)

(** [o.parseCore(s, p, v, c, d)]; [rec] evaluates the children and [fuel]
    bounds the iterations of a repetition. *)
Definition parseCore (fuel : nat) (rec : parser) (o : operator)
    (s : string) (p : Z) (v : Values) (c : context) (d : Any) (h : heap)
    : outcome result :=
  match o with
  | sequence opes => sequence_parseCore rec opes s p v c d h
  | prioritizedChoice opes => prioritizedChoice_parseCore rec opes s p v c d h
  | zeroOrMore ope => zeroOrMore_parseCore fuel rec ope s p v c d h
  | oneOrMore ope => oneOrMore_parseCore fuel rec ope s p v c d h
  | option_ ope => option_parseCore rec ope s p v c d h
  | andPredicate ope => andPredicate_parseCore rec ope s p v c d h
  | notPredicate ope => notPredicate_parseCore rec ope s p v c d h
  | literalString id lit => literalString_parseCore rec id lit s p v c d h
  | characterClass chars => characterClass_parseCore chars s p v c h
  | anyCharacter => anyCharacter_parseCore s p v c h
  | tokenBoundary ope => tokenBoundary_parseCore rec ope s p v c d h
  | ignore ope => ignore_parseCore rec ope s p v c d h
  | user fn => user_parseCore fn s p v c d h
  | reference _ iarg args _ _ rule =>
      reference_parseCore rec iarg args rule s p v c d h
  | whitespace ope => whitespace_parseCore rec ope s p v c d h
  end.

Definition traceEnter (o : operator) (s : string) (p : Z) (v : Values)
    (c : context) (d : Any) (h : heap) : heap :=
  match c_tracerEnter c with
  | Some f => emit (f (Label o) s v d p) h
  | None => h
  end.

Definition traceLeave (o : operator) (s : string) (p : Z) (d : Any)
    (r : result) : result :=
  match c_tracerLeave (res_c r) with
  | Some f =>
      mkResult (res_l r) (res_err r) (res_v r) (res_c r)
        (emit (f (Label o) s (res_v r) d p (res_l r)) (res_h r))
  | None => r
  end.

(** [func parse(o operator, s string, p int, v *Values, c *context, d Any)]:
    every call of an operator goes through it.  [fuel] bounds the depth of
    the calls and the number of iterations of each repetition. *)
Fixpoint parse (fuel : nat) (o : operator) (s : string) (p : Z)
    (v : Values) (c : context) (d : Any) (h : heap) : outcome result :=
  match fuel with
  | O => OutOfFuel
  | S k =>
      r ← parseCore k (parse k) o s p v c d (traceEnter o s p v c d h);
      Ret (traceLeave o s p d r)
  end.

End Engine.

(** Modelled from the spec: [lineInfo] is defined outside [ope.go], and
    the spec fixes only that an error carries a line and a column.  This
    instance, used to run the evaluator, counts lines from 1 by the line
    feeds before [p] and columns from 1. *)
Fixpoint lineInfo_scan (s : string) (n : nat) (line col : Z) : Z * Z :=
  match n, s with
  | S k, String b rest =>
      if byte_eqb b "010" then lineInfo_scan rest k (line + 1) 1
      else lineInfo_scan rest k line (col + 1)
  | _, _ => (line, col)
  end.

Definition lineInfo_lf (s : string) (p : Z) : Z * Z :=
  lineInfo_scan s (Z.to_nat p) 1 1.

(** The evaluator over an empty rule table, for grammars without rules. *)
Definition run (fuel : nat) (o : operator) (s : string) : outcome result :=
  parse lineInfo_lf [] fuel o s 0 Values_zero (context_new s) AnyNil heap_empty.

Definition run_l (fuel : nat) (o : operator) (s : string) : option (Z * bool) :=
  match run fuel o s with
  | Ret r => Some (res_l r, bool_decide (res_err r = None))
  | _ => None
  end.

(** ** Runs of children *)

(** [alternatives_fail rec s p d opes c h errs c' h']: tried from left to
    right from the context [c] and the heap [h], each on a frame pushed
    for it and popped after it, the alternatives [opes] all fail; [errs]
    lists their errors in that order, [c'] and [h'] are what they leave. *)
Inductive alternatives_fail (rec : parser) (s : string) (p : Z) (d : Any)
  : list operator -> context -> heap -> list error -> context -> heap -> Prop :=
| alternatives_fail_nil (c : context) (h : heap) :
    alternatives_fail rec s p d [] c h [] c h
| alternatives_fail_cons (ope : operator) (opes : list operator)
    (c : context) (h : heap) (r : result) (e : error) (c1 : context)
    (errs : list error) (c' : context) (h' : heap) :
    rec ope s p (push c).1 (push c).2 d h = Ret r ->
    res_err r = Some e ->
    pop (res_c r) = Ret c1 ->
    alternatives_fail rec s p d opes c1 (res_h r) errs c' h' ->
    alternatives_fail rec s p d (ope :: opes) c h (e :: errs) c' h'.

(** The two ways the loop of a prioritized choice returns, entered with
    the ordinal [id0] and the errors [errs0]: after the alternatives
    [pre] have failed the alternative [ope] succeeds, or all fail. *)
Definition choice_succeeds (rec : parser) (opes : list operator)
    (s : string) (p : Z) (v : Values) (c : context) (d : Any) (h : heap)
    (id0 : Z) (r : result) : Prop :=
  exists (pre : list operator) (ope : operator) (post : list operator)
         (errs : list error) (c1 : context) (h1 : heap) (rk : result)
         (c2 : context),
    opes = pre ++ ope :: post
    /\ alternatives_fail rec s p d pre c h errs c1 h1
    /\ rec ope s p (push c1).1 (push c1).2 d h1 = Ret rk
    /\ res_err rk = None
    /\ pop (res_c rk) = Ret c2
    /\ r = mkResult (res_l rk) None
             (splice v (res_v rk) (id0 + Z.of_nat (List.length pre)))
             c2 (res_h rk).

Definition choice_fails (rec : parser) (opes : list operator)
    (s : string) (p : Z) (v : Values) (c : context) (d : Any) (h : heap)
    (errs0 : list error) (r : result) : Prop :=
  exists (errs : list error) (c1 : context) (h1 : heap),
    alternatives_fail rec s p d opes c h errs c1 h1
    /\ r = mkResult 0 (Some (SequenceError (errs0 ++ errs))) v c1 h1.

(** ** Frames of the alternatives of a choice *)

(** [frame_removed c' c2]: the stack of frames of [c'] is not empty and
    [c2] is [c'] without the last frame of that stack. *)
Definition frame_removed (c' c2 : context) : Prop :=
  exists (st : list Values) (fr : Values),
    c_svStack c' = st ++ [fr] /\ c2 = set_svStack st c'.

(** [alternatives_discarded rec s p d opes c h errs c' h']: tried from
    left to right from the context [c] and the heap [h], the alternatives
    [opes] all fail.  Each is evaluated on a new frame [Values{SS: c.s}]
    that has been appended to the stack of frames, and the last frame of
    the stack is removed after it; [errs] lists the errors in that order,
    [c'] and [h'] are what the alternatives leave. *)
Inductive alternatives_discarded (rec : parser) (s : string) (p : Z) (d : Any)
  : list operator -> context -> heap -> list error -> context -> heap -> Prop :=
| alternatives_discarded_nil (c : context) (h : heap) :
    alternatives_discarded rec s p d [] c h [] c h
| alternatives_discarded_cons (ope : operator) (opes : list operator)
    (c : context) (h : heap) (r : result) (e : error) (c1 : context)
    (errs : list error) (c' : context) (h' : heap) :
    rec ope s p (Values_new (c_s c))
      (set_svStack (c_svStack c ++ [Values_new (c_s c)]) c) d h = Ret r ->
    res_err r = Some e ->
    frame_removed (res_c r) c1 ->
    alternatives_discarded rec s p d opes c1 (res_h r) errs c' h' ->
    alternatives_discarded rec s p d (ope :: opes) c h (e :: errs) c' h'.

(** [children_succeed rec s p d opes l v c h l' v' c' h']: evaluated from
    left to right on the frame [v], the first at [p + l] and each at the
    position the one before it reached, the children [opes] all succeed;
    [l'] is the accumulated length and [v'], [c'], [h'] what they leave. *)
Inductive children_succeed (rec : parser) (s : string) (p : Z) (d : Any)
  : list operator -> Z -> Values -> context -> heap
    -> Z -> Values -> context -> heap -> Prop :=
| children_succeed_nil (l : Z) (v : Values) (c : context) (h : heap) :
    children_succeed rec s p d [] l v c h l v c h
| children_succeed_cons (ope : operator) (opes : list operator)
    (l : Z) (v : Values) (c : context) (h : heap) (r : result)
    (l' : Z) (v' : Values) (c' : context) (h' : heap) :
    rec ope s (int_add p l) v c d h = Ret r ->
    res_err r = None ->
    children_succeed rec s p d opes (int_add l (res_l r))
      (res_v r) (res_c r) (res_h r) l' v' c' h' ->
    children_succeed rec s p d (ope :: opes) l v c h l' v' c' h'.

(** [iterations rec ope s p d n l v c h l' v' c' h']: [n] iterations of a
    repetition of [ope], entered with the accumulated length [l], all
    succeed and reach [l'], [v'], [c'], [h']. *)
Inductive iterations (rec : parser) (ope : operator) (s : string) (p : Z)
    (d : Any)
  : nat -> Z -> Values -> context -> heap
    -> Z -> Values -> context -> heap -> Prop :=
| iterations_O (l : Z) (v : Values) (c : context) (h : heap) :
    iterations rec ope s p d O l v c h l v c h
| iterations_S (n : nat) (l : Z) (v : Values) (c : context) (h : heap)
    (r : result) (l' : Z) (v' : Values) (c' : context) (h' : heap) :
    int_add p l < len s ->
    rec ope s (int_add p l) v c d h = Ret r ->
    res_err r = None ->
    iterations rec ope s p d n (int_add l (res_l r))
      (res_v r) (res_c r) (res_h r) l' v' c' h' ->
    iterations rec ope s p d (S n) l v c h l' v' c' h'.

(** ** What an evaluation leaves of the context *)

(** [stable c c']: [c'] is [c] up to [errorPos] and [inToken], and
    [inToken] is not raised. *)
Definition stable (c c' : context) : Prop :=
  c_s c' = c_s c
  /\ c_messagePos c' = c_messagePos c
  /\ c_message c' = c_message c
  /\ c_svStack c' = c_svStack c
  /\ c_argsStack c' = c_argsStack c
  /\ c_whitespaceOpe c' = c_whitespaceOpe c
  /\ c_inWhitespace c' = c_inWhitespace c
  /\ c_wordOpe c' = c_wordOpe c
  /\ c_tracerEnter c' = c_tracerEnter c
  /\ c_tracerLeave c' = c_tracerLeave c
  /\ (c_inToken c = false -> c_inToken c' = false).

(** A child evaluator that leaves contexts stable. *)
Definition stable_parser (rec : parser) : Prop :=
  forall (o : operator) (s : string) (p : Z) (v : Values) (c : context)
         (d : Any) (h : heap) (r : result),
    rec o s p v c d h = Ret r -> stable c (res_c r).

(** ** Termination of repetitions *)

(** A user function with a memory: it succeeds once without consuming
    input and records a value in the frame; on a frame that already holds
    a value it fails. *)
Definition once_fn : user_fn := fun _ _ v _ =>
  match v_Vs v with
  | [] => (0, None, append_Vs (AnyInt 1) v)
  | _ :: _ => (0, Some (OtherError "done"), v)
  end.

(** The evaluation of [o] ends on every input. *)
Definition terminates (o : operator) : Prop :=
  forall (s : string) (p : Z) (v : Values) (c : context) (d : Any) (h : heap),
  exists fuel : nat, parse lineInfo_lf [] fuel o s p v c d h <> OutOfFuel.

(** Every success of [o] before the end of the input consumes a byte. *)
Definition makes_progress (o : operator) : Prop :=
  forall (fuel : nat) (s : string) (p : Z) (v : Values) (c : context)
         (d : Any) (h : heap) (r : result),
    0 <= p < len s ->
    parse lineInfo_lf [] fuel o s p v c d h = Ret r ->
    res_err r = None ->
    1 <= res_l r.

(** ** Sample grammars *)

(** A choice whose first alternative fails where the second succeeds: on
    ["aab"] its evaluation at position 1 succeeds and moves [errorPos]
    to 1. *)
Definition x_or_a : operator := Cho [Lit 1 "x"; Lit 2 "a"].

(** A context for the input [s] whose word operator is [Cls("a-z")]. *)
Definition word_context (s : string) : context :=
  mkContext s 0 0 "" [] [] false None false (Some (Cls "a-z")) None None.

(** A context inside a macro call with the arguments [args]. *)
Definition macro_context (s : string) (args : list operator) : context :=
  mkContext s 0 0 "" [] [args] false None false None None None.

(** A context for the input [s] whose whitespace operator skips blanks. *)
Definition spaces_context (s : string) : context :=
  mkContext s 0 0 "" [] [] false (Some (Wsp (Zom (Cls " ")))) false None
    None None.

(** A token boundary around a sequence whose first child is a token
    boundary, and the same grammar without the inner boundary. *)
Definition nested_token : operator :=
  Tok (Seq [Tok (Lit 1 "a"); Lit 2 "b"; Lit 3 "c"]).

Definition flat_token : operator :=
  Tok (Seq [Lit 1 "a"; Lit 2 "b"; Lit 3 "c"]).

(** ** States of a literal *)

(** A state in which a literal of node [id] reads nothing but the input:
    no word operator, the node not classified as a word, and no whitespace
    to skip. *)
Definition literal_state (id : nat) (c : context) (h : heap) : Prop :=
  c_wordOpe c = None
  /\ h_isWord h !! id <> Some true
  /\ (c_inToken c = true \/ c_whitespaceOpe c = None).

(** ** Grammars without user functions *)

(** [user_free o]: no [user] operator occurs in [o], nor in the arguments
    of its references. *)
Fixpoint user_free (o : operator) : bool :=
  match o with
  | sequence opes => forallb user_free opes
  | prioritizedChoice opes => forallb user_free opes
  | zeroOrMore ope => user_free ope
  | oneOrMore ope => user_free ope
  | option_ ope => user_free ope
  | andPredicate ope => user_free ope
  | notPredicate ope => user_free ope
  | literalString _ _ => true
  | characterClass _ => true
  | anyCharacter => true
  | tokenBoundary ope => user_free ope
  | ignore ope => user_free ope
  | user _ => false
  | reference _ _ args _ _ _ => forallb user_free args
  | whitespace ope => user_free ope
  end.

Definition user_free_opt (o : option operator) : bool :=
  match o with
  | Some ope => user_free ope
  | None => true
  end.

(** The operators a context holds are free of user functions. *)
Definition user_free_context (c : context) : Prop :=
  user_free_opt (c_whitespaceOpe c) = true
  /\ user_free_opt (c_wordOpe c) = true
  /\ forallb (forallb user_free) (c_argsStack c) = true.

(** The bodies of the rules are free of user functions. *)
Definition user_free_rules (rules : list Rule) : Prop :=
  Forall (fun rl => user_free (rule_Ope rl) = true) rules.

(** [within s p r]: the pair [(l, err)] of [r] is a success that consumed
    bytes of [s] from [p], or a failure of length 0. *)
Definition within (s : string) (p : Z) (r : result) : Prop :=
  match res_err r with
  | None => 0 <= res_l r /\ p + res_l r <= len s
  | Some _ => res_l r = 0
  end.

(** A child evaluator that keeps successes within the input, on grammars
    without user functions. *)
Definition bounded_parser (rec : parser) : Prop :=
  forall (o : operator) (s : string) (p : Z) (v : Values) (c : context)
         (d : Any) (h : heap) (r : result),
    user_free o = true -> user_free_context c ->
    len s <= int_max -> 0 <= p <= len s ->
    rec o s p v c d h = Ret r -> within s p r.

(** A child evaluator that never lowers [errorPos]. *)
Definition monotone_parser (rec : parser) : Prop :=
  forall (o : operator) (s : string) (p : Z) (v : Values) (c : context)
         (d : Any) (h : heap) (r : result),
    rec o s p v c d h = Ret r -> c_errorPos c <= c_errorPos (res_c r).

(** [add_l l0 r]: the result [r] with [l0] added to its length. *)
Definition add_l (l0 : Z) (r : result) : result :=
  mkResult (int_add l0 (res_l r)) (res_err r) (res_v r) (res_c r) (res_h r).

(** A rule table with one macro, [M(x) <- x]. *)
Definition macro_rules : list Rule :=
  [mkRule "M" (Some ["x"]) (reference "x" 0 [] [] 0 None) None None None].

(** The call [M("a")]. *)
Definition macro_call : operator :=
  reference "M" 0 [Lit 1 "a"] [] 0 (Some 0%nat).

(** [memo_le h h']: every literal classified in [h] is classified the same
    way in [h']. *)
Definition memo_le (h h' : heap) : Prop :=
  forall (id : nat) (b : bool),
    h_isWord h !! id = Some b -> h_isWord h' !! id = Some b.

(** A child evaluator that keeps the classification of literals. *)
Definition memo_parser (rec : parser) : Prop :=
  forall (o : operator) (s : string) (p : Z) (v : Values) (c : context)
         (d : Any) (h : heap) (r : result),
    rec o s p v c d h = Ret r -> memo_le h (res_h r).

(** * Properties *)

(** ** The test cases of the repository *)

Example test_Sequence :
  run_l 5 (Seq [Lit 1 "日本語"; Lit 2 "も"; Lit 3 "OK"; Lit 4 "です。"])
    "日本語もOKです。" = Some (23, true)
  /\ run_l 5 (Seq [Lit 1 "日本語"; Lit 2 "も"; Lit 3 "OK"; Lit 4 "です。"])
       "日本語OKです。" = Some (0, false).
Proof. split; vm_compute; reflexivity. Qed.

Example test_PrioritizedChoice :
  run_l 5 (Cho [Lit 1 "English"; Lit 2 "日本語"]) "日本語" = Some (9, true)
  /\ run_l 5 (Cho [Lit 1 "English"; Lit 2 "日本語"]) "English" = Some (7, true)
  /\ run_l 5 (Cho [Lit 1 "English"; Lit 2 "日本語"]) "Go" = Some (0, false).
Proof. repeat split; vm_compute; reflexivity. Qed.

Example test_ZeroOrMore :
  map (run_l 5 (Zom (Lit 1 "abc"))) [""; "a"; "ab"; "abc"; "abca"; "abcabc"]
  = map Some [(0, true); (0, true); (0, true); (3, true); (3, true); (6, true)].
Proof. vm_compute. reflexivity. Qed.

Example test_OneOrMore :
  map (run_l 5 (Oom (Lit 1 "abc"))) [""; "a"; "ab"; "abc"; "abca"; "abcabc"]
  = map Some [(0, false); (0, false); (0, false); (3, true); (3, true); (6, true)].
Proof. vm_compute. reflexivity. Qed.

Example test_Option :
  map (run_l 5 (Opt (Lit 1 "abc"))) [""; "ab"; "abc"; "abca"; "abcabc"]
  = map Some [(0, true); (0, true); (3, true); (3, true); (3, true)].
Proof. vm_compute. reflexivity. Qed.

Example test_AndPredicate :
  map (run_l 5 (Apd (Lit 1 "abc"))) [""; "ab"; "abc"; "abca"]
  = map Some [(0, false); (0, false); (0, true); (0, true)].
Proof. vm_compute. reflexivity. Qed.

Example test_NotPredicate :
  map (run_l 5 (Npd (Lit 1 "abc"))) [""; "ab"; "abc"; "abca"]
  = map Some [(0, true); (0, true); (0, false); (0, false)].
Proof. vm_compute. reflexivity. Qed.

Example test_CharacterClass :
  map (run_l 5 (Cls "a-zA-Z0-9_"))
    [""; "a"; "z"; "A"; "Z"; "0"; "9"; "_"; "-"; " "]
  = map Some [(0, false); (1, true); (1, true); (1, true); (1, true);
              (1, true); (1, true); (1, true); (0, false); (0, false)].
Proof. vm_compute. reflexivity. Qed.

Example test_TokenBoundary :
  match run 5 (Seq [Tok (Lit 1 "hello"); Lit 2 " "]) "hello " with
  | Ret r => res_l r = 6 /\ res_err r = None
             /\ v_Ts (res_v r) = [mkToken 0 "hello"]
             /\ Values_Token (res_v r) = "hello"
  | _ => False
  end.
Proof. vm_compute. repeat split; reflexivity. Qed.

(** [NUMBER = Tok(Oom(Cls("0-9"))) Ign(WS)], [WS = Zom(Cls(" \t"))] on
    ["123 "]: the action of [NUMBER] sees no values. *)
Example test_Ignore :
  let WS := mkRule "WS" None (Zom (Cls (String " " (String "009" EmptyString))))
              None None None in
  let NUMBER :=
    mkRule "NUMBER" None
      (Seq [Tok (Oom (Cls "0-9")); Ign (reference "WS" 0 [] [] 0 (Some 1%nat))])
      (Some (fun sv _ => AnyInt (Z.of_nat (List.length (v_Vs sv)))))
      None None in
  match parse lineInfo_lf [NUMBER; WS] 9 (reference "NUMBER" 0 [] [] 0 (Some 0%nat))
          "123 " 0 Values_zero (context_new "123 ") AnyNil heap_empty with
  | Ret r => res_l r = 4 /\ res_err r = None /\ v_Vs (res_v r) = [AnyInt 0]
  | _ => False
  end.
Proof. vm_compute. repeat split; reflexivity. Qed.

(** The class string read as items. *)
Example class_items_examples :
  class_items "a-zA-Z0-9_"
  = [Range "a" "z"; Range "A" "Z"; Range "0" "9"; Single "_"]
  /\ class_items "a-" = [Single "a"; Single "-"]
  /\ class_items "-a" = [Single "-"; Single "a"]
  /\ class_items "a-z-" = [Range "a" "z"; Single "-"].
Proof. repeat split; reflexivity. Qed.

(** ** Integers and strings *)

Lemma wrap_id (z : Z) : in_int z -> wrap z = z.
Proof.
  unfold in_int, int_min, int_max, wrap. intros Hz.
  rewrite Z.mod_small; lia.
Qed.

Lemma int_add_id (a b : Z) : in_int (a + b) -> int_add a b = a + b.
Proof. apply wrap_id. Qed.

Lemma int_sub_id (a b : Z) : in_int (a - b) -> int_sub a b = a - b.
Proof. apply wrap_id. Qed.

Lemma length_String (a : ascii) (s : string) :
  String.length (String a s) = S (String.length s).
Proof. reflexivity. Qed.

Lemma len_nonneg (s : string) : 0 <= len s.
Proof. unfold len. lia. Qed.

Lemma len_String (a : ascii) (s : string) : len (String a s) = 1 + len s.
Proof. unfold len. simpl. lia. Qed.

Lemma len_append (s1 s2 : string) : len (s1 +:+ s2) = len s1 + len s2.
Proof.
  induction s1 as [|a s1 IH]; [reflexivity|].
  change (String a s1 +:+ s2) with (String a (s1 +:+ s2)).
  rewrite !len_String, IH. lia.
Qed.

Lemma get_append_r (s1 s2 : string) (n : nat) :
  String.get (String.length s1 + n) (s1 +:+ s2) = String.get n s2.
Proof. induction s1 as [|a s1 IH]; [reflexivity|]. exact IH. Qed.

Lemma index_append_r (s1 s2 : string) (j : Z) :
  0 <= j -> index (s1 +:+ s2) (len s1 + j) = index s2 j.
Proof.
  intros Hj. unfold index, len.
  destruct (Z.ltb_spec (Z.of_nat (String.length s1) + j) 0); [lia|].
  destruct (Z.ltb_spec j 0); [lia|].
  replace (Z.to_nat (Z.of_nat (String.length s1) + j))
    with (String.length s1 + Z.to_nat j)%nat by lia.
  now rewrite get_append_r.
Qed.

Lemma index_head (a : ascii) (s : string) : index (String a s) 0 = Ret a.
Proof. reflexivity. Qed.

Lemma index_get (s : string) (p : Z) (ch : ascii) :
  0 <= p -> String.get (Z.to_nat p) s = Some ch -> index s p = Ret ch.
Proof.
  intros Hp Hg. unfold index.
  destruct (Z.ltb_spec p 0); [lia|]. now rewrite Hg.
Qed.

Lemma append_assoc3 (pre : string) (a : ascii) (rest : string) :
  pre +:+ String a rest = (pre +:+ String a EmptyString) +:+ rest.
Proof.
  induction pre as [|b pre IH]; [reflexivity|].
  change (String b pre +:+ String a rest)
    with (String b (pre +:+ String a rest)).
  now rewrite IH.
Qed.

(** ** Character class: the scan is the membership test *)

Lemma in_class_single (a : ascii) (rest : string) (ch : ascii) :
  class_items (String a rest) = Single a :: class_items rest ->
  in_class (String a rest) ch = byte_eqb a ch || in_class rest ch.
Proof. unfold in_class. intros ->. reflexivity. Qed.

Lemma characterClass_loop_spec (k : nat) :
  forall (rest pre : string) (ch : ascii),
    (String.length rest <= k)%nat ->
    len (pre +:+ rest) + 2 <= int_max ->
    characterClass_loop k (pre +:+ rest) ch (len pre)
    = Ret (in_class rest ch).
Proof.
  induction k as [|k IH]; intros rest pre ch Hk Hmax.
  - destruct rest; [|rewrite length_String in Hk; lia].
    cbn [characterClass_loop]. rewrite len_append.
    change (len "") with 0.
    destruct (Z.ltb_spec (len pre) (len pre + 0)); [lia|reflexivity].
  - pose proof (len_nonneg pre) as Hpre.
    assert (Hi : forall j, 0 <= j <= len rest + 2 ->
                           int_add (len pre) j = len pre + j).
    { intros j Hj. apply int_add_id. rewrite len_append in Hmax.
      unfold in_int, int_min, int_max in Hmax |- *. lia. }
    cbn [characterClass_loop].
    destruct rest as [|a rest1].
    { rewrite len_append. change (len "") with 0.
      destruct (Z.ltb_spec (len pre) (len pre + 0)); [lia|reflexivity]. }
    rewrite !len_String in Hi. pose proof (len_nonneg rest1) as Hr1.
    replace (int_add (len pre) 3)
      with (if 2 <=? len rest1 then len pre + 3 else int_add (len pre) 3)
      by (destruct (Z.leb_spec 2 (len rest1)); [rewrite Hi by lia|]; reflexivity).
    rewrite !Hi by lia.
    rewrite !index_append_r by lia.
    replace (index (pre +:+ String a rest1) (len pre))
      with (index (pre +:+ String a rest1) (len pre + 0))
      by (f_equal; lia).
    rewrite index_append_r by lia.
    rewrite len_append, !len_String.
    destruct (Z.ltb_spec (len pre) (len pre + (1 + len rest1))); [|lia].
    assert (Hstep1 : forall rest',
      rest1 = rest' ->
      characterClass_loop k (pre +:+ String a rest1) ch (len pre + 1)
      = Ret (in_class rest' ch)).
    { intros rest' <-. rewrite append_assoc3.
      replace (len pre + 1) with (len (pre +:+ String a EmptyString))
        by (rewrite len_append, len_String; reflexivity).
      apply IH; [rewrite ?length_String in Hk; lia|].
      rewrite <- append_assoc3. exact Hmax. }
    destruct rest1 as [|b rest2].
    { change (len "") with 0.
      destruct (Z.ltb_spec (len pre + 2) (len pre + (1 + 0))); [lia|].
      cbn [mbind outcome_bind mret outcome_ret index_head].
      rewrite index_head. cbn [mbind outcome_bind].
      rewrite in_class_single by reflexivity.
      destruct (byte_eqb a ch); [reflexivity|].
      rewrite (Hstep1 _ eq_refl). reflexivity. }
    destruct rest2 as [|c rest3].
    { rewrite !len_String. change (len "") with 0.
      destruct (Z.ltb_spec (len pre + 2) (len pre + (1 + (1 + 0)))); [lia|].
      cbn [mbind outcome_bind mret outcome_ret].
      rewrite index_head. cbn [mbind outcome_bind].
      rewrite in_class_single by reflexivity.
      destruct (byte_eqb a ch); [reflexivity|].
      rewrite (Hstep1 _ eq_refl). reflexivity. }
    rewrite !len_String. pose proof (len_nonneg rest3) as Hr3.
    destruct (Z.leb_spec 2 (1 + (1 + len rest3))); [|lia].
    destruct (Z.ltb_spec (len pre + 2)
                (len pre + (1 + (1 + (1 + len rest3))))); [|lia].
    change (index (String a (String b (String c rest3))) 1) with (Ret b).
    change (index (String a (String b (String c rest3))) 2) with (Ret c).
    rewrite index_head.
    cbn [mbind outcome_bind mret outcome_ret].
    unfold in_class. cbn [class_items].
    destruct (byte_eqb b "-") eqn:Hdash.
    + cbn [existsb item_matches].
      destruct (byte_leb a ch && byte_leb ch c); [reflexivity|].
      cbn [orb]. fold (in_class rest3 ch).
      rewrite (append_assoc3 pre a), (append_assoc3 _ b), (append_assoc3 _ c).
      replace (len pre + 3)
        with (len (((pre +:+ String a EmptyString) +:+ String b EmptyString)
                   +:+ String c EmptyString))
        by (rewrite !len_append, !len_String; change (len "") with 0; lia).
      apply IH; [rewrite ?length_String in Hk; lia|].
      rewrite <- !append_assoc3. exact Hmax.
    + cbn [existsb item_matches].
      destruct (byte_eqb a ch); [reflexivity|].
      cbn [orb]. fold (class_items (String b (String c rest3))).
      apply (Hstep1 _ eq_refl).
Qed.

Lemma get_lt (s : string) (n : nat) :
  (n < String.length s)%nat -> exists ch, String.get n s = Some ch.
Proof.
  revert n. induction s as [|a s IH]; intros n Hn.
  - rewrite ?length_String in Hn. change (String.length "") with 0%nat in Hn. lia.
  - destruct n as [|n]; [exists a; reflexivity|].
    rewrite length_String in Hn. apply (IH n). lia.
Qed.

Section Properties.

Variable lineInfo : string -> Z -> Z * Z.
Variable rules : list Rule.

Lemma mkOperatorError_shape (expected s : string) (p n : Z) :
  exists line col,
    mkOperatorError lineInfo expected s p n
    = OperatorError [expected] s line col n.
Proof.
  unfold mkOperatorError. destruct (lineInfo s p) as [line col]. eauto.
Qed.

(** C10. [v.Token()] is the text of the first captured token when the
    frame holds tokens, and the matched substring [v.S] of the frame
    otherwise. *)
Theorem Values_Token_spec (v : Values) :
  (forall t : Token, v_Ts v !! 0%nat = Some t -> Values_Token v = tok_S t)
  /\ ((0 < List.length (v_Ts v))%nat -> exists t : Token, v_Ts v !! 0%nat = Some t)
  /\ (List.length (v_Ts v) = 0%nat -> Values_Token v = v_S v).
Proof.
  unfold Values_Token. destruct (v_Ts v) as [|t ts]; cbn.
  - split; [discriminate|]. split; [lia|reflexivity].
  - split; [intros t' [= <-]; reflexivity|].
    split; [eauto|discriminate].
Qed.

(** C5. A character class at the end of the input fails with
    [OperatorError{Expected=[chars], Length=0}]; before the end it
    succeeds with length 1 exactly when the byte [s[p]] is one of the
    single characters or lies within one of the ranges of the class
    string, and fails with [Length=1] otherwise; neither case touches the
    frame.  [Cls("a-zA-Z0-9_")] accepts ["a"], ["9"], ["_"] and rejects
    ["-"] and the empty input. *)
Theorem characterClass_spec (fuel : nat) (rec : parser) (chars s : string)
    (p : Z) (v : Values) (c : context) (d : Any) (h : heap) :
  0 <= p <= len s -> len s <= int_max -> len chars + 2 <= int_max ->
  let run_it := parseCore lineInfo rules fuel rec (characterClass chars) s p v c d h in
  (p = len s ->
     exists line col,
       run_it = Ret (mkResult 0 (Some (OperatorError [chars] s line col 0)) v
                       (setErrorPos p c) h))
  /\ (p < len s ->
        exists ch line col,
          String.get (Z.to_nat p) s = Some ch
          /\ run_it =
             if in_class chars ch then Ret (mkResult 1 None v c h)
             else Ret (mkResult 0 (Some (OperatorError [chars] s line col 1)) v
                         (setErrorPos p c) h))
  /\ run_l 3 (Cls "a-zA-Z0-9_") "a" = Some (1, true)
  /\ run_l 3 (Cls "a-zA-Z0-9_") "9" = Some (1, true)
  /\ run_l 3 (Cls "a-zA-Z0-9_") "_" = Some (1, true)
  /\ run_l 3 (Cls "a-zA-Z0-9_") "-" = Some (0, false)
  /\ run_l 3 (Cls "a-zA-Z0-9_") "" = Some (0, false).
Proof.
  intros Hp Hs Hchars run_it.
  assert (Hsub : int_sub (len s) p = len s - p).
  { apply int_sub_id. unfold in_int, int_min, int_max in *. lia. }
  split; [|split; [|repeat split; vm_compute; reflexivity]].
  - intros ->. subst run_it. cbn [parseCore]. unfold characterClass_parseCore.
    rewrite Hsub. replace (len s - len s) with 0 by lia. cbn [Z.ltb Z.compare].
    destruct (mkOperatorError_shape chars s (len s) 0) as (line & col & ->).
    eauto.
  - intros Hlt. subst run_it. cbn [parseCore]. unfold characterClass_parseCore.
    rewrite Hsub. destruct (Z.ltb_spec (len s - p) 1); [lia|].
    destruct (get_lt s (Z.to_nat p)) as [ch Hch]; [unfold len in Hlt; lia|].
    destruct (mkOperatorError_shape chars s p 1) as (line & col & ->).
    exists ch, line, col. split; [exact Hch|].
    rewrite (index_get s p ch) by (lia || exact Hch).
    cbn [mbind outcome_bind].
    pose proof (characterClass_loop_spec (String.length chars) chars
                  EmptyString ch) as Hloop.
    change (len "") with 0 in Hloop. change ("" +:+ chars) with chars in Hloop.
    rewrite Hloop by (lia || exact Hchars).
    cbn [mbind outcome_bind]. destruct (in_class chars ch); reflexivity.
Qed.

(** C8. A reference with a nil rule evaluates the operator at index
    [iarg] of the argument list on top of [argsStack]; it does so exactly
    when the stack is not empty and [0 <= iarg < len(top)], and panics
    with an index out of range when the stack is empty or [iarg] is out of
    range.  The panic is reached by a parameter reference evaluated
    outside a macro call. *)
Theorem reference_parameter_spec (fuel : nat) (rec : parser) (name : string)
    (iarg : Z) (args : list operator) (iargs : list Z) (pos : Z)
    (s : string) (p : Z) (v : Values) (c : context) (d : Any) (h : heap) :
  let run_it := parseCore lineInfo rules fuel rec
                  (reference name iarg args iargs pos None) s p v c d h in
  (forall (top : list operator) (a : operator),
      last (c_argsStack c) = Some top ->
      0 <= iarg < Z.of_nat (List.length top) ->
      top !! Z.to_nat iarg = Some a ->
      run_it = rec a s p v c d h)
  /\ (forall top : list operator,
        last (c_argsStack c) = Some top ->
        0 <= iarg < Z.of_nat (List.length top) ->
        exists a : operator, top !! Z.to_nat iarg = Some a)
  /\ (c_argsStack c = [] -> run_it = Panic IndexOutOfRange)
  /\ (forall top : list operator,
        last (c_argsStack c) = Some top ->
        iarg < 0 \/ Z.of_nat (List.length top) <= iarg ->
        run_it = Panic IndexOutOfRange)
  /\ run 3 (Ref "x" [] 0) "a" = Panic IndexOutOfRange.
Proof.
  assert (Htop : forall top, last (c_argsStack c) = Some top -> topArg c = top).
  { intros top Hl. unfold topArg. destruct (c_argsStack c) as [|x l] eqn:E.
    - discriminate.
    - rewrite <- E in *. clear E. revert Hl.
      induction (c_argsStack c) as [|y l' IH]; [discriminate|].
      destruct l' as [|z l'']; [intros [= ->]; reflexivity|].
      intros Hl. apply IH. exact Hl. }
  intros run_it. subst run_it. cbn [parseCore]. unfold reference_parseCore, nth_arg.
  repeat split.
  - intros top a Hl Hi Ha. rewrite (Htop _ Hl).
    destruct (Z.ltb_spec iarg 0); [lia|]. now rewrite Ha.
  - intros top Hl Hi. apply lookup_lt_is_Some_2. lia.
  - intros E. unfold topArg. rewrite E.
    destruct (iarg <? 0); [reflexivity|]. now rewrite lookup_nil.
  - intros top Hl Hi. rewrite (Htop _ Hl).
    destruct (Z.ltb_spec iarg 0); [reflexivity|].
    rewrite (lookup_ge_None_2 top) by lia. reflexivity.
Qed.

(** ** Prioritized choice *)

Lemma bind_Ret_inv {A B : Type} (m : outcome A) (f : A -> outcome B) (b : B) :
  (x ← m; f x) = Ret b -> exists a, m = Ret a /\ f a = Ret b.
Proof. destruct m as [a| |]; cbn; [eauto|discriminate..]. Qed.

Lemma alternatives_fail_length (rec : parser) (s : string) (p : Z) (d : Any)
    (opes : list operator) (c : context) (h : heap) (errs : list error)
    (c' : context) (h' : heap) :
  alternatives_fail rec s p d opes c h errs c' h' ->
  List.length errs = List.length opes.
Proof. induction 1; cbn; congruence. Qed.

Lemma prioritizedChoice_loop_sound (rec : parser) (s : string) (p : Z)
    (v : Values) (d : Any) (opes : list operator) :
  forall (c : context) (h : heap) (errs0 : list error) (id0 : Z) (r : result),
    prioritizedChoice_loop rec opes s p v c d h errs0 id0 = Ret r ->
    choice_succeeds rec opes s p v c d h id0 r
    \/ choice_fails rec opes s p v c d h errs0 r.
Proof.
  induction opes as [|ope rest IH]; intros c h errs0 id0 r Hrun.
  - right. injection Hrun as <-. exists [], c, h.
    split; [constructor|]. now rewrite app_nil_r.
  - cbn [prioritizedChoice_loop] in Hrun.
    change (let '(chv, c1) := push c in _) with
      (rk ← rec ope s p (push c).1 (push c).2 d h;
       c2 ← pop (res_c rk);
       match res_err rk with
       | None => Ret (mkResult (res_l rk) None (splice v (res_v rk) id0) c2 (res_h rk))
       | Some e => prioritizedChoice_loop rec rest s p v c2 d (res_h rk)
                     (errs0 ++ [e]) (id0 + 1)
       end) in Hrun.
    apply bind_Ret_inv in Hrun as (rk & Hrk & Hrun).
    apply bind_Ret_inv in Hrun as (c2 & Hpop & Hrun).
    destruct (res_err rk) as [e|] eqn:Herr.
    + apply IH in Hrun as [Hok|Hko].
      * left. destruct Hok as (pre & o & post & errs & c1 & h1 & rk' & c2' &
                               -> & Hpre & Hrk' & Herr' & Hpop' & ->).
        exists (ope :: pre), o, post, (e :: errs), c1, h1, rk', c2'.
        repeat split; try assumption.
        -- econstructor; eassumption.
        -- cbn [List.length]. do 2 f_equal. lia.
      * right. destruct Hko as (errs & c1 & h1 & Hall & ->).
        exists (e :: errs), c1, h1. split.
        -- econstructor; eassumption.
        -- now rewrite <- app_assoc.
    + left. injection Hrun as <-.
      exists [], ope, rest, [], c, h, rk, c2.
      repeat split; try assumption; try constructor.
      cbn. now rewrite Z.add_0_r.
Qed.

Lemma prioritizedChoice_loop_fails (rec : parser) (s : string) (p : Z)
    (v : Values) (d : Any) (opes : list operator) (c : context) (h : heap)
    (errs : list error) (c1 : context) (h1 : heap) :
  alternatives_fail rec s p d opes c h errs c1 h1 ->
  forall (errs0 : list error) (id0 : Z),
    prioritizedChoice_loop rec opes s p v c d h errs0 id0
    = Ret (mkResult 0 (Some (SequenceError (errs0 ++ errs))) v c1 h1).
Proof.
  induction 1 as [c h|ope opes c h r e c1 errs c' h' Hr He Hpop _ IH];
    intros errs0 id0.
  - cbn. now rewrite app_nil_r.
  - cbn [prioritizedChoice_loop].
    change (let '(chv, c1) := push c in _) with
      (rk ← rec ope s p (push c).1 (push c).2 d h;
       c2 ← pop (res_c rk);
       match res_err rk with
       | None => Ret (mkResult (res_l rk) None (splice v (res_v rk) id0) c2 (res_h rk))
       | Some e => prioritizedChoice_loop rec opes s p v c2 d (res_h rk)
                     (errs0 ++ [e]) (id0 + 1)
       end).
    rewrite Hr. cbn [mbind outcome_bind]. rewrite Hpop. cbn [mbind outcome_bind].
    rewrite He, IH. now rewrite <- app_assoc.
Qed.

Lemma prioritizedChoice_loop_succeeds (rec : parser) (s : string) (p : Z)
    (v : Values) (d : Any) (pre : list operator) (c : context) (h : heap)
    (errs : list error) (c1 : context) (h1 : heap) :
  alternatives_fail rec s p d pre c h errs c1 h1 ->
  forall (ope : operator) (post : list operator) (rk : result) (c2 : context)
         (errs0 : list error) (id0 : Z),
    rec ope s p (push c1).1 (push c1).2 d h1 = Ret rk ->
    res_err rk = None ->
    pop (res_c rk) = Ret c2 ->
    prioritizedChoice_loop rec (pre ++ ope :: post) s p v c d h errs0 id0
    = Ret (mkResult (res_l rk) None
             (splice v (res_v rk) (id0 + Z.of_nat (List.length pre)))
             c2 (res_h rk)).
Proof.
  induction 1 as [c h|o opes c h r e c1 errs c' h' Hr He Hpop _ IH];
    intros ope post rk c2 errs0 id0 Hrk Herr Hpop2.
  - cbn [app prioritizedChoice_loop].
    change (let '(chv, c1) := push c in _) with
      (rk ← rec ope s p (push c).1 (push c).2 d h;
       c2 ← pop (res_c rk);
       match res_err rk with
       | None => Ret (mkResult (res_l rk) None (splice v (res_v rk) id0) c2 (res_h rk))
       | Some e => prioritizedChoice_loop rec post s p v c2 d (res_h rk)
                     (errs0 ++ [e]) (id0 + 1)
       end).
    rewrite Hrk. cbn [mbind outcome_bind]. rewrite Hpop2. cbn [mbind outcome_bind].
    rewrite Herr. cbn. now rewrite Z.add_0_r.
  - cbn [app prioritizedChoice_loop].
    change (let '(chv, c1) := push c in _) with
      (rk ← rec o s p (push c).1 (push c).2 d h;
       c2 ← pop (res_c rk);
       match res_err rk with
       | None => Ret (mkResult (res_l rk) None (splice v (res_v rk) id0) c2 (res_h rk))
       | Some e => prioritizedChoice_loop rec (opes ++ ope :: post) s p v c2 d (res_h rk)
                     (errs0 ++ [e]) (id0 + 1)
       end).
    rewrite Hr. cbn [mbind outcome_bind]. rewrite Hpop. cbn [mbind outcome_bind].
    rewrite He, (IH ope post rk c2) by assumption.
    do 3 f_equal. cbn [List.length]. lia.
Qed.

Lemma pop_snoc (c : context) (st : list Values) (v : Values) :
  c_svStack c = st ++ [v] -> pop c = Ret (set_svStack st c).
Proof.
  unfold pop. intros ->. destruct (st ++ [v]) eqn:E.
  - destruct st; discriminate.
  - now rewrite <- E, removelast_last.
Qed.

Lemma pop_frame_removed (c' c2 : context) :
  pop c' = Ret c2 <-> frame_removed c' c2.
Proof.
  split.
  - intros Hpop.
    assert (Hne : c_svStack c' <> [])
      by (intros E; unfold pop in Hpop; rewrite E in Hpop; discriminate).
    destruct (exists_last Hne) as (st & fr & Hst).
    exists st, fr. split; [exact Hst|].
    rewrite (pop_snoc _ _ _ Hst) in Hpop. now injection Hpop as <-.
  - intros (st & fr & Hst & ->). exact (pop_snoc _ _ _ Hst).
Qed.

Lemma alternatives_fail_discarded (rec : parser) (s : string) (p : Z) (d : Any)
    (opes : list operator) (c : context) (h : heap) (errs : list error)
    (c' : context) (h' : heap) :
  alternatives_fail rec s p d opes c h errs c' h'
  <-> alternatives_discarded rec s p d opes c h errs c' h'.
Proof.
  split.
  - induction 1 as [|ope opes c h r e c1 errs c' h' Hr He Hpop _ IH];
      [constructor|].
    econstructor; [exact Hr|exact He| |exact IH].
    now apply pop_frame_removed.
  - induction 1 as [|ope opes c h r e c1 errs c' h' Hr He Hpop _ IH];
      [constructor|].
    econstructor; [exact Hr|exact He| |exact IH].
    now apply pop_frame_removed.
Qed.

(** C1. A prioritized choice returns exactly in one of two ways.  Either
    some alternatives, tried from left to right, each on a new frame
    appended to the stack of frames and removed from it afterwards, fail,
    and the next one succeeds on such a frame: then the [Vs] and [Ts] of
    that frame are appended to those of the parent, [Pos] and [S] are
    copied from it, [Choice] is the zero-based ordinal of the alternative,
    the length is the length of the child, the context is the one the
    child left without the last frame of its stack, and the alternatives
    after it play no part.  Or all alternatives fail: then the length is
    0, the error is the [SequenceError] of their errors in order, and the
    frame of the parent is as it was. *)
Theorem prioritizedChoice_spec (fuel : nat) (rec : parser)
    (opes : list operator) (s : string) (p : Z) (v : Values) (c : context)
    (d : Any) (h : heap) (r : result) :
  parseCore lineInfo rules fuel rec (prioritizedChoice opes) s p v c d h = Ret r
  <->
  (exists (pre : list operator) (ope : operator) (post : list operator)
          (errs : list error) (c1 : context) (h1 : heap) (rk : result)
          (st : list Values) (fr : Values),
      opes = pre ++ ope :: post
      /\ alternatives_discarded rec s p d pre c h errs c1 h1
      /\ rec ope s p (Values_new (c_s c1))
           (set_svStack (c_svStack c1 ++ [Values_new (c_s c1)]) c1) d h1
         = Ret rk
      /\ res_err rk = None
      /\ c_svStack (res_c rk) = st ++ [fr]
      /\ res_l r = res_l rk
      /\ res_err r = None
      /\ v_Vs (res_v r) = v_Vs v ++ v_Vs (res_v rk)
      /\ v_Ts (res_v r) = v_Ts v ++ v_Ts (res_v rk)
      /\ v_Pos (res_v r) = v_Pos (res_v rk)
      /\ v_S (res_v r) = v_S (res_v rk)
      /\ v_Choice (res_v r) = Z.of_nat (List.length pre)
      /\ v_SS (res_v r) = v_SS v
      /\ res_c r = set_svStack st (res_c rk)
      /\ res_h r = res_h rk)
  \/
  (exists (errs : list error) (c1 : context) (h1 : heap),
      alternatives_discarded rec s p d opes c h errs c1 h1
      /\ List.length errs = List.length opes
      /\ r = mkResult 0 (Some (SequenceError errs)) v c1 h1).
Proof.
  cbn [parseCore]. unfold prioritizedChoice_parseCore. split.
  - intros Hrun. apply prioritizedChoice_loop_sound in Hrun as [Hok|Hko].
    + left. destruct Hok as (pre & ope & post & errs & c1 & h1 & rk & c2 &
                             -> & Hpre & Hrk & Herr & Hpop & ->).
      apply pop_frame_removed in Hpop as (st & fr & Hst & ->).
      apply alternatives_fail_discarded in Hpre.
      exists pre, ope, post, errs, c1, h1, rk, st, fr. cbn.
      repeat split; assumption || reflexivity.
    + right. destruct Hko as (errs & c1 & h1 & Hall & ->).
      exists errs, c1, h1. repeat split.
      * now apply alternatives_fail_discarded.
      * eapply alternatives_fail_length; eassumption.
  - intros [Hok|Hko].
    + destruct Hok as (pre & ope & post & errs & c1 & h1 & rk & st & fr &
                       -> & Hpre & Hrk & Herr & Hst & Hl & He & HVs & HTs &
                       HPos & HS & HCh & HSS & Hc & Hh).
      apply alternatives_fail_discarded in Hpre.
      rewrite (prioritizedChoice_loop_succeeds rec s p v d pre c h errs c1 h1
                 Hpre ope post rk (set_svStack st (res_c rk)) [] 0 Hrk Herr
                 (pop_snoc _ _ _ Hst)).
      f_equal. destruct r as [l e [ss vs ps st' ch ts] rc rh]. cbn in *.
      subst. reflexivity.
    + destruct Hko as (errs & c1 & h1 & Hall & _ & ->).
      apply alternatives_fail_discarded in Hall.
      now rewrite (prioritizedChoice_loop_fails rec s p v d opes c h errs c1 h1 Hall).
Qed.

(** ** Sequence *)

Lemma sequence_loop_sound (rec : parser) (s : string) (p : Z) (d : Any)
    (opes : list operator) :
  forall (l : Z) (v : Values) (c : context) (h : heap) (r : result),
    sequence_loop rec opes s p l v c d h = Ret r ->
    (exists (pre : list operator) (ope : operator) (post : list operator)
            (l1 : Z) (v1 : Values) (c1 : context) (h1 : heap)
            (rk : result) (e : error),
        opes = pre ++ ope :: post
        /\ children_succeed rec s p d pre l v c h l1 v1 c1 h1
        /\ rec ope s (int_add p l1) v1 c1 d h1 = Ret rk
        /\ res_err rk = Some e
        /\ r = mkResult 0 (Some e) (res_v rk) (res_c rk) (res_h rk))
    \/ (exists (l1 : Z) (v1 : Values) (c1 : context) (h1 : heap),
          children_succeed rec s p d opes l v c h l1 v1 c1 h1
          /\ r = mkResult l1 None v1 c1 h1).
Proof.
  induction opes as [|ope rest IH]; intros l v c h r Hrun.
  - right. injection Hrun as <-. exists l, v, c, h. split; [constructor|reflexivity].
  - cbn [sequence_loop] in Hrun.
    apply bind_Ret_inv in Hrun as (rk & Hrk & Hrun).
    destruct (res_err rk) as [e|] eqn:Herr.
    + left. injection Hrun as <-.
      exists [], ope, rest, l, v, c, h, rk, e.
      repeat split; try assumption. constructor.
    + apply IH in Hrun as [Hko|Hok].
      * left. destruct Hko as (pre & o & post & l1 & v1 & c1 & h1 & rk' & e &
                               -> & Hpre & Hrk' & Herr' & ->).
        exists (ope :: pre), o, post, l1, v1, c1, h1, rk', e.
        repeat split; try assumption. econstructor; eassumption.
      * right. destruct Hok as (l1 & v1 & c1 & h1 & Hall & ->).
        exists l1, v1, c1, h1. split; [|reflexivity].
        econstructor; eassumption.
Qed.

Lemma sequence_loop_succeeds (rec : parser) (s : string) (p : Z) (d : Any)
    (opes : list operator) (l : Z) (v : Values) (c : context) (h : heap)
    (l1 : Z) (v1 : Values) (c1 : context) (h1 : heap) :
  children_succeed rec s p d opes l v c h l1 v1 c1 h1 ->
  sequence_loop rec opes s p l v c d h = Ret (mkResult l1 None v1 c1 h1).
Proof.
  induction 1 as [|ope opes l v c h r l' v' c' h' Hr He _ IH]; [reflexivity|].
  cbn [sequence_loop]. rewrite Hr. cbn [mbind outcome_bind]. now rewrite He.
Qed.

Lemma sequence_loop_fails (rec : parser) (s : string) (p : Z) (d : Any)
    (pre : list operator) (l : Z) (v : Values) (c : context) (h : heap)
    (l1 : Z) (v1 : Values) (c1 : context) (h1 : heap) :
  children_succeed rec s p d pre l v c h l1 v1 c1 h1 ->
  forall (ope : operator) (post : list operator) (rk : result) (e : error),
    rec ope s (int_add p l1) v1 c1 d h1 = Ret rk ->
    res_err rk = Some e ->
    sequence_loop rec (pre ++ ope :: post) s p l v c d h
    = Ret (mkResult 0 (Some e) (res_v rk) (res_c rk) (res_h rk)).
Proof.
  induction 1 as [|o opes l v c h r l' v' c' h' Hr He _ IH];
    intros ope post rk e Hrk Herr.
  - cbn [app sequence_loop]. rewrite Hrk. cbn [mbind outcome_bind].
    now rewrite Herr.
  - cbn [app sequence_loop]. rewrite Hr. cbn [mbind outcome_bind].
    rewrite He. now apply IH.
Qed.

(** C2 (amended). A sequence returns exactly in one of two ways.  Either
    some children, evaluated from left to right on the current frame with
    the length accumulating, succeed and the next one fails: then the
    sequence returns [(0, err)] with the error of that child, the children
    after it play no part, and the frame is left as the failing child left
    it, without any rollback of what the earlier children appended.  Or
    all children succeed: then the accumulated length is returned. *)
Theorem sequence_spec (fuel : nat) (rec : parser) (opes : list operator)
    (s : string) (p : Z) (v : Values) (c : context) (d : Any) (h : heap)
    (r : result) :
  parseCore lineInfo rules fuel rec (sequence opes) s p v c d h = Ret r
  <->
  (exists (pre : list operator) (ope : operator) (post : list operator)
          (l1 : Z) (v1 : Values) (c1 : context) (h1 : heap)
          (rk : result) (e : error),
      opes = pre ++ ope :: post
      /\ children_succeed rec s p d pre 0 v c h l1 v1 c1 h1
      /\ rec ope s (int_add p l1) v1 c1 d h1 = Ret rk
      /\ res_err rk = Some e
      /\ r = mkResult 0 (Some e) (res_v rk) (res_c rk) (res_h rk))
  \/ (exists (l1 : Z) (v1 : Values) (c1 : context) (h1 : heap),
        children_succeed rec s p d opes 0 v c h l1 v1 c1 h1
        /\ r = mkResult l1 None v1 c1 h1).
Proof.
  cbn [parseCore]. unfold sequence_parseCore. split.
  - apply sequence_loop_sound.
  - intros [Hko|Hok].
    + destruct Hko as (pre & ope & post & l1 & v1 & c1 & h1 & rk & e &
                       -> & Hpre & Hrk & Herr & ->).
      eapply sequence_loop_fails; eassumption.
    + destruct Hok as (l1 & v1 & c1 & h1 & Hall & ->).
      now apply sequence_loop_succeeds.
Qed.

(** ** Repetition *)

Lemma repetition_loop_iterations (rec : parser) (ope : operator) (s : string)
    (p : Z) (d : Any) (n : nat) (l : Z) (v : Values) (c : context) (h : heap)
    (l1 : Z) (v1 : Values) (c1 : context) (h1 : heap) :
  iterations rec ope s p d n l v c h l1 v1 c1 h1 ->
  forall (k : nat) (save : Z),
    repetition_loop (n + k) rec ope s p save l v c d h
    = repetition_loop k rec ope s p save l1 v1 c1 d h1.
Proof.
  induction 1 as [|n l v c h r l' v' c' h' Hlt Hr He _ IH]; intros k save;
    [reflexivity|].
  cbn [Nat.add repetition_loop].
  destruct (Z.ltb_spec (int_add p l) (len s)); [|lia].
  rewrite Hr. cbn [mbind outcome_bind]. rewrite He. apply IH.
Qed.

Lemma repetition_loop_stop (rec : parser) (ope : operator) (s : string)
    (p : Z) (d : Any) (k : nat) (save l : Z) (v : Values) (c : context)
    (h : heap) (rk : result) (e : error) :
  int_add p l < len s ->
  rec ope s (int_add p l) v c d h = Ret rk ->
  res_err rk = Some e ->
  repetition_loop (S k) rec ope s p save l v c d h
  = Ret (mkResult l None (set_Vs_Ts (v_Vs v) (v_Ts v) (res_v rk))
           (set_errorPos save (res_c rk)) (res_h rk)).
Proof.
  intros Hlt Hr He. cbn [repetition_loop].
  destruct (Z.ltb_spec (int_add p l) (len s)); [|lia].
  rewrite Hr. cbn [mbind outcome_bind]. now rewrite He.
Qed.

Lemma repetition_loop_end (rec : parser) (ope : operator) (s : string)
    (p : Z) (d : Any) (k : nat) (save l : Z) (v : Values) (c : context)
    (h : heap) :
  len s <= int_add p l ->
  repetition_loop k rec ope s p save l v c d h = Ret (mkResult l None v c h).
Proof.
  intros Hge. destruct k; cbn [repetition_loop];
    destruct (Z.ltb_spec (int_add p l) (len s)); (lia || reflexivity).
Qed.

(** C3 (amended). When a repetition has made [n] successful iterations
    and the child then fails before the end of the input, the loop stops
    and returns the length accumulated so far without error; the [Vs] and
    the [Ts] of the frame are those from immediately before the failing
    iteration, while [c.errorPos] is the one saved once before the loop:
    its value at the entry of [zeroOrMore], and its value after the first,
    mandatory child of [oneOrMore]. *)
Theorem repetition_restore_spec (rec : parser) (ope : operator) (s : string)
    (p : Z) (d : Any) (n k : nat) (l1 : Z) (v1 : Values) (c1 : context)
    (h1 : heap) (rk : result) (e : error) :
  int_add p l1 < len s ->
  rec ope s (int_add p l1) v1 c1 d h1 = Ret rk ->
  res_err rk = Some e ->
  (n < k)%nat ->
  (forall (v : Values) (c : context) (h : heap),
      iterations rec ope s p d n 0 v c h l1 v1 c1 h1 ->
      exists r : result,
        parseCore lineInfo rules k rec (zeroOrMore ope) s p v c d h = Ret r
        /\ res_l r = l1 /\ res_err r = None
        /\ v_Vs (res_v r) = v_Vs v1
        /\ v_Ts (res_v r) = v_Ts v1
        /\ c_errorPos (res_c r) = c_errorPos c)
  /\ (forall (v : Values) (c : context) (h : heap) (r0 : result),
        rec ope s p v c d h = Ret r0 ->
        res_err r0 = None ->
        iterations rec ope s p d n (res_l r0) (res_v r0) (res_c r0) (res_h r0)
          l1 v1 c1 h1 ->
        exists r : result,
          parseCore lineInfo rules k rec (oneOrMore ope) s p v c d h = Ret r
          /\ res_l r = l1 /\ res_err r = None
          /\ v_Vs (res_v r) = v_Vs v1
          /\ v_Ts (res_v r) = v_Ts v1
          /\ c_errorPos (res_c r) = c_errorPos (res_c r0)).
Proof.
  intros Hlt Hrk Herr Hnk.
  destruct k as [|k]; [lia|].
  replace (S k) with (n + S (k - n))%nat by lia.
  split.
  - intros v c h Hit. eexists. cbn [parseCore]. unfold zeroOrMore_parseCore.
    rewrite (repetition_loop_iterations _ _ _ _ _ _ _ _ _ _ _ _ _ _ Hit).
    rewrite (repetition_loop_stop _ _ _ _ _ _ _ _ _ _ _ _ _ Hlt Hrk Herr).
    repeat split.
  - intros v c h r0 Hr0 He0 Hit. eexists. cbn [parseCore].
    unfold oneOrMore_parseCore. rewrite Hr0. cbn [mbind outcome_bind].
    rewrite He0.
    rewrite (repetition_loop_iterations _ _ _ _ _ _ _ _ _ _ _ _ _ _ Hit).
    rewrite (repetition_loop_stop _ _ _ _ _ _ _ _ _ _ _ _ _ Hlt Hrk Herr).
    repeat split.
Qed.

(** ** The context across an evaluation *)

Ltac inv_bind H :=
  repeat match type of H with
         | mbind _ _ = Ret _ =>
             let x := fresh "x" in
             let Hx := fresh "Hx" in
             apply bind_Ret_inv in H as (x & Hx & H)
         end.

Lemma stable_refl (c : context) : stable c c.
Proof. unfold stable. intuition. Qed.

Lemma stable_trans (c1 c2 c3 : context) :
  stable c1 c2 -> stable c2 c3 -> stable c1 c3.
Proof. unfold stable. intuition congruence. Qed.

Lemma stable_set_errorPos (c c' : context) (x : Z) :
  stable c c' -> stable c (set_errorPos x c').
Proof. unfold stable. cbn. intuition. Qed.

Lemma stable_setErrorPos (c c' : context) (x : Z) :
  stable c c' -> stable c (setErrorPos x c').
Proof.
  unfold setErrorPos. destruct (c_errorPos c' <? x); [|easy].
  apply stable_set_errorPos.
Qed.

Lemma popArgs_snoc (c : context) (st : list (list operator))
    (args : list operator) :
  c_argsStack c = st ++ [args] -> popArgs c = Ret (set_argsStack st c).
Proof.
  unfold popArgs. intros ->. destruct (st ++ [args]) eqn:E.
  - destruct st; discriminate.
  - now rewrite <- E, removelast_last.
Qed.

Lemma stable_push_pop (c c' c2 : context) :
  stable (push c).2 c' -> pop c' = Ret c2 -> stable c c2.
Proof.
  intros H Hpop.
  destruct H as (H1 & H2 & H3 & H4 & H5 & H6 & H7 & H8 & H9 & H10 & H11).
  rewrite (pop_snoc _ _ _ H4) in Hpop. injection Hpop as <-.
  unfold stable. cbn in *. intuition.
Qed.

Lemma stable_pushArgs_popArgs (c c' c2 : context) (args : list operator) :
  stable (pushArgs args c) c' -> popArgs c' = Ret c2 -> stable c c2.
Proof.
  intros H Hpop.
  destruct H as (H1 & H2 & H3 & H4 & H5 & H6 & H7 & H8 & H9 & H10 & H11).
  rewrite (popArgs_snoc _ _ _ H5) in Hpop. injection Hpop as <-.
  unfold stable. cbn in *. intuition.
Qed.

Lemma stable_inToken (c c' : context) :
  stable (set_inToken true c) c' -> stable c (set_inToken false c').
Proof. unfold stable. cbn. intuition. Qed.

Lemma stable_inWhitespace (c c' : context) :
  c_inWhitespace c = false ->
  stable (set_inWhitespace true c) c' -> stable c (set_inWhitespace false c').
Proof. unfold stable. cbn. intuition. Qed.

Section StableChildren.

Variable rec : parser.
Hypothesis Hrec : stable_parser rec.

Lemma sequence_loop_stable (opes : list operator) (s : string) (p : Z)
    (d : Any) :
  forall (l : Z) (v : Values) (c : context) (h : heap) (r : result),
    sequence_loop rec opes s p l v c d h = Ret r -> stable c (res_c r).
Proof.
  induction opes as [|ope rest IH]; intros l v c h r Hrun.
  - injection Hrun as <-. apply stable_refl.
  - cbn [sequence_loop] in Hrun. inv_bind Hrun. apply Hrec in Hx.
    destruct (res_err x).
    + injection Hrun as <-. exact Hx.
    + eapply stable_trans; [exact Hx|]. eapply IH. exact Hrun.
Qed.

Lemma prioritizedChoice_loop_stable (opes : list operator) (s : string)
    (p : Z) (v : Values) (d : Any) :
  forall (c : context) (h : heap) (errs : list error) (id : Z) (r : result),
    prioritizedChoice_loop rec opes s p v c d h errs id = Ret r ->
    stable c (res_c r).
Proof.
  induction opes as [|ope rest IH]; intros c h errs id r Hrun.
  - injection Hrun as <-. apply stable_refl.
  - apply prioritizedChoice_loop_sound in Hrun as [Hok|Hko].
    + destruct Hok as (pre & o & post & es & c1 & h1 & rk & c2 &
                       E & Hpre & Hrk & Herr & Hpop & ->).
      cbn [res_c]. clear E IH.
      apply Hrec in Hrk. pose proof (stable_push_pop _ _ _ Hrk Hpop) as Hlast.
      eapply stable_trans; [|exact Hlast]. clear Hrk Hpop Hlast.
      induction Hpre as [|o' os c0 h0 r0 e0 c0' es' c'' h'' Hr0 He0 Hp0 _ IHp];
        [apply stable_refl|].
      apply Hrec in Hr0.
      eapply stable_trans; [eapply stable_push_pop; eassumption|exact IHp].
    + destruct Hko as (es & c1 & h1 & Hall & ->). cbn [res_c]. clear IH.
      induction Hall as [|o' os c0 h0 r0 e0 c0' es' c'' h'' Hr0 He0 Hp0 _ IHp];
        [apply stable_refl|].
      apply Hrec in Hr0.
      eapply stable_trans; [eapply stable_push_pop; eassumption|exact IHp].
Qed.

Lemma repetition_loop_stable (ope : operator) (s : string) (p : Z) (d : Any)
    (save : Z) (k : nat) :
  forall (l : Z) (v : Values) (c : context) (h : heap) (r : result),
    repetition_loop k rec ope s p save l v c d h = Ret r -> stable c (res_c r).
Proof.
  induction k as [|k IH]; intros l v c h r Hrun; cbn [repetition_loop] in Hrun;
    destruct (int_add p l <? len s); try discriminate;
    try (injection Hrun as <-; apply stable_refl).
  inv_bind Hrun. apply Hrec in Hx. destruct (res_err x).
  - injection Hrun as <-. cbn [res_c]. now apply stable_set_errorPos.
  - eapply stable_trans; [exact Hx|]. eapply IH. exact Hrun.
Qed.

Lemma literalString_skip_stable (s : string) (p l : Z) (v : Values)
    (c : context) (d : Any) (h : heap) (r : result) :
  literalString_skip rec s p l v c d h = Ret r -> stable c (res_c r).
Proof.
  unfold literalString_skip. intros Hrun.
  destruct (negb (c_inToken c)), (c_whitespaceOpe c);
    try (injection Hrun as <-; apply stable_refl).
  inv_bind Hrun. apply Hrec in Hx.
  destruct (res_err x); injection Hrun as <-; exact Hx.
Qed.

Lemma Rule_parse_stable (rl : Rule) (s : string) (p : Z) (v : Values)
    (c : context) (d : Any) (h : heap) (r : result) :
  Rule_parse rec rl s p v c d h = Ret r -> stable c (res_c r).
Proof.
  unfold Rule_parse. intros Hrun.
  change (let '(chv, c1) := push c in _) with
    (res ← rec (rule_Ope rl) s p (push c).1 (push c).2 d h;
     c2 ← pop (res_c res);
     match res_err res with
     | None =>
         Ret (mkResult (res_l res) None
                (append_Vs
                   match rule_Action rl with
                   | Some act => act (res_v res) d
                   | None => default_value (v_Vs (res_v res))
                   end v) c2 (res_h res))
     | Some e => Ret (mkResult (res_l res) (Some e) v c2 (res_h res))
     end) in Hrun.
  inv_bind Hrun. apply Hrec in Hx.
  pose proof (stable_push_pop _ _ _ Hx Hx0).
  destruct (res_err x); injection Hrun as <-; assumption.
Qed.

Lemma parseCore_stable (lineInfo' : string -> Z -> Z * Z) (rules' : list Rule)
    (fuel : nat) (o : operator) (s : string) (p : Z) (v : Values)
    (c : context) (d : Any) (h : heap) (r : result) :
  parseCore lineInfo' rules' fuel rec o s p v c d h = Ret r ->
  stable c (res_c r).
Proof.
  destruct o; cbn [parseCore]; intros Hrun.
  - eapply sequence_loop_stable; exact Hrun.
  - eapply prioritizedChoice_loop_stable; exact Hrun.
  - eapply repetition_loop_stable; exact Hrun.
  - unfold oneOrMore_parseCore in Hrun. inv_bind Hrun.
    pose proof (Hrec _ _ _ _ _ _ _ _ Hx) as Hs.
    destruct (res_err x); [injection Hrun as <-; exact Hs|].
    eapply stable_trans; [exact Hs|].
    eapply repetition_loop_stable; exact Hrun.
  - unfold option_parseCore in Hrun. inv_bind Hrun. apply Hrec in Hx.
    destruct (res_err x); injection Hrun as <-; cbn [res_c];
      [now apply stable_set_errorPos|exact Hx].
  - unfold andPredicate_parseCore in Hrun.
    change (let '(chv, c1) := push c in _) with
      (r ← rec o s p (push c).1 (push c).2 d h;
       c2 ← pop (res_c r);
       Ret (mkResult 0 (res_err r) v c2 (res_h r))) in Hrun.
    inv_bind Hrun. apply Hrec in Hx. injection Hrun as <-.
    eapply stable_push_pop; eassumption.
  - unfold notPredicate_parseCore in Hrun.
    change (let '(chv, c1) := push c in _) with
      (r ← rec o s p (push c).1 (push c).2 d h;
       c2 ← pop (res_c r);
       match res_err r with
       | None =>
           Ret (mkResult 0
                  (Some (mkOperatorError lineInfo' ("Not " +:+ Label o) s p (res_l r)))
                  v (setErrorPos p c2) (res_h r))
       | Some _ =>
           Ret (mkResult 0 None v (set_errorPos (c_errorPos c) c2) (res_h r))
       end) in Hrun.
    inv_bind Hrun. apply Hrec in Hx.
    pose proof (stable_push_pop _ _ _ Hx Hx0).
    destruct (res_err x); injection Hrun as <-; cbn [res_c];
      [now apply stable_set_errorPos|now apply stable_setErrorPos].
  - unfold literalString_parseCore in Hrun. inv_bind Hrun.
    destruct x.
    + inv_bind Hrun. destruct (isWord lit_id x).
      * inv_bind Hrun. destruct (res_err x0).
        -- injection Hrun as <-. apply stable_refl.
        -- eapply literalString_skip_stable; exact Hrun.
      * eapply literalString_skip_stable; exact Hrun.
    + injection Hrun as <-. cbn [res_c]. apply stable_setErrorPos, stable_refl.
  - unfold characterClass_parseCore in Hrun.
    destruct (int_sub (len s) p <? 1).
    + injection Hrun as <-. apply stable_setErrorPos, stable_refl.
    + inv_bind Hrun. destruct x0; injection Hrun as <-;
        [apply stable_refl|apply stable_setErrorPos, stable_refl].
  - unfold anyCharacter_parseCore in Hrun.
    destruct (int_sub (len s) p <? 1); injection Hrun as <-;
      [apply stable_setErrorPos, stable_refl|apply stable_refl].
  - unfold tokenBoundary_parseCore in Hrun. inv_bind Hrun.
    apply Hrec in Hx. apply stable_inToken in Hx.
    destruct (res_err x); [injection Hrun as <-; exact Hx|].
    inv_bind Hrun. cbn [c_whitespaceOpe set_inToken] in Hrun.
    destruct (c_whitespaceOpe (res_c x)).
    + inv_bind Hrun. apply Hrec in Hx1.
      pose proof (stable_trans _ _ _ Hx Hx1).
      destruct (res_err x1); injection Hrun as <-; assumption.
    + injection Hrun as <-. exact Hx.
  - unfold ignore_parseCore in Hrun.
    change (let '(chv, c1) := push c in _) with
      (r ← rec o s p (push c).1 (push c).2 d h;
       c2 ← pop (res_c r);
       Ret (mkResult (res_l r) (res_err r) v c2 (res_h r))) in Hrun.
    inv_bind Hrun. apply Hrec in Hx. injection Hrun as <-.
    eapply stable_push_pop; eassumption.
  - unfold user_parseCore in Hrun. destruct (fn s p v d) as [[l e] v1].
    injection Hrun as <-. apply stable_refl.
  - unfold reference_parseCore in Hrun. destruct rule as [rid|].
    + destruct (rules' !! rid) as [rl|]; [|discriminate].
      destruct (rule_Parameters rl) as [params|].
      * inv_bind Hrun. apply Rule_parse_stable in Hx. injection Hrun as <-.
        eapply stable_pushArgs_popArgs; eassumption.
      * eapply Rule_parse_stable; exact Hrun.
    + destruct (nth_arg (topArg c) iarg); [|discriminate].
      eapply Hrec; exact Hrun.
  - unfold whitespace_parseCore in Hrun.
    destruct (c_inWhitespace c) eqn:Hws.
    + injection Hrun as <-. apply stable_refl.
    + inv_bind Hrun. apply Hrec in Hx. injection Hrun as <-.
      now apply stable_inWhitespace.
Qed.

End StableChildren.

Lemma parse_stable (fuel : nat) : stable_parser (parse lineInfo rules fuel).
Proof.
  induction fuel as [|k IH]; intros o s p v c d h r Hrun; [discriminate|].
  cbn [parse] in Hrun. inv_bind Hrun. injection Hrun as <-.
  apply (parseCore_stable _ IH) in Hx.
  unfold traceLeave. destruct (c_tracerLeave (res_c x)); exact Hx.
Qed.

(** C7. Whenever the evaluation of an operator returns, with or without
    an error, the stack of frames of the context has the depth it had
    before the call: every frame pushed during the evaluation has been
    popped. *)
Theorem parse_svStack_depth (fuel : nat) (o : operator) (s : string) (p : Z)
    (v : Values) (c : context) (d : Any) (h : heap) (r : result) :
  parse lineInfo rules fuel o s p v c d h = Ret r ->
  List.length (c_svStack (res_c r)) = List.length (c_svStack c).
Proof.
  intros Hrun. apply parse_stable in Hrun.
  destruct Hrun as (_ & _ & _ & Hst & _). now rewrite Hst.
Qed.

(** ** Token boundary *)

(** What [tokenBoundary.parseCore] does.  On exit, on the success and on
    the failure path, [c.inToken] is false whatever it was at entry: the
    code assigns [false] after the child and does not keep the value of
    entry.  The child is evaluated with the flag set; when it fails its
    length and error are returned; when it succeeds with length [l],
    [Token{p, s[p:p+l]}] is appended to the [Ts] of the current frame
    before the trailing whitespace skip, and the length of the skip is
    added to [l] (a failing skip returns [(0, err)]). *)
Theorem tokenBoundary_spec (fuel : nat) (ope : operator) (s : string)
    (p : Z) (v : Values) (c : context) (d : Any) (h : heap) :
  let rec := parse lineInfo rules fuel in
  let run_it := parseCore lineInfo rules fuel rec (tokenBoundary ope) s p v c d h in
  (forall r : result, run_it = Ret r -> c_inToken (res_c r) = false)
  /\ (forall rk : result,
        rec ope s p v (set_inToken true c) d h = Ret rk ->
        (forall e : error,
            res_err rk = Some e ->
            run_it = Ret (mkResult (res_l rk) (Some e) (res_v rk)
                            (set_inToken false (res_c rk)) (res_h rk)))
        /\ (res_err rk = None ->
            forall tok : string,
              slice s p (int_add p (res_l rk)) = Ret tok ->
              let v1 := append_Ts (mkToken p tok) (res_v rk) in
              let c1 := set_inToken false (res_c rk) in
              (c_whitespaceOpe c = None ->
               run_it = Ret (mkResult (res_l rk) None v1 c1 (res_h rk)))
              /\ (forall (ws : operator) (rw : result),
                    c_whitespaceOpe c = Some ws ->
                    rec ws s (int_add p (res_l rk)) v1 c1 d (res_h rk) = Ret rw ->
                    run_it =
                    Ret match res_err rw with
                        | Some e => mkResult 0 (Some e) (res_v rw) (res_c rw) (res_h rw)
                        | None =>
                            mkResult (int_add (res_l rk) (res_l rw)) None
                              (res_v rw) (res_c rw) (res_h rw)
                        end))).
Proof.
  intros rec run_it. split.
  - intros r Hrun. subst run_it. cbn [parseCore] in Hrun.
    unfold tokenBoundary_parseCore in Hrun. inv_bind Hrun.
    destruct (res_err x).
    + injection Hrun as <-. reflexivity.
    + inv_bind Hrun. cbn [c_whitespaceOpe set_inToken] in Hrun.
      destruct (c_whitespaceOpe (res_c x)).
      * inv_bind Hrun. apply parse_stable in Hx1.
        destruct Hx1 as (_ & _ & _ & _ & _ & _ & _ & _ & _ & _ & Htok).
        specialize (Htok eq_refl).
        destruct (res_err x1); injection Hrun as <-; exact Htok.
      * injection Hrun as <-. reflexivity.
  - intros rk Hrk. subst run_it. cbn [parseCore].
    unfold tokenBoundary_parseCore. fold rec. rewrite Hrk.
    cbn [mbind outcome_bind].
    pose proof (parse_stable _ _ _ _ _ _ _ _ _ Hrk) as Hst.
    destruct Hst as (_ & _ & _ & _ & _ & Hws & _). cbn in Hws.
    split.
    + intros e ->. reflexivity.
    + intros Hnone tok Htok. cbv zeta. rewrite Hnone, Htok.
      cbn [mbind outcome_bind].
      cbn [c_whitespaceOpe set_inToken]. rewrite Hws. split.
      * intros ->. reflexivity.
      * intros ws rw -> Hrw. rewrite Hrw. cbn [mbind outcome_bind].
        destruct (res_err rw); reflexivity.
Qed.

(** ** Literal string: word check and whitespace skip *)

Lemma literalString_initIsWord_done (rec : parser) (id : nat) (lit s : string)
    (c : context) (h : heap) (b : bool) :
  h_isWord h !! id = Some b ->
  literalString_initIsWord rec id lit s c h = Ret h /\ isWord id h = b.
Proof.
  intros Hm. unfold literalString_initIsWord, isWord. now rewrite Hm.
Qed.

(** C6. For a literal classified as a word whose bytes match at [p], the
    word check is the not-predicate over [wordOpe] evaluated at the
    position after the match in a new context: the context it leaves is
    dropped.  When the check fails the literal fails with length 0 and
    the outer context is exactly as it was; when it passes and no
    whitespace is skipped the outer context is again exactly as it was;
    and the whitespace skip, performed only when [inToken] is false and
    [whitespaceOpe] is set, is evaluated in the outer context itself and
    its length is added. *)
Theorem literalString_word_spec (fuel : nat) (rec : parser) (id : nat)
    (lit s : string) (p : Z) (v : Values) (c : context) (d : Any)
    (h h1 : heap) (w : operator) (rb : result) :
  literal_loop lit s p 0 = Ret true ->
  literalString_initIsWord rec id lit s c h = Ret h1 ->
  isWord id h1 = true ->
  c_wordOpe c = Some w ->
  rec (Npd w) s (int_add p (len lit)) v (context_new s) AnyNil h1 = Ret rb ->
  let run_it := parseCore lineInfo rules fuel rec (literalString id lit) s p v c d h in
  (forall e : error,
      res_err rb = Some e ->
      run_it = Ret (mkResult 0 (Some e) (res_v rb) c (res_h rb)))
  /\ (res_err rb = None ->
      let l := int_add (len lit) (res_l rb) in
      (c_inToken c = true \/ c_whitespaceOpe c = None ->
       run_it = Ret (mkResult l None (res_v rb) c (res_h rb)))
      /\ (forall ws : operator,
            c_inToken c = false ->
            c_whitespaceOpe c = Some ws ->
            run_it =
            (rw ← rec ws s (int_add p l) (res_v rb) c d (res_h rb);
             Ret match res_err rw with
                 | Some e => mkResult 0 (Some e) (res_v rw) (res_c rw) (res_h rw)
                 | None =>
                     mkResult (int_add l (res_l rw)) None
                       (res_v rw) (res_c rw) (res_h rw)
                 end))).
Proof.
  intros Hmatch Hinit Hword Hw Hrb run_it. subst run_it. cbn [parseCore].
  unfold literalString_parseCore. rewrite Hmatch. cbn [mbind outcome_bind].
  rewrite Hinit. cbn [mbind outcome_bind]. rewrite Hword.
  unfold literalString_boundary. rewrite Hw, Hrb. cbn [mbind outcome_bind].
  split.
  - intros e ->. reflexivity.
  - intros Hnone. cbv zeta. rewrite Hnone. unfold literalString_skip. split.
    + intros [->| ->]; [reflexivity|]. destruct (negb (c_inToken c)); reflexivity.
    + intros ws -> ->. cbn [negb].
      destruct (rec ws s _ (res_v rb) c d (res_h rb)) as [rw| |];
        cbn [mbind outcome_bind]; [|reflexivity..].
      destruct (res_err rw); reflexivity.
Qed.

(** ** Termination of repetitions *)

Lemma parse_S (k : nat) (o : operator) (s : string) (p : Z) (v : Values)
    (c : context) (d : Any) (h : heap) :
  parse lineInfo rules (S k) o s p v c d h
  = (r ← parseCore lineInfo rules k (parse lineInfo rules k) o s p v c d
          (traceEnter o s p v c d h);
     Ret (traceLeave o s p d r)).
Proof. reflexivity. Qed.

Lemma traceLeave_fields (o : operator) (s : string) (p : Z) (d : Any)
    (r : result) :
  res_l (traceLeave o s p d r) = res_l r
  /\ res_err (traceLeave o s p d r) = res_err r
  /\ res_v (traceLeave o s p d r) = res_v r
  /\ res_c (traceLeave o s p d r) = res_c r.
Proof. unfold traceLeave. destruct (c_tracerLeave (res_c r)); auto. Qed.

Lemma repetition_loop_terminates (rec : parser) (ope : operator) (s : string)
    (p : Z) (d : Any) (save : Z) (I : Values -> context -> heap -> Prop) :
  len s <= int_max ->
  0 <= p ->
  (forall q v c h,
      p <= q < len s -> I v c h -> rec ope s q v c d h <> OutOfFuel) ->
  (forall q v c h r,
      p <= q < len s -> I v c h ->
      rec ope s q v c d h = Ret r -> res_err r = None ->
      1 <= res_l r <= len s - q /\ I (res_v r) (res_c r) (res_h r)) ->
  forall (k : nat) (l : Z) (v : Values) (c : context) (h : heap),
    I v c h ->
    0 <= l -> p + l <= len s ->
    (Z.to_nat (len s - (p + l)) <= k)%nat ->
    repetition_loop k rec ope s p save l v c d h <> OutOfFuel.
Proof.
  intros Hmax Hp Htotal Hprog.
  induction k as [|k IH]; intros l v c h HI Hl Hle Hk;
    cbn [repetition_loop];
    (rewrite int_add_id by (unfold in_int, int_min, int_max in *; lia));
    destruct (Z.ltb_spec (p + l) (len s)) as [Hlt|Hge]; try discriminate;
    [lia|].
  assert (Hq : p <= p + l < len s) by lia.
  destruct (rec ope s (p + l) v c d h) as [r| |] eqn:Hr;
    cbn [mbind outcome_bind];
    [|discriminate|now apply (Htotal _ _ _ _ Hq HI) in Hr].
  destruct (res_err r) eqn:He; [discriminate|].
  destruct (Hprog _ _ _ _ _ Hq HI Hr He) as [[Hone Hbound] HI'].
  rewrite int_add_id by (unfold in_int, int_min, int_max in *; lia).
  apply IH; [exact HI'|lia..].
Qed.

Lemma repetition_loop_diverges (rec : parser) (ope : operator) (s : string)
    (p : Z) (d : Any) (save l : Z) (I : Values -> context -> heap -> Prop) :
  int_add l 0 = l ->
  int_add p l < len s ->
  (forall v c h,
      I v c h ->
      exists r, rec ope s (int_add p l) v c d h = Ret r
                /\ res_err r = None /\ res_l r = 0
                /\ I (res_v r) (res_c r) (res_h r)) ->
  forall (k : nat) (v : Values) (c : context) (h : heap),
    I v c h -> repetition_loop k rec ope s p save l v c d h = OutOfFuel.
Proof.
  intros Hl0 Hlt Hstep.
  induction k as [|k IH]; intros v c h HI; cbn [repetition_loop];
    destruct (Z.ltb_spec (int_add p l) (len s)); try lia; [reflexivity|].
  destruct (Hstep _ _ _ HI) as (r & Hr & He & Hz & HI').
  rewrite Hr. cbn [mbind outcome_bind]. rewrite He, Hz, Hl0. now apply IH.
Qed.

Ltac traceLeave_rewrite :=
  repeat match goal with
         | |- context [res_err (traceLeave ?o ?s ?p ?d ?r)] =>
             rewrite (proj1 (proj2 (traceLeave_fields o s p d r)))
         | |- context [res_l (traceLeave ?o ?s ?p ?d ?r)] =>
             rewrite (proj1 (traceLeave_fields o s p d r))
         end.

Lemma parse_literal_mismatch (k id : nat) (lit s : string) (p : Z)
    (v : Values) (c : context) (d : Any) (h : heap) :
  literal_loop lit s p 0 = Ret false ->
  exists r e,
    parse lineInfo rules (S k) (literalString id lit) s p v c d h = Ret r
    /\ res_err r = Some e.
Proof.
  intros Hloop. rewrite parse_S. cbn [parseCore].
  unfold literalString_parseCore. rewrite Hloop. cbn [mbind outcome_bind].
  eexists. eexists. split; [reflexivity|]. traceLeave_rewrite. reflexivity.
Qed.

Lemma parse_option_of_failure (k : nat) (ope : operator) (s : string) (p : Z)
    (v : Values) (c : context) (d : Any) (h : heap) :
  (forall h', exists r e,
      parse lineInfo rules k ope s p v c d h' = Ret r /\ res_err r = Some e) ->
  exists r,
    parse lineInfo rules (S k) (option_ ope) s p v c d h = Ret r
    /\ res_err r = None /\ res_l r = 0 /\ True.
Proof.
  intros Hchild. rewrite parse_S. cbn [parseCore]. unfold option_parseCore.
  destruct (Hchild (traceEnter (option_ ope) s p v c d h)) as (r & e & -> & He).
  cbn [mbind outcome_bind]. rewrite He. cbn [mbind outcome_bind].
  eexists. split; [reflexivity|]. traceLeave_rewrite. cbn. auto.
Qed.

Lemma parse_notPredicate_of_failure (k : nat) (ope : operator) (s : string)
    (p : Z) (v : Values) (c : context) (d : Any) (h : heap) :
  (forall h', exists r e,
      parse lineInfo rules k ope s p (push c).1 (push c).2 d h' = Ret r
      /\ res_err r = Some e) ->
  exists r,
    parse lineInfo rules (S k) (notPredicate ope) s p v c d h = Ret r
    /\ res_err r = None /\ res_l r = 0 /\ True.
Proof.
  intros Hchild. rewrite parse_S. cbn [parseCore]. unfold notPredicate_parseCore.
  change (let '(chv, c1) := push c in _) with
    (r ← parse lineInfo rules k ope s p (push c).1 (push c).2 d
           (traceEnter (notPredicate ope) s p v c d h);
     c2 ← pop (res_c r);
     match res_err r with
     | None =>
         Ret (mkResult 0
                (Some (mkOperatorError lineInfo ("Not " +:+ Label ope) s p (res_l r)))
                v (setErrorPos p c2) (res_h r))
     | Some _ =>
         Ret (mkResult 0 None v (set_errorPos (c_errorPos c) c2) (res_h r))
     end).
  destruct (Hchild (traceEnter (notPredicate ope) s p v c d h))
    as (r & e & Hr & He).
  rewrite Hr. cbn [mbind outcome_bind].
  pose proof (parse_stable _ _ _ _ _ _ _ _ _ Hr) as Hst.
  destruct Hst as (_ & _ & _ & Hstack & _).
  rewrite (pop_snoc _ _ _ Hstack). cbn [mbind outcome_bind]. rewrite He.
  cbn [mbind outcome_bind].
  eexists. split; [reflexivity|]. traceLeave_rewrite. cbn. auto.
Qed.

End Properties.

(** * Counterexamples and instances *)

(** C2, as stated, fails: a sequence whose first child succeeds and
    appends a token, and whose second child fails, returns the error with
    the token still in the frame.  [Seq(Tok(Lit("a")), Lit("b"))] on
    ["ac"] is such a sequence. *)
Lemma sequence_rollback_counterexample :
  ~ (forall (fuel : nat) (opes : list operator) (s : string) (p : Z)
            (v : Values) (c : context) (d : Any) (h : heap) (r : result),
        parse lineInfo_lf [] fuel (sequence opes) s p v c d h = Ret r ->
        res_err r <> None ->
        res_l r = 0 /\ v_Vs (res_v r) = v_Vs v /\ v_Ts (res_v r) = v_Ts v).
Proof.
  intros Hclaim.
  eassert (Hrun : parse lineInfo_lf [] 5 (sequence [Tok (Lit 1 "a"); Lit 2 "b"])
                    "ac" 0 Values_zero (context_new "ac") AnyNil heap_empty
                  = Ret _) by (vm_compute; reflexivity).
  destruct (Hclaim _ _ _ _ _ _ _ _ _ Hrun) as (_ & _ & Hts); [discriminate|].
  discriminate Hts.
Qed.

(** C3, as stated, fails for [c.errorPos]: after the tolerated failure of
    the third iteration of [Zom(Cho(Lit("x"), Lit("a")))] on ["aab"],
    [errorPos] is 0, its value before the loop, and not 1, its value
    immediately before the failing iteration. *)
Lemma repetition_errorPos_counterexample :
  ~ (forall (fuel n : nat) (ope : operator) (s : string) (p : Z) (d : Any)
            (v : Values) (c : context) (h : heap)
            (l1 : Z) (v1 : Values) (c1 : context) (h1 : heap)
            (rk : result) (e : error) (r : result),
        let rec := parse lineInfo_lf [] fuel in
        iterations rec ope s p d n 0 v c h l1 v1 c1 h1 ->
        int_add p l1 < len s ->
        rec ope s (int_add p l1) v1 c1 d h1 = Ret rk ->
        res_err rk = Some e ->
        parseCore lineInfo_lf [] fuel rec (zeroOrMore ope) s p v c d h = Ret r ->
        v_Vs (res_v r) = v_Vs v1
        /\ v_Ts (res_v r) = v_Ts v1
        /\ c_errorPos (res_c r) = c_errorPos c1).
Proof.
  intros Hclaim.
  eassert (Hit : iterations (parse lineInfo_lf [] 5) x_or_a "aab" 0 AnyNil 2
                   0 Values_zero (context_new "aab") heap_empty _ _ _ _).
  { eapply iterations_S;
      [vm_compute; reflexivity|vm_compute; reflexivity|reflexivity|].
    eapply iterations_S;
      [vm_compute; reflexivity|vm_compute; reflexivity|reflexivity|].
    apply iterations_O. }
  match type of Hit with
  | iterations _ _ _ _ _ _ _ _ _ _ ?l1 ?v1 ?c1 ?h1 =>
      eassert (Hrk : parse lineInfo_lf [] 5 x_or_a "aab" (int_add 0 l1) v1 c1
                       AnyNil h1 = Ret _) by (vm_compute; reflexivity)
  end.
  eassert (Hrun : parseCore lineInfo_lf [] 5 (parse lineInfo_lf [] 5)
                    (zeroOrMore x_or_a) "aab" 0 Values_zero
                    (context_new "aab") AnyNil heap_empty = Ret _)
    by (vm_compute; reflexivity).
  match type of Hrk with
  | _ = Ret ?rk =>
      assert (Herr : exists e, res_err rk = Some e) by (eexists; reflexivity)
  end.
  destruct Herr as [e Herr].
  assert (Hlt : int_add 0 (int_add (int_add 0 1) 1) < len "aab")
    by (vm_compute; reflexivity).
  destruct (Hclaim 5%nat 2%nat x_or_a "aab" 0 AnyNil _ _ _ _ _ _ _ _ _ _
              Hit Hlt Hrk Herr Hrun) as (_ & _ & Hpos).
  vm_compute in Hpos. discriminate Hpos.
Qed.

(** The flag at exit is not in general the flag at entry: a token
    boundary entered with [inToken] set, as the inner one of two nested
    token boundaries is, leaves it cleared. *)
Lemma tokenBoundary_inToken_counterexample :
  ~ (forall (fuel : nat) (ope : operator) (s : string) (p : Z) (v : Values)
            (c : context) (d : Any) (h : heap) (r : result),
        parseCore lineInfo_lf [] fuel (parse lineInfo_lf [] fuel)
          (tokenBoundary ope) s p v c d h = Ret r ->
        c_inToken (res_c r) = c_inToken c).
Proof.
  intros Hclaim.
  eassert (Hrun : parseCore lineInfo_lf [] 3 (parse lineInfo_lf [] 3)
                    (tokenBoundary (Lit 1 "a")) "a" 0 Values_zero
                    (set_inToken true (context_new "a")) AnyNil heap_empty
                  = Ret _) by (vm_compute; reflexivity).
  apply Hclaim in Hrun. discriminate Hrun.
Qed.

(** C4. [tokenBoundary.parseCore] does not restore [c.inToken]: it
    assigns [false] after the child.  With blanks as whitespace, the inner
    boundary of [Tok(Seq(Tok("a"), "b", "c"))] is entered with the flag
    set and leaves it cleared, so the literal ["b"], which inside a token
    has length 1 at position 1 of ["ab c"], skips the blank after it and
    has length 2: the nested grammar accepts ["ab c"] with the outer token
    ["ab c"], where the same grammar without the inner boundary, whose
    scope stays in-token, rejects it. *)
Theorem tokenBoundary_nested_inToken :
  let s := "ab c" in
  let c := spaces_context s in
  let ev := parse lineInfo_lf [] 12 in
  (exists r : result,
      parseCore lineInfo_lf [] 12 ev (tokenBoundary (Lit 1 "a")) s 0
        Values_zero (set_inToken true c) AnyNil heap_empty = Ret r
      /\ res_err r = None
      /\ c_inToken (set_inToken true c) = true
      /\ c_inToken (res_c r) = false)
  /\ (exists r : result,
        ev (Lit 2 "b") s 1 Values_zero (set_inToken true c) AnyNil heap_empty
        = Ret r
        /\ res_err r = None /\ res_l r = 1)
  /\ (exists r : result,
        ev (Lit 2 "b") s 1 Values_zero (set_inToken false c) AnyNil heap_empty
        = Ret r
        /\ res_err r = None /\ res_l r = 2)
  /\ (exists r : result,
        ev nested_token s 0 Values_zero c AnyNil heap_empty = Ret r
        /\ res_err r = None
        /\ res_l r = 4
        /\ v_Ts (res_v r) = [mkToken 0 "a"; mkToken 0 "ab c"])
  /\ (exists (r : result) (e : error),
        ev flat_token s 0 Values_zero c AnyNil heap_empty = Ret r
        /\ res_err r = Some e
        /\ res_l r = 0
        /\ v_Ts (res_v r) = []).
Proof.
  cbv zeta. repeat split.
  - eexists. split; [vm_compute; reflexivity|]. repeat split.
  - eexists. split; [vm_compute; reflexivity|]. repeat split.
  - eexists. split; [vm_compute; reflexivity|]. repeat split.
  - eexists. split; [vm_compute; reflexivity|]. repeat split.
  - eexists. eexists. split; [vm_compute; reflexivity|]. repeat split.
Qed.

Lemma parse_user (lineInfo : string -> Z -> Z * Z) (rules : list Rule)
    (k : nat) (fn : user_fn) (s : string) (p : Z) (v : Values) (c : context)
    (d : Any) (h : heap) :
  exists r,
    parse lineInfo rules (S k) (user fn) s p v c d h = Ret r
    /\ res_l r = (fn s p v d).1.1
    /\ res_err r = (fn s p v d).1.2
    /\ res_v r = (fn s p v d).2.
Proof.
  rewrite parse_S. cbn [parseCore]. unfold user_parseCore.
  destruct (fn s p v d) as [[l e] v1]. cbn [mbind outcome_bind].
  eexists. split; [reflexivity|].
  pose proof (traceLeave_fields (user fn) s p d
                (mkResult l e v1 c (traceEnter (user fn) s p v c d h)))
    as (-> & -> & -> & _).
  auto.
Qed.

Lemma repetition_loop_S (k : nat) (rec : parser) (ope : operator)
    (s : string) (p save l : Z) (v : Values) (c : context) (d : Any)
    (h : heap) :
  repetition_loop (S k) rec ope s p save l v c d h
  = if int_add p l <? len s then
      r ← rec ope s (int_add p l) v c d h;
      match res_err r with
      | Some _ =>
          Ret (mkResult l None (set_Vs_Ts (v_Vs v) (v_Ts v) (res_v r))
                 (set_errorPos save (res_c r)) (res_h r))
      | None =>
          repetition_loop k rec ope s p save (int_add l (res_l r))
            (res_v r) (res_c r) d (res_h r)
      end
    else Ret (mkResult l None v c h).
Proof. reflexivity. Qed.

Lemma zeroOrMore_once_terminates : terminates (Zom (Usr once_fn)).
Proof.
  intros s p v c d h. exists 3%nat. rewrite parse_S. unfold Zom, Usr.
  cbn [parseCore]. unfold zeroOrMore_parseCore.
  set (h0 := traceEnter _ _ _ _ _ _ _).
  assert (Hfail : forall (k : nat) (l : Z) (v' : Values) (c' : context)
                         (h' : heap),
             v_Vs v' <> [] ->
             exists r, repetition_loop (S k) (parse lineInfo_lf [] 2)
                         (user once_fn) s p (c_errorPos c) l v' c' d h' = Ret r).
  { intros k l v' c' h' Hne. rewrite repetition_loop_S.
    destruct (int_add p l <? len s); [|eauto].
    destruct (parse_user lineInfo_lf [] 1 once_fn s (int_add p l) v' c' d h')
      as (r & -> & _ & He & _).
    cbn [mbind outcome_bind]. rewrite He. unfold once_fn.
    destruct (v_Vs v'); [contradiction|]. cbn. eauto. }
  assert (Hgoal : exists r, repetition_loop 2 (parse lineInfo_lf [] 2)
                              (user once_fn) s p (c_errorPos c) 0 v c d h0
                            = Ret r).
  { destruct (v_Vs v) as [|a vs] eqn:Hvs.
    - rewrite repetition_loop_S.
      destruct (int_add p 0 <? len s); [|eauto].
      destruct (parse_user lineInfo_lf [] 1 once_fn s (int_add p 0) v c d h0)
        as (r & -> & Hl & He & Hv).
      cbn [mbind outcome_bind]. rewrite He. unfold once_fn at 1.
      rewrite Hvs. cbn [fst snd].
      apply Hfail. rewrite Hv. unfold once_fn. rewrite Hvs. cbn.
      rewrite Hvs. easy.
    - apply Hfail. rewrite Hvs. easy. }
  destruct Hgoal as [r ->]. discriminate.
Qed.

(** C9, as stated, fails: that a repetition ends on every input does not
    need every success of the child to consume a byte.  The user function
    [once_fn] succeeds without consuming input, yet [Zom] of it ends on
    every input, because its second attempt fails. *)
Lemma repetition_progress_counterexample :
  ~ (forall ope : operator, terminates (Zom ope) -> makes_progress ope).
Proof.
  intros Hclaim.
  pose proof (Hclaim (Usr once_fn) zeroOrMore_once_terminates) as Hprog.
  eassert (Hrun : parse lineInfo_lf [] 1 (Usr once_fn) "a" 0 Values_zero
                    (context_new "a") AnyNil heap_empty = Ret _)
    by (vm_compute; reflexivity).
  assert (Hlt : 0 <= 0 < len "a") by (unfold len; simpl; lia).
  pose proof (Hprog _ _ _ _ _ _ _ _ Hlt Hrun eq_refl) as Hone.
  vm_compute in Hone. apply Hone. reflexivity.
Qed.

(** ** Instances *)

(** [Cho(Lit("yes"), Lit("no"))] on ["no"]: the first alternative fails,
    the second succeeds, [Choice] is 1 and no frame is left on the
    stack. *)
Lemma prioritizedChoice_spec_witness :
  exists r : result,
    parseCore lineInfo_lf [] 3 (parse lineInfo_lf [] 3)
      (prioritizedChoice [Lit 1 "yes"; Lit 2 "no"]) "no" 0 Values_zero
      (context_new "no") AnyNil heap_empty = Ret r
    /\ res_l r = 2 /\ res_err r = None /\ v_Choice (res_v r) = 1
    /\ c_svStack (res_c r) = [].
Proof.
  eassert (Hrun : parseCore lineInfo_lf [] 3 (parse lineInfo_lf [] 3)
                    (prioritizedChoice [Lit 1 "yes"; Lit 2 "no"]) "no" 0
                    Values_zero (context_new "no") AnyNil heap_empty = Ret _)
    by (vm_compute; reflexivity).
  eexists. split; [exact Hrun|].
  destruct (proj1 (prioritizedChoice_spec lineInfo_lf [] 3
                     (parse lineInfo_lf [] 3) [Lit 1 "yes"; Lit 2 "no"] "no" 0
                     Values_zero (context_new "no") AnyNil heap_empty _) Hrun)
    as [(pre & ope & post & errs & c1 & h1 & rk & st & fr & _ & _ & _ & _ &
         _ & _ & He & _)|(errs & c1 & h1 & _ & _ & Hr)].
  - split; [vm_compute; reflexivity|]. split; [exact He|].
    split; vm_compute; reflexivity.
  - discriminate Hr.
Defined.

(** [Seq(Tok(Lit("a")), Lit("b"))] on ["ac"]: the second child fails and
    the token of the first stays in the frame. *)
Lemma sequence_spec_witness :
  exists r : result,
    parseCore lineInfo_lf [] 4 (parse lineInfo_lf [] 4)
      (sequence [Tok (Lit 1 "a"); Lit 2 "b"]) "ac" 0 Values_zero
      (context_new "ac") AnyNil heap_empty = Ret r
    /\ res_l r = 0 /\ v_Ts (res_v r) = [mkToken 0 "a"].
Proof.
  eexists. split.
  - apply (proj2 (sequence_spec lineInfo_lf [] 4 (parse lineInfo_lf [] 4)
                    [Tok (Lit 1 "a"); Lit 2 "b"] "ac" 0 Values_zero
                    (context_new "ac") AnyNil heap_empty _)).
    left. exists [Tok (Lit 1 "a")], (Lit 2 "b"), [].
    do 6 eexists. split; [reflexivity|]. split.
    + eapply children_succeed_cons;
        [vm_compute; reflexivity|reflexivity|apply children_succeed_nil].
    + split; [vm_compute; reflexivity|]. split; reflexivity.
  - split; vm_compute; reflexivity.
Defined.

(** [Zom(Cho(Lit("x"), Lit("a")))] on ["aab"]: two iterations, then a
    tolerated failure; [errorPos] is back at its value before the loop. *)
Lemma repetition_restore_spec_witness :
  exists r : result,
    parseCore lineInfo_lf [] 5 (parse lineInfo_lf [] 5) (zeroOrMore x_or_a)
      "aab" 0 Values_zero (context_new "aab") AnyNil heap_empty = Ret r
    /\ res_l r = 2 /\ res_err r = None
    /\ c_errorPos (res_c r) = c_errorPos (context_new "aab").
Proof.
  eassert (Hit : iterations (parse lineInfo_lf [] 5) x_or_a "aab" 0 AnyNil 2
                   0 Values_zero (context_new "aab") heap_empty _ _ _ _).
  { eapply iterations_S;
      [vm_compute; reflexivity|vm_compute; reflexivity|reflexivity|].
    eapply iterations_S;
      [vm_compute; reflexivity|vm_compute; reflexivity|reflexivity|].
    apply iterations_O. }
  match type of Hit with
  | iterations _ _ _ _ _ _ _ _ _ _ ?l1 ?v1 ?c1 ?h1 =>
      eassert (Hrk : parse lineInfo_lf [] 5 x_or_a "aab" (int_add 0 l1) v1 c1
                       AnyNil h1 = Ret _) by (vm_compute; reflexivity)
  end.
  assert (Hlt : int_add 0 (int_add (int_add 0 1) 1) < len "aab")
    by (vm_compute; reflexivity).
  destruct (proj1 (repetition_restore_spec lineInfo_lf [] _ _ _ _ _ 2 5 _ _ _ _
                     _ _ Hlt Hrk eq_refl ltac:(lia)) _ _ _ Hit)
    as (r & Hrun & Hl & He & _ & _ & Hpos).
  exists r. repeat split; assumption.
Defined.

(** A token boundary entered with [inToken] set leaves it cleared. *)
Lemma tokenBoundary_spec_witness :
  exists r : result,
    parseCore lineInfo_lf [] 3 (parse lineInfo_lf [] 3)
      (tokenBoundary (Lit 1 "a")) "a" 0 Values_zero
      (set_inToken true (context_new "a")) AnyNil heap_empty = Ret r
    /\ c_inToken (res_c r) = false
    /\ v_Ts (res_v r) = [mkToken 0 "a"].
Proof.
  eassert (Hrun : parseCore lineInfo_lf [] 3 (parse lineInfo_lf [] 3)
                    (tokenBoundary (Lit 1 "a")) "a" 0 Values_zero
                    (set_inToken true (context_new "a")) AnyNil heap_empty
                  = Ret _) by (vm_compute; reflexivity).
  eexists. split; [exact Hrun|]. split.
  - exact (proj1 (tokenBoundary_spec lineInfo_lf [] 3 (Lit 1 "a") "a" 0
                    Values_zero (set_inToken true (context_new "a")) AnyNil
                    heap_empty) _ Hrun).
  - vm_compute. reflexivity.
Defined.

(** [Cls("a-zA-Z0-9_")] on ["a"] and on the empty input. *)
Lemma characterClass_spec_witness :
  (0 <= 0 <= len "a" /\ len "a" <= int_max /\ len "a-zA-Z0-9_" + 2 <= int_max)
  /\ exists (ch : ascii) (line col : Z),
       String.get 0 "a" = Some ch
       /\ parseCore lineInfo_lf [] 0 (parse lineInfo_lf [] 0)
            (characterClass "a-zA-Z0-9_") "a" 0 Values_zero (context_new "a")
            AnyNil heap_empty
          = if in_class "a-zA-Z0-9_" ch
            then Ret (mkResult 1 None Values_zero (context_new "a") heap_empty)
            else Ret (mkResult 0
                        (Some (OperatorError ["a-zA-Z0-9_"] "a" line col 1))
                        Values_zero (setErrorPos 0 (context_new "a")) heap_empty).
Proof.
  assert (H1 : 0 <= 0 <= len "a") by (unfold len; simpl; lia).
  assert (H2 : len "a" <= int_max) by (unfold len, int_max; simpl; lia).
  assert (H3 : len "a-zA-Z0-9_" + 2 <= int_max)
    by (unfold len, int_max; simpl; lia).
  split; [auto|].
  apply (proj1 (proj2 (characterClass_spec lineInfo_lf [] 0
                         (parse lineInfo_lf [] 0) "a-zA-Z0-9_" "a" 0
                         Values_zero (context_new "a") AnyNil heap_empty
                         H1 H2 H3))).
  unfold len; simpl; lia.
Defined.

(** The word literal ["if"] on ["ifx"]: the word check fails at position
    2 and moves the error position of its own context there; the literal
    fails with length 0 and the outer context is untouched. *)
Lemma literalString_word_spec_witness :
  exists (rb : result) (e : error),
    parse lineInfo_lf [] 4 (Npd (Cls "a-z")) "ifx" 2 Values_zero
      (context_new "ifx") AnyNil (set_isWord 1 true heap_empty) = Ret rb
    /\ res_err rb = Some e
    /\ c_errorPos (res_c rb) = 2
    /\ parseCore lineInfo_lf [] 4 (parse lineInfo_lf [] 4)
         (literalString 1 "if") "ifx" 0 Values_zero (word_context "ifx")
         AnyNil heap_empty
       = Ret (mkResult 0 (Some e) (res_v rb) (word_context "ifx") (res_h rb)).
Proof.
  eassert (Hrb : parse lineInfo_lf [] 4 (Npd (Cls "a-z")) "ifx" 2 Values_zero
                   (context_new "ifx") AnyNil (set_isWord 1 true heap_empty)
                 = Ret _) by (vm_compute; reflexivity).
  do 2 eexists. split; [exact Hrb|].
  split; [reflexivity|]. split; [vm_compute; reflexivity|].
  apply (proj1 (literalString_word_spec lineInfo_lf [] 4
                  (parse lineInfo_lf [] 4) 1 "if" "ifx" 0 Values_zero
                  (word_context "ifx") AnyNil heap_empty
                  (set_isWord 1 true heap_empty) (Cls "a-z") _
                  ltac:(vm_compute; reflexivity)
                  ltac:(vm_compute; reflexivity)
                  ltac:(vm_compute; reflexivity)
                  eq_refl Hrb)).
  reflexivity.
Defined.

(** The stack of frames across [Cho(Ign(Lit("a")), Npd(Lit("b")))]. *)
Lemma parse_svStack_depth_witness :
  exists r : result,
    parse lineInfo_lf [] 5 (Cho [Ign (Lit 1 "a"); Npd (Lit 2 "b")]) "c" 0
      Values_zero (context_new "c") AnyNil heap_empty = Ret r
    /\ List.length (c_svStack (res_c r))
       = List.length (c_svStack (context_new "c")).
Proof.
  eassert (Hrun : parse lineInfo_lf [] 5
                    (Cho [Ign (Lit 1 "a"); Npd (Lit 2 "b")]) "c" 0
                    Values_zero (context_new "c") AnyNil heap_empty = Ret _)
    by (vm_compute; reflexivity).
  eexists. split; [exact Hrun|].
  exact (parse_svStack_depth lineInfo_lf [] 5 _ _ _ _ _ _ _ _ Hrun).
Defined.

(** Inside a macro call with one argument, the parameter reference with
    [iarg = 0] evaluates that argument. *)
Lemma reference_parameter_spec_witness :
  parseCore lineInfo_lf [] 2 (parse lineInfo_lf [] 2)
    (reference "x" 0 [] [] 0 None) "a" 0 Values_zero
    (macro_context "a" [Lit 1 "a"]) AnyNil heap_empty
  = parse lineInfo_lf [] 2 (Lit 1 "a") "a" 0 Values_zero
      (macro_context "a" [Lit 1 "a"]) AnyNil heap_empty.
Proof.
  apply (proj1 (reference_parameter_spec lineInfo_lf [] 2
                  (parse lineInfo_lf [] 2) "x" 0 [] [] 0 "a" 0 Values_zero
                  (macro_context "a" [Lit 1 "a"]) AnyNil heap_empty)
           [Lit 1 "a"] (Lit 1 "a")).
  - reflexivity.
  - simpl. lia.
  - reflexivity.
Defined.

(** * Further properties of the evaluator *)

(** ** The context: error position and stacks *)

Lemma setErrorPos_max_aux (p : Z) (c : context) :
  c_errorPos c <= c_errorPos (setErrorPos p c).
Proof.
  unfold setErrorPos. destruct (Z.ltb_spec (c_errorPos c) p); cbn; lia.
Qed.

(** X1. [setErrorPos] moves the error position to the maximum of its value
    and [p], and changes nothing else; so it never lowers the position,
    applying it twice with the same [p] is applying it once, and two
    applications commute. *)
Theorem setErrorPos_max (p q : Z) (c : context) :
  setErrorPos p c = set_errorPos (Z.max (c_errorPos c) p) c
  /\ c_errorPos c <= c_errorPos (setErrorPos p c)
  /\ setErrorPos p (setErrorPos p c) = setErrorPos p c
  /\ setErrorPos p (setErrorPos q c) = setErrorPos q (setErrorPos p c).
Proof.
  assert (Hmax : forall p c, setErrorPos p c = set_errorPos (Z.max (c_errorPos c) p) c).
  { intros p' [s0 e mp m st ar it ws iw wo te tl]. unfold setErrorPos. cbn.
    destruct (Z.ltb_spec e p'); unfold set_errorPos; cbn; f_equal; lia. }
  split; [apply Hmax|]. split; [rewrite Hmax; cbn; lia|].
  split; rewrite !Hmax; unfold set_errorPos; cbn; f_equal; lia.
Qed.

(** X2. [push] appends the frame [Values{SS: c.s}] and [pop] removes it:
    [pop] after [push] gives back the context, the depth of the stack
    grows by one in between, and [pop] on an empty stack panics. *)
Theorem push_pop_roundtrip (c : context) :
  pop (push c).2 = Ret c
  /\ (push c).1 = Values_new (c_s c)
  /\ List.length (c_svStack (push c).2) = S (List.length (c_svStack c))
  /\ (c_svStack c = [] -> pop c = Panic SliceOutOfRange).
Proof.
  repeat split.
  - rewrite (pop_snoc (push c).2 (c_svStack c) (Values_new (c_s c))) by reflexivity.
    destruct c. reflexivity.
  - cbn. rewrite length_app. cbn. lia.
  - intros E. unfold pop. now rewrite E.
Qed.

(** X3. [pushArgs] puts an argument list on top of the stack of
    arguments: [topArg] then returns it and [popArgs] gives back the
    context; on an empty stack [topArg] is nil and [popArgs] panics. *)
Theorem pushArgs_popArgs_roundtrip (args : list operator) (c : context) :
  topArg (pushArgs args c) = args
  /\ popArgs (pushArgs args c) = Ret c
  /\ (c_argsStack c = [] -> topArg c = [] /\ popArgs c = Panic SliceOutOfRange).
Proof.
  repeat split.
  - unfold topArg, pushArgs. cbn.
    destruct (c_argsStack c ++ [args]) eqn:E.
    + destruct (c_argsStack c); discriminate.
    + rewrite <- E. apply last_last.
  - rewrite (popArgs_snoc (pushArgs args c) (c_argsStack c) args) by reflexivity.
    destruct c. reflexivity.
  - unfold topArg. now rewrite H.
  - unfold popArgs. now rewrite H.
Qed.

(** One-step equations of the evaluators that push a frame. *)

Ltac bind_inv H :=
  repeat match type of H with
         | mbind _ _ = Ret _ =>
             let x := fresh "x" in
             let Hx := fresh "Hx" in
             apply bind_Ret_inv in H as (x & Hx & H)
         end.

Lemma prioritizedChoice_loop_cons (rec : parser) (ope : operator)
    (rest : list operator) (s : string) (p : Z) (v : Values) (c : context)
    (d : Any) (h : heap) (errs : list error) (id : Z) :
  prioritizedChoice_loop rec (ope :: rest) s p v c d h errs id
  = (r ← rec ope s p (push c).1 (push c).2 d h;
     c2 ← pop (res_c r);
     match res_err r with
     | None => Ret (mkResult (res_l r) None (splice v (res_v r) id) c2 (res_h r))
     | Some e =>
         prioritizedChoice_loop rec rest s p v c2 d (res_h r)
           (errs ++ [e]) (id + 1)
     end).
Proof. reflexivity. Qed.

Lemma andPredicate_parseCore_eq (rec : parser) (ope : operator) (s : string)
    (p : Z) (v : Values) (c : context) (d : Any) (h : heap) :
  andPredicate_parseCore rec ope s p v c d h
  = (r ← rec ope s p (push c).1 (push c).2 d h;
     c2 ← pop (res_c r);
     Ret (mkResult 0 (res_err r) v c2 (res_h r))).
Proof. reflexivity. Qed.

Lemma notPredicate_parseCore_eq (lineInfo : string -> Z -> Z * Z)
    (rec : parser) (ope : operator) (s : string)
    (p : Z) (v : Values) (c : context) (d : Any) (h : heap) :
  notPredicate_parseCore lineInfo rec ope s p v c d h
  = (r ← rec ope s p (push c).1 (push c).2 d h;
     c2 ← pop (res_c r);
     match res_err r with
     | None =>
         Ret (mkResult 0
                (Some (mkOperatorError lineInfo ("Not " +:+ Label ope) s p
                         (res_l r)))
                v (setErrorPos p c2) (res_h r))
     | Some _ =>
         Ret (mkResult 0 None v (set_errorPos (c_errorPos c) c2) (res_h r))
     end).
Proof. reflexivity. Qed.

Lemma ignore_parseCore_eq (rec : parser) (ope : operator) (s : string)
    (p : Z) (v : Values) (c : context) (d : Any) (h : heap) :
  ignore_parseCore rec ope s p v c d h
  = (r ← rec ope s p (push c).1 (push c).2 d h;
     c2 ← pop (res_c r);
     Ret (mkResult (res_l r) (res_err r) v c2 (res_h r))).
Proof. reflexivity. Qed.

Lemma Rule_parse_eq (rec : parser) (rl : Rule) (s : string)
    (p : Z) (v : Values) (c : context) (d : Any) (h : heap) :
  Rule_parse rec rl s p v c d h
  = (res ← rec (rule_Ope rl) s p (push c).1 (push c).2 d h;
     c2 ← pop (res_c res);
     match res_err res with
     | None =>
         Ret (mkResult (res_l res) None
                (append_Vs
                   match rule_Action rl with
                   | Some act => act (res_v res) d
                   | None => default_value (v_Vs (res_v res))
                   end v) c2 (res_h res))
     | Some e => Ret (mkResult (res_l res) (Some e) v c2 (res_h res))
     end).
Proof. reflexivity. Qed.

Lemma pop_errorPos (c c2 : context) :
  pop c = Ret c2 -> c_errorPos c2 = c_errorPos c.
Proof.
  unfold pop. destruct (c_svStack c); [discriminate|].
  intros [= <-]. reflexivity.
Qed.

Lemma popArgs_errorPos (c c2 : context) :
  popArgs c = Ret c2 -> c_errorPos c2 = c_errorPos c.
Proof.
  unfold popArgs. destruct (c_argsStack c); [discriminate|].
  intros [= <-]. reflexivity.
Qed.

Lemma setErrorPos_ge (p : Z) (c : context) :
  c_errorPos c <= c_errorPos (setErrorPos p c).
Proof. apply (setErrorPos_max_aux p c). Qed.

(** ** The error position never decreases *)

Section MonotoneChildren.

Variable rec : parser.
Hypothesis Hmono : monotone_parser rec.

Lemma sequence_loop_monotone (opes : list operator) (s : string) (p : Z)
    (d : Any) :
  forall (l : Z) (v : Values) (c : context) (h : heap) (r : result),
    sequence_loop rec opes s p l v c d h = Ret r ->
    c_errorPos c <= c_errorPos (res_c r).
Proof.
  induction opes as [|ope rest IH]; intros l v c h r Hrun.
  - injection Hrun as <-. cbn. lia.
  - cbn [sequence_loop] in Hrun. bind_inv Hrun. apply Hmono in Hx.
    destruct (res_err x).
    + injection Hrun as <-. exact Hx.
    + apply IH in Hrun. lia.
Qed.

Lemma pushed_child_monotone (ope : operator) (s : string) (p : Z)
    (c : context) (d : Any) (h : heap) (r : result) (c2 : context) :
  rec ope s p (push c).1 (push c).2 d h = Ret r ->
  pop (res_c r) = Ret c2 ->
  c_errorPos c <= c_errorPos c2.
Proof.
  intros Hr Hpop. apply Hmono in Hr. apply pop_errorPos in Hpop.
  cbn in Hr. lia.
Qed.

Lemma prioritizedChoice_loop_monotone (opes : list operator) (s : string)
    (p : Z) (v : Values) (d : Any) :
  forall (c : context) (h : heap) (errs : list error) (id : Z) (r : result),
    prioritizedChoice_loop rec opes s p v c d h errs id = Ret r ->
    c_errorPos c <= c_errorPos (res_c r).
Proof.
  induction opes as [|ope rest IH]; intros c h errs id r Hrun.
  - injection Hrun as <-. cbn. lia.
  - rewrite prioritizedChoice_loop_cons in Hrun. bind_inv Hrun.
    pose proof (pushed_child_monotone _ _ _ _ _ _ _ _ Hx Hx0) as Hle.
    destruct (res_err x).
    + apply IH in Hrun. lia.
    + injection Hrun as <-. exact Hle.
Qed.

Lemma repetition_loop_monotone (ope : operator) (s : string) (p : Z)
    (d : Any) (save : Z) (k : nat) :
  forall (l : Z) (v : Values) (c : context) (h : heap) (r : result),
    save <= c_errorPos c ->
    repetition_loop k rec ope s p save l v c d h = Ret r ->
    save <= c_errorPos (res_c r).
Proof.
  induction k as [|k IH]; intros l v c h r Hsave Hrun;
    cbn [repetition_loop] in Hrun;
    destruct (int_add p l <? len s); try discriminate;
    try (injection Hrun as <-; exact Hsave).
  bind_inv Hrun. apply Hmono in Hx. destruct (res_err x).
  - injection Hrun as <-. cbn. lia.
  - eapply IH; [|exact Hrun]. lia.
Qed.

Lemma literalString_skip_monotone (s : string) (p l : Z) (v : Values)
    (c : context) (d : Any) (h : heap) (r : result) :
  literalString_skip rec s p l v c d h = Ret r ->
  c_errorPos c <= c_errorPos (res_c r).
Proof.
  unfold literalString_skip. intros Hrun.
  destruct (negb (c_inToken c)), (c_whitespaceOpe c);
    try (injection Hrun as <-; cbn; lia).
  bind_inv Hrun. apply Hmono in Hx.
  destruct (res_err x); injection Hrun as <-; exact Hx.
Qed.

Lemma Rule_parse_monotone (rl : Rule) (s : string) (p : Z) (v : Values)
    (c : context) (d : Any) (h : heap) (r : result) :
  Rule_parse rec rl s p v c d h = Ret r ->
  c_errorPos c <= c_errorPos (res_c r).
Proof.
  rewrite Rule_parse_eq. intros Hrun. bind_inv Hrun.
  pose proof (pushed_child_monotone _ _ _ _ _ _ _ _ Hx Hx0) as Hle.
  destruct (res_err x); injection Hrun as <-; exact Hle.
Qed.

Lemma parseCore_monotone (lineInfo : string -> Z -> Z * Z) (rules : list Rule)
    (fuel : nat) (o : operator) (s : string) (p : Z) (v : Values)
    (c : context) (d : Any) (h : heap) (r : result) :
  parseCore lineInfo rules fuel rec o s p v c d h = Ret r ->
  c_errorPos c <= c_errorPos (res_c r).
Proof.
  destruct o; cbn [parseCore]; intros Hrun.
  - eapply sequence_loop_monotone; exact Hrun.
  - eapply prioritizedChoice_loop_monotone; exact Hrun.
  - eapply repetition_loop_monotone; [|exact Hrun]. lia.
  - unfold oneOrMore_parseCore in Hrun. bind_inv Hrun.
    pose proof (Hmono _ _ _ _ _ _ _ _ Hx) as Hle.
    destruct (res_err x); [injection Hrun as <-; exact Hle|].
    apply repetition_loop_monotone in Hrun; lia.
  - unfold option_parseCore in Hrun. bind_inv Hrun. apply Hmono in Hx.
    destruct (res_err x); injection Hrun as <-; cbn; lia.
  - rewrite andPredicate_parseCore_eq in Hrun. bind_inv Hrun.
    injection Hrun as <-. eapply pushed_child_monotone; eassumption.
  - rewrite notPredicate_parseCore_eq in Hrun. bind_inv Hrun.
    pose proof (pushed_child_monotone _ _ _ _ _ _ _ _ Hx Hx0) as Hle.
    destruct (res_err x); injection Hrun as <-; cbn [res_c].
    + cbn. lia.
    + pose proof (setErrorPos_ge p x0). lia.
  - unfold literalString_parseCore in Hrun. bind_inv Hrun.
    destruct x.
    + bind_inv Hrun. destruct (isWord lit_id x).
      * bind_inv Hrun. destruct (res_err x0).
        -- injection Hrun as <-. cbn. lia.
        -- eapply literalString_skip_monotone; exact Hrun.
      * eapply literalString_skip_monotone; exact Hrun.
    + injection Hrun as <-. apply setErrorPos_ge.
  - unfold characterClass_parseCore in Hrun.
    destruct (int_sub (len s) p <? 1).
    + injection Hrun as <-. apply setErrorPos_ge.
    + bind_inv Hrun. destruct x0; injection Hrun as <-;
        [cbn; lia|apply setErrorPos_ge].
  - unfold anyCharacter_parseCore in Hrun.
    destruct (int_sub (len s) p <? 1); injection Hrun as <-;
      [apply setErrorPos_ge|cbn; lia].
  - unfold tokenBoundary_parseCore in Hrun. bind_inv Hrun.
    apply Hmono in Hx. cbn in Hx.
    destruct (res_err x); [injection Hrun as <-; exact Hx|].
    bind_inv Hrun. cbn [c_whitespaceOpe set_inToken] in Hrun.
    destruct (c_whitespaceOpe (res_c x)).
    + bind_inv Hrun. apply Hmono in Hx1. cbn in Hx1.
      destruct (res_err x1); injection Hrun as <-; cbn; lia.
    + injection Hrun as <-. exact Hx.
  - rewrite ignore_parseCore_eq in Hrun. bind_inv Hrun.
    injection Hrun as <-. eapply pushed_child_monotone; eassumption.
  - unfold user_parseCore in Hrun. destruct (fn s p v d) as [[l e] v1].
    injection Hrun as <-. cbn. lia.
  - unfold reference_parseCore in Hrun. destruct rule as [rid|].
    + destruct (rules !! rid) as [rl|]; [|discriminate].
      destruct (rule_Parameters rl) as [params|].
      * bind_inv Hrun. apply Rule_parse_monotone in Hx.
        apply popArgs_errorPos in Hx0. injection Hrun as <-. cbn in *. lia.
      * eapply Rule_parse_monotone; exact Hrun.
    + destruct (nth_arg (topArg c) iarg); [|discriminate].
      eapply Hmono; exact Hrun.
  - unfold whitespace_parseCore in Hrun.
    destruct (c_inWhitespace c).
    + injection Hrun as <-. cbn. lia.
    + bind_inv Hrun. apply Hmono in Hx. injection Hrun as <-. exact Hx.
Qed.

End MonotoneChildren.

Lemma parse_monotone (lineInfo : string -> Z -> Z * Z) (rules : list Rule)
    (fuel : nat) : monotone_parser (parse lineInfo rules fuel).
Proof.
  induction fuel as [|k IH]; intros o s p v c d h r Hrun; [discriminate|].
  rewrite parse_S in Hrun. bind_inv Hrun. injection Hrun as <-.
  apply (parseCore_monotone _ IH) in Hx.
  destruct (traceLeave_fields o s p d x) as (_ & _ & _ & ->). exact Hx.
Qed.

(** X4. Whenever the evaluation of an operator returns, with or without an
    error, [c.errorPos] is at least what it was before the call: failures
    only raise it, and the operators that tolerate a failure (repetition,
    option, not-predicate) restore a value saved at or after their
    entry. *)
Theorem parse_errorPos_monotone (lineInfo : string -> Z -> Z * Z)
    (rules : list Rule) (fuel : nat) (o : operator) (s : string) (p : Z)
    (v : Values) (c : context) (d : Any) (h : heap) (r : result) :
  parse lineInfo rules fuel o s p v c d h = Ret r ->
  c_errorPos c <= c_errorPos (res_c r).
Proof. apply parse_monotone. Qed.

(** X5. Whenever the evaluation of an operator returns, the stack of macro
    arguments is the one from before the call: every [pushArgs] of a macro
    call has been undone by its [popArgs]. *)
Theorem parse_argsStack_preserved (lineInfo : string -> Z -> Z * Z)
    (rules : list Rule) (fuel : nat) (o : operator) (s : string) (p : Z)
    (v : Values) (c : context) (d : Any) (h : heap) (r : result) :
  parse lineInfo rules fuel o s p v c d h = Ret r ->
  c_argsStack (res_c r) = c_argsStack c.
Proof.
  intros Hrun. apply parse_stable in Hrun.
  destruct Hrun as (_ & _ & _ & _ & Hargs & _). exact Hargs.
Qed.

(** X6. An evaluation never raises [inToken]: entered out of a token it
    returns out of a token, also after token boundaries inside it; and it
    returns with [inWhitespace] as it found it. *)
Theorem parse_flags (lineInfo : string -> Z -> Z * Z)
    (rules : list Rule) (fuel : nat) (o : operator) (s : string) (p : Z)
    (v : Values) (c : context) (d : Any) (h : heap) (r : result) :
  parse lineInfo rules fuel o s p v c d h = Ret r ->
  (c_inToken c = false -> c_inToken (res_c r) = false)
  /\ c_inWhitespace (res_c r) = c_inWhitespace c.
Proof.
  intros Hrun. apply parse_stable in Hrun.
  destruct Hrun as (_ & _ & _ & _ & _ & _ & Hws & _ & _ & _ & Htok). auto.
Qed.

(** ** Lengths stay within the input *)

Lemma within_fields (s : string) (p : Z) (r r' : result) :
  res_l r' = res_l r -> res_err r' = res_err r ->
  within s p r -> within s p r'.
Proof. unfold within. intros -> ->. auto. Qed.

Lemma user_free_context_stable (c c' : context) :
  stable c c' -> user_free_context c -> user_free_context c'.
Proof.
  unfold stable, user_free_context.
  intros (_ & _ & _ & _ & -> & -> & _ & -> & _). auto.
Qed.

Lemma user_free_context_pushArgs (args : list operator) (c : context) :
  forallb user_free args = true ->
  user_free_context c -> user_free_context (pushArgs args c).
Proof.
  unfold user_free_context, pushArgs. cbn. intros Ha (H1 & H2 & H3).
  repeat split; try assumption.
  rewrite forallb_app, H3. cbn. now rewrite Ha.
Qed.

Lemma user_free_last (st : list (list operator)) :
  forallb (forallb user_free) st = true ->
  forallb user_free (List.last st []) = true.
Proof.
  induction st as [|a st IH]; [reflexivity|].
  cbn [forallb]. intros [Ha Hst]%andb_prop.
  destruct st as [|b st]; [exact Ha|]. apply IH. exact Hst.
Qed.

Lemma user_free_topArg (c : context) :
  user_free_context c -> forallb user_free (topArg c) = true.
Proof.
  intros (_ & _ & Hst). unfold topArg.
  destruct (c_argsStack c) eqn:E; [reflexivity|].
  rewrite <- E. apply user_free_last. now rewrite E.
Qed.

Lemma user_free_lookup (args : list operator) (i : nat) (a : operator) :
  forallb user_free args = true -> args !! i = Some a -> user_free a = true.
Proof.
  revert i. induction args as [|b args IH]; intros i Hall Hi; [discriminate|].
  cbn [forallb] in Hall. apply andb_prop in Hall as [Hb Hall].
  destruct i as [|i]; [injection Hi as <-; exact Hb|].
  eapply IH; eassumption.
Qed.

Lemma user_free_nth_arg (args : list operator) (i : Z) (a : operator) :
  forallb user_free args = true -> nth_arg args i = Some a ->
  user_free a = true.
Proof.
  unfold nth_arg. destruct (i <? 0); [discriminate|].
  apply user_free_lookup.
Qed.

Lemma user_free_find_param (params : list string) (args : list operator)
    (name : string) (a : operator) :
  forallb user_free args = true ->
  find_param params args name = Some a -> user_free a = true.
Proof.
  revert args. induction params as [|prm params IH]; intros args Hall Hf;
    [discriminate|].
  destruct args as [|b args]; [discriminate|].
  cbn [forallb] in Hall. apply andb_prop in Hall as [Hb Hall].
  cbn [find_param] in Hf.
  destruct (String.eqb prm name); [injection Hf as <-; exact Hb|].
  eapply IH; eassumption.
Qed.

Lemma user_free_findReference (top : list operator) (params : list string)
    (args : list operator) :
  forallb user_free top = true ->
  forallb user_free args = true ->
  forallb user_free (map (findReference top params) args) = true.
Proof.
  intros Htop. induction args as [|a args IH]; [reflexivity|].
  cbn [forallb map]. intros [Ha Hargs]%andb_prop.
  rewrite (IH Hargs), andb_true_r.
  destruct a; try exact Ha.
  cbn [findReference].
  destruct (find_param params top name) eqn:Hf; [|exact Ha].
  exact (user_free_find_param _ _ _ _ Htop Hf).
Qed.

Lemma literal_loop_bound (s : string) (p : Z) :
  len s <= int_max -> 0 <= p ->
  forall (lit : string) (l : Z),
    0 <= l -> p + l <= len s ->
    literal_loop lit s p l = Ret true -> p + l + len lit <= len s.
Proof.
  intros Hmax Hp. induction lit as [|b lit IH]; intros l Hl Hle Hrun.
  - change (len "") with 0. lia.
  - cbn [literal_loop] in Hrun.
    rewrite int_add_id in Hrun by (unfold in_int, int_min, int_max in *; lia).
    destruct (Z.eqb_spec (p + l) (len s)); [discriminate|].
    destruct (index s (p + l)) as [a| |]; cbn [mbind outcome_bind] in Hrun;
      try discriminate.
    destruct (byte_eqb a b); [|discriminate].
    apply IH in Hrun; [|lia..]. rewrite len_String. lia.
Qed.

Section BoundedChildren.

Variable rec : parser.
Hypothesis Hbound : bounded_parser rec.
Hypothesis Hstable : stable_parser rec.

Variable s : string.
Variable p : Z.
Hypothesis Hmax : len s <= int_max.
Hypothesis Hp : 0 <= p.

Lemma int_add_within (l : Z) :
  0 <= l -> p + l <= len s -> int_add p l = p + l.
Proof.
  intros Hl Hle. apply int_add_id. unfold in_int, int_min, int_max in *. lia.
Qed.

Lemma int_add_lengths (l x : Z) :
  0 <= l -> 0 <= x -> p + l + x <= len s -> int_add l x = l + x.
Proof.
  intros Hl Hx Hle. apply int_add_id. unfold in_int, int_min, int_max in *. lia.
Qed.

Lemma sequence_loop_within (d : Any) (opes : list operator) :
  forall (l : Z) (v : Values) (c : context) (h : heap) (r : result),
    forallb user_free opes = true -> user_free_context c ->
    0 <= l -> p + l <= len s ->
    sequence_loop rec opes s p l v c d h = Ret r -> within s p r.
Proof.
  induction opes as [|ope rest IH]; intros l v c h r Hfree Hc Hl Hle Hrun.
  - injection Hrun as <-. unfold within. cbn. lia.
  - cbn [forallb] in Hfree. apply andb_prop in Hfree as [Hope Hrest].
    cbn [sequence_loop] in Hrun. rewrite int_add_within in Hrun by assumption.
    bind_inv Hrun.
    assert (Hpos : 0 <= p + l <= len s) by lia.
    pose proof (Hbound _ _ _ _ _ _ _ _ Hope Hc Hmax Hpos Hx) as Hw.
    pose proof (user_free_context_stable _ _ (Hstable _ _ _ _ _ _ _ _ Hx) Hc).
    unfold within in Hw. destruct (res_err x).
    + injection Hrun as <-. reflexivity.
    + destruct Hw as [Hx0 Hxle].
      rewrite (int_add_lengths l (res_l x)) in Hrun by lia.
      eapply IH; [exact Hrest|eassumption| | |exact Hrun]; lia.
Qed.

Lemma prioritizedChoice_loop_within (d : Any) (v : Values)
    (opes : list operator) :
  forall (c : context) (h : heap) (errs : list error) (id : Z) (r : result),
    forallb user_free opes = true -> user_free_context c -> p <= len s ->
    prioritizedChoice_loop rec opes s p v c d h errs id = Ret r ->
    within s p r.
Proof.
  induction opes as [|ope rest IH]; intros c h errs id r Hfree Hc Hle Hrun.
  - injection Hrun as <-. reflexivity.
  - cbn [forallb] in Hfree. apply andb_prop in Hfree as [Hope Hrest].
    rewrite prioritizedChoice_loop_cons in Hrun. bind_inv Hrun.
    assert (Hpc : user_free_context (push c).2) by exact Hc.
    assert (Hpos : 0 <= p <= len s) by lia.
    pose proof (Hbound _ _ _ _ _ _ _ _ Hope Hpc Hmax Hpos Hx) as Hw.
    pose proof (stable_push_pop _ _ _ (Hstable _ _ _ _ _ _ _ _ Hx) Hx0) as Hst.
    destruct (res_err x) eqn:He.
    + eapply IH; [exact Hrest| |exact Hle|exact Hrun].
      eapply user_free_context_stable; eassumption.
    + injection Hrun as <-. unfold within in *. cbn. now rewrite He in Hw.
Qed.

Lemma repetition_loop_within (d : Any) (ope : operator) (save : Z) (k : nat) :
  forall (l : Z) (v : Values) (c : context) (h : heap) (r : result),
    user_free ope = true -> user_free_context c ->
    0 <= l -> p + l <= len s ->
    repetition_loop k rec ope s p save l v c d h = Ret r -> within s p r.
Proof.
  induction k as [|k IH]; intros l v c h r Hope Hc Hl Hle Hrun;
    cbn [repetition_loop] in Hrun;
    rewrite int_add_within in Hrun by assumption;
    destruct (p + l <? len s); try discriminate;
    try (injection Hrun as <-; unfold within; cbn; lia).
  bind_inv Hrun.
  assert (Hpos : 0 <= p + l <= len s) by lia.
  pose proof (Hbound _ _ _ _ _ _ _ _ Hope Hc Hmax Hpos Hx) as Hw.
  pose proof (user_free_context_stable _ _ (Hstable _ _ _ _ _ _ _ _ Hx) Hc).
  unfold within in Hw. destruct (res_err x).
  - injection Hrun as <-. unfold within. cbn. lia.
  - destruct Hw as [Hx0 Hxle].
    rewrite (int_add_lengths l (res_l x)) in Hrun by lia.
    eapply IH; [exact Hope|eassumption| | |exact Hrun]; lia.
Qed.

Lemma literalString_skip_within (d : Any) (l : Z) (v : Values) (c : context)
    (h : heap) (r : result) :
  user_free_context c -> 0 <= l -> p + l <= len s ->
  literalString_skip rec s p l v c d h = Ret r -> within s p r.
Proof.
  intros Hc Hl Hle Hrun. unfold literalString_skip in Hrun.
  destruct (negb (c_inToken c)); [|injection Hrun as <-; unfold within; cbn; lia].
  destruct (c_whitespaceOpe c) as [ws|] eqn:Hws;
    [|injection Hrun as <-; unfold within; cbn; lia].
  rewrite int_add_within in Hrun by assumption. bind_inv Hrun.
  assert (Hfree : user_free ws = true).
  { destruct Hc as (Hw & _). now rewrite Hws in Hw. }
  assert (Hpos : 0 <= p + l <= len s) by lia.
  pose proof (Hbound _ _ _ _ _ _ _ _ Hfree Hc Hmax Hpos Hx) as Hw.
  unfold within in Hw. destruct (res_err x).
  - injection Hrun as <-. reflexivity.
  - destruct Hw as [Hx0 Hxle]. injection Hrun as <-. unfold within. cbn.
    rewrite (int_add_lengths l (res_l x)) by lia. lia.
Qed.

Lemma Rule_parse_within (d : Any) (rl : Rule) (v : Values) (c : context)
    (h : heap) (r : result) :
  user_free (rule_Ope rl) = true -> user_free_context c -> p <= len s ->
  Rule_parse rec rl s p v c d h = Ret r -> within s p r.
Proof.
  intros Hfree Hc Hle. rewrite Rule_parse_eq. intros Hrun. bind_inv Hrun.
  assert (Hpc : user_free_context (push c).2) by exact Hc.
  assert (Hpos : 0 <= p <= len s) by lia.
  pose proof (Hbound _ _ _ _ _ _ _ _ Hfree Hpc Hmax Hpos Hx) as Hw.
  unfold within in *.
  destruct (res_err x) eqn:He; injection Hrun as <-; cbn; exact Hw.
Qed.

End BoundedChildren.

Section BoundedCore.

Variable lineInfo : string -> Z -> Z * Z.
Variable rules : list Rule.
Hypothesis Hrules : user_free_rules rules.

Variable rec : parser.
Hypothesis Hbound : bounded_parser rec.
Hypothesis Hstable : stable_parser rec.

Lemma parseCore_within (fuel : nat) (o : operator) (s : string) (p : Z)
    (v : Values) (c : context) (d : Any) (h : heap) (r : result) :
  user_free o = true -> user_free_context c ->
  len s <= int_max -> 0 <= p <= len s ->
  parseCore lineInfo rules fuel rec o s p v c d h = Ret r -> within s p r.
Proof.
  intros Hfree Hc Hmax [Hp Hle].
  assert (Hpos : 0 <= p <= len s) by lia.
  assert (Hsub : int_sub (len s) p = len s - p).
  { apply int_sub_id. unfold in_int, int_min, int_max in *. lia. }
  assert (Hchild : forall ope v' c' h' x,
             user_free ope = true -> user_free_context c' ->
             rec ope s p v' c' d h' = Ret x -> within s p x).
  { intros ope v' c' h' x Ho Hc' Hx.
    exact (Hbound _ _ _ _ _ _ _ _ Ho Hc' Hmax Hpos Hx). }
  destruct o; cbn [parseCore user_free] in *; intros Hrun.
  - eapply (sequence_loop_within rec Hbound Hstable s p Hmax Hp);
      [exact Hfree|exact Hc| | |exact Hrun]; lia.
  - eapply (prioritizedChoice_loop_within rec Hbound Hstable s p Hmax Hp);
      [exact Hfree|exact Hc|exact Hle|exact Hrun].
  - eapply (repetition_loop_within rec Hbound Hstable s p Hmax Hp);
      [exact Hfree|exact Hc| | |exact Hrun]; lia.
  - unfold oneOrMore_parseCore in Hrun. bind_inv Hrun.
    pose proof (Hchild _ _ _ _ _ Hfree Hc Hx) as Hw.
    pose proof (user_free_context_stable _ _ (Hstable _ _ _ _ _ _ _ _ Hx) Hc).
    destruct (res_err x) eqn:He; [injection Hrun as <-; exact Hw|].
    unfold within in Hw. rewrite He in Hw. destruct Hw.
    eapply (repetition_loop_within rec Hbound Hstable s p Hmax Hp);
      [exact Hfree|eassumption| | |exact Hrun]; lia.
  - unfold option_parseCore in Hrun. bind_inv Hrun.
    pose proof (Hchild _ _ _ _ _ Hfree Hc Hx) as Hw. unfold within in *.
    destruct (res_err x); injection Hrun as <-; cbn; [lia|exact Hw].
  - rewrite andPredicate_parseCore_eq in Hrun. bind_inv Hrun.
    injection Hrun as <-. unfold within. cbn. destruct (res_err x); lia.
  - rewrite notPredicate_parseCore_eq in Hrun. bind_inv Hrun.
    destruct (res_err x); injection Hrun as <-; unfold within; cbn; lia.
  - unfold literalString_parseCore in Hrun. bind_inv Hrun.
    destruct x; [|injection Hrun as <-; reflexivity].
    pose proof (literal_loop_bound s p Hmax Hp lit 0 ltac:(lia) ltac:(lia) Hx)
      as Hlit.
    pose proof (len_nonneg lit) as Hlit0.
    bind_inv Hrun. destruct (isWord lit_id x).
    + bind_inv Hrun. unfold literalString_boundary in Hx1.
      destruct (c_wordOpe c) as [w|] eqn:Hw; [|discriminate].
      rewrite (int_add_within s p Hmax Hp) in Hx1 by lia.
      assert (Hwfree : user_free (Npd w) = true).
      { destruct Hc as (_ & Hwo & _). now rewrite Hw in Hwo. }
      assert (Hnew : user_free_context (context_new s)) by (repeat split).
      assert (Hpos' : 0 <= p + len lit <= len s) by lia.
      pose proof (Hbound _ _ _ _ _ _ _ _ Hwfree Hnew Hmax Hpos' Hx1) as Hb.
      unfold within in Hb. destruct (res_err x0).
      * injection Hrun as <-. reflexivity.
      * destruct Hb as [Hb0 Hble].
        rewrite (int_add_lengths s p Hmax Hp) in Hrun by lia.
        eapply (literalString_skip_within rec Hbound s p Hmax Hp);
          [exact Hc| | |exact Hrun]; lia.
    + eapply (literalString_skip_within rec Hbound s p Hmax Hp);
        [exact Hc| | |exact Hrun]; lia.
  - unfold characterClass_parseCore in Hrun. rewrite Hsub in Hrun.
    destruct (Z.ltb_spec (len s - p) 1).
    + injection Hrun as <-. reflexivity.
    + bind_inv Hrun. destruct x0; injection Hrun as <-;
        [unfold within; cbn; lia|reflexivity].
  - unfold anyCharacter_parseCore in Hrun. rewrite Hsub in Hrun.
    destruct (Z.ltb_spec (len s - p) 1); injection Hrun as <-;
      [reflexivity|unfold within; cbn; lia].
  - unfold tokenBoundary_parseCore in Hrun. bind_inv Hrun.
    assert (Hc0 : user_free_context (set_inToken true c)) by exact Hc.
    pose proof (Hchild _ _ _ _ _ Hfree Hc0 Hx) as Hw.
    pose proof (user_free_context_stable _ _
                  (stable_inToken _ _ (Hstable _ _ _ _ _ _ _ _ Hx)) Hc) as Hc1.
    unfold within in Hw. destruct (res_err x) eqn:He.
    + injection Hrun as <-. unfold within. cbn. exact Hw.
    + destruct Hw as [Hxl0 Hxle].
      apply bind_Ret_inv in Hrun as (tok & Htok & Hrun).
      cbn [c_whitespaceOpe set_inToken] in Hrun.
      destruct (c_whitespaceOpe (res_c x)) as [ws|] eqn:Hws.
      * rewrite (int_add_within s p Hmax Hp) in Hrun by lia.
        apply bind_Ret_inv in Hrun as (xw & Hxw & Hrun).
        assert (Hwsfree : user_free ws = true).
        { destruct Hc1 as (Hw1 & _). cbn in Hw1. now rewrite Hws in Hw1. }
        assert (Hpos' : 0 <= p + res_l x <= len s) by lia.
        pose proof (Hbound _ _ _ _ _ _ _ _ Hwsfree Hc1 Hmax Hpos' Hxw) as Hb.
        unfold within in Hb. destruct (res_err xw).
        -- injection Hrun as <-. reflexivity.
        -- destruct Hb. injection Hrun as <-. unfold within. cbn.
           rewrite (int_add_lengths s p Hmax Hp) by lia. lia.
      * injection Hrun as <-. unfold within. cbn. lia.
  - rewrite ignore_parseCore_eq in Hrun. bind_inv Hrun.
    assert (Hpc : user_free_context (push c).2) by exact Hc.
    pose proof (Hchild _ _ _ _ _ Hfree Hpc Hx) as Hw.
    injection Hrun as <-. exact Hw.
  - discriminate.
  - unfold reference_parseCore in Hrun. destruct rule as [rid|].
    + destruct (rules !! rid) as [rl|] eqn:Hrl; [|discriminate].
      assert (Hbody : user_free (rule_Ope rl) = true).
      { unfold user_free_rules in Hrules. rewrite Forall_lookup in Hrules.
        exact (Hrules _ _ Hrl). }
      destruct (rule_Parameters rl) as [params|].
      * bind_inv Hrun.
        eapply (Rule_parse_within rec Hbound s p Hmax Hp) in Hx;
          [|exact Hbody| |exact Hle].
        -- injection Hrun as <-. exact Hx.
        -- apply user_free_context_pushArgs; [|exact Hc].
           apply user_free_findReference; [|exact Hfree].
           now apply user_free_topArg.
      * eapply (Rule_parse_within rec Hbound s p Hmax Hp);
          [exact Hbody|exact Hc|exact Hle|exact Hrun].
    + destruct (nth_arg (topArg c) iarg) as [a|] eqn:Ha; [|discriminate].
      eapply Hchild; [|exact Hc|exact Hrun].
      eapply user_free_nth_arg; [|exact Ha]. now apply user_free_topArg.
  - unfold whitespace_parseCore in Hrun. destruct (c_inWhitespace c).
    + injection Hrun as <-. unfold within. cbn. lia.
    + bind_inv Hrun.
      assert (Hc0 : user_free_context (set_inWhitespace true c)) by exact Hc.
      pose proof (Hchild _ _ _ _ _ Hfree Hc0 Hx) as Hw.
      injection Hrun as <-. exact Hw.
Qed.

End BoundedCore.

Lemma parse_bounded (lineInfo : string -> Z -> Z * Z) (rules : list Rule)
    (fuel : nat) :
  user_free_rules rules -> bounded_parser (parse lineInfo rules fuel).
Proof.
  intros Hrules.
  induction fuel as [|k IH]; intros o s p v c d h r Hfree Hc Hmax Hp Hrun;
    [discriminate|].
  rewrite parse_S in Hrun. bind_inv Hrun. injection Hrun as <-.
  eapply (parseCore_within lineInfo rules Hrules _ IH (parse_stable _ _ k))
    in Hx; try eassumption.
  destruct (traceLeave_fields o s p d x) as (Hl & He & _).
  eapply within_fields; eassumption.
Qed.

(** X8. In a grammar without user functions, every evaluation that starts
    inside the input keeps to it: a success returns a length [l] with
    [0 <= l <= len(s) - p], and a failure returns the length 0. *)
Theorem parse_user_free_bounds (lineInfo : string -> Z -> Z * Z)
    (rules : list Rule) (fuel : nat) (o : operator) (s : string) (p : Z)
    (v : Values) (c : context) (d : Any) (h : heap) (r : result) :
  user_free_rules rules -> user_free o = true -> user_free_context c ->
  len s <= int_max -> 0 <= p <= len s ->
  parse lineInfo rules fuel o s p v c d h = Ret r ->
  match res_err r with
  | None => 0 <= res_l r <= len s - p
  | Some _ => res_l r = 0
  end.
Proof.
  intros Hrules Hfree Hc Hmax Hp Hrun.
  pose proof (parse_bounded lineInfo rules fuel Hrules _ _ _ _ _ _ _ _
                Hfree Hc Hmax Hp Hrun) as Hw.
  unfold within in Hw. destruct (res_err r); [exact Hw|lia].
Qed.

(** ** Literals and single characters *)

Lemma literal_loop_prefix (p : Z) (lit : string) :
  forall (pre rest : string) (l : Z),
    0 <= p -> 0 <= l -> len pre = p + l ->
    len (pre +:+ rest) <= int_max ->
    literal_loop lit (pre +:+ rest) p l = Ret (String.prefix lit rest).
Proof.
  induction lit as [|b lit IH]; intros pre rest l Hp Hl Hpre Hmax.
  - destruct rest; reflexivity.
  - cbn [literal_loop]. rewrite len_append in *.
    pose proof (len_nonneg rest) as Hrest.
    rewrite int_add_id by (unfold in_int, int_min, int_max in *; lia).
    destruct rest as [|a rest].
    + change (len "") with 0.
      destruct (Z.eqb_spec (p + l) (len pre + 0)); [reflexivity|lia].
    + rewrite len_String in *. pose proof (len_nonneg rest).
      destruct (Z.eqb_spec (p + l) (len pre + (1 + len rest))); [lia|].
      replace (p + l) with (len pre + 0) by lia.
      rewrite index_append_r by lia. rewrite index_head.
      cbn [mbind outcome_bind String.prefix].
      unfold byte_eqb. destruct (Ascii.eqb_spec a b) as [->|Hne].
      * destruct (ascii_dec b b) as [_|Hbb]; [|contradiction].
        rewrite append_assoc3.
        apply IH; try lia.
        -- rewrite len_append, len_String. change (len "") with 0. lia.
        -- rewrite <- append_assoc3, len_append, len_String. lia.
      * destruct (ascii_dec b a) as [->|_]; [contradiction|reflexivity].
Qed.

Lemma literalString_plain (lineInfo : string -> Z -> Z * Z)
    (rules : list Rule) (fuel : nat) (rec : parser) (id : nat)
    (lit pre rest : string) (v : Values) (c : context) (d : Any) (h : heap) :
  len (pre +:+ rest) <= int_max ->
  c_wordOpe c = None ->
  h_isWord h !! id <> Some true ->
  c_inToken c = true \/ c_whitespaceOpe c = None ->
  parseCore lineInfo rules fuel rec (literalString id lit)
    (pre +:+ rest) (len pre) v c d h
  = if String.prefix lit rest
    then Ret (mkResult (len lit) None v c
                match h_isWord h !! id with
                | Some _ => h
                | None => set_isWord id false h
                end)
    else Ret (mkResult 0
                (Some (mkOperatorError lineInfo lit (pre +:+ rest) (len pre)
                         (len lit)))
                v (setErrorPos (len pre) c) h).
Proof.
  intros Hmax Hword Hmemo Hskip. cbn [parseCore].
  unfold literalString_parseCore.
  rewrite (literal_loop_prefix (len pre) lit pre rest 0)
    by (pose proof (len_nonneg pre); lia || assumption).
  cbn [mbind outcome_bind]. destruct (String.prefix lit rest); [|reflexivity].
  unfold literalString_initIsWord, isWord. rewrite Hword.
  assert (Hnoskip : forall h', literalString_skip rec (pre +:+ rest) (len pre)
                                 (len lit) v c d h'
                               = Ret (mkResult (len lit) None v c h')).
  { intros h'. unfold literalString_skip.
    destruct Hskip as [-> | ->]; [reflexivity|].
    destruct (negb (c_inToken c)); reflexivity. }
  destruct (h_isWord h !! id) as [[|]|] eqn:Hm; cbn [mbind outcome_bind].
  - contradiction.
  - rewrite Hm. cbn [default]. apply Hnoskip.
  - unfold set_isWord at 1. cbn [h_isWord]. rewrite lookup_insert_eq.
    cbn [default]. apply Hnoskip.
Qed.

(** X9. With no word operator and no whitespace to skip, a literal
    evaluated at the end of [pre] in the input [pre ++ rest] succeeds
    exactly when it is a prefix of [rest]: it then returns its own length
    and leaves the frame and the context as they were, recording only
    that the node is not a word; otherwise it fails with
    [OperatorError{Expected=[lit], Length=len(lit)}] and raises the error
    position to [p].  So the empty literal matches everywhere, and a
    literal longer than what is left of the input fails. *)
Theorem literalString_plain_spec (lineInfo : string -> Z -> Z * Z)
    (rules : list Rule) (fuel : nat) (rec : parser) (id : nat)
    (lit pre rest : string) (v : Values) (c : context) (d : Any) (h : heap) :
  len (pre +:+ rest) <= int_max ->
  c_wordOpe c = None ->
  h_isWord h !! id <> Some true ->
  c_inToken c = true \/ c_whitespaceOpe c = None ->
  parseCore lineInfo rules fuel rec (literalString id lit)
    (pre +:+ rest) (len pre) v c d h
  = if String.prefix lit rest
    then Ret (mkResult (len lit) None v c
                match h_isWord h !! id with
                | Some _ => h
                | None => set_isWord id false h
                end)
    else Ret (mkResult 0
                (Some (mkOperatorError lineInfo lit (pre +:+ rest) (len pre)
                         (len lit)))
                v (setErrorPos (len pre) c) h).
Proof. apply literalString_plain. Qed.

(** X10. Inside the input, [anyCharacter] succeeds with length 1 exactly
    when a byte is left, without touching the frame or the context; at the
    end of the input it fails with
    [OperatorError{Expected=["Anything"], Length=0}] and raises the error
    position to [p]. *)
Theorem anyCharacter_spec (lineInfo : string -> Z -> Z * Z)
    (rules : list Rule) (fuel : nat) (rec : parser) (s : string) (p : Z)
    (v : Values) (c : context) (d : Any) (h : heap) :
  0 <= p <= len s -> len s <= int_max ->
  parseCore lineInfo rules fuel rec anyCharacter s p v c d h
  = if p <? len s
    then Ret (mkResult 1 None v c h)
    else Ret (mkResult 0 (Some (mkOperatorError lineInfo "Anything" s p 0)) v
                (setErrorPos p c) h).
Proof.
  intros Hp Hmax. cbn [parseCore]. unfold anyCharacter_parseCore.
  rewrite int_sub_id by (unfold in_int, int_min, int_max in *; lia).
  destruct (Z.ltb_spec (len s - p) 1), (Z.ltb_spec p (len s));
    try lia; reflexivity.
Qed.

(** ** Operators that tolerate failure, and throwaway frames *)

Lemma repetition_loop_no_error (rec : parser) (ope : operator) (s : string)
    (p : Z) (d : Any) (save : Z) (k : nat) :
  forall (l : Z) (v : Values) (c : context) (h : heap) (r : result),
    repetition_loop k rec ope s p save l v c d h = Ret r -> res_err r = None.
Proof.
  induction k as [|k IH]; intros l v c h r Hrun;
    cbn [repetition_loop] in Hrun;
    destruct (int_add p l <? len s); try discriminate;
    try (injection Hrun as <-; reflexivity).
  bind_inv Hrun. destruct (res_err x).
  - injection Hrun as <-. reflexivity.
  - eapply IH. exact Hrun.
Qed.

(** X11. [zeroOrMore] and [option] never return an error, whatever their
    child does; and at or past the end of the input [zeroOrMore] returns
    [(0, nil)] at once, without evaluating its child and without touching
    the frame or the context. *)
Theorem zeroOrMore_option_no_error (lineInfo : string -> Z -> Z * Z)
    (rules : list Rule) (fuel : nat) (ope : operator) (s : string) (p : Z)
    (v : Values) (c : context) (d : Any) (h : heap) :
  (forall r : result,
      parse lineInfo rules fuel (zeroOrMore ope) s p v c d h = Ret r ->
      res_err r = None)
  /\ (forall r : result,
        parse lineInfo rules fuel (option_ ope) s p v c d h = Ret r ->
        res_err r = None)
  /\ (forall rec : parser,
        len s <= int_add p 0 ->
        parseCore lineInfo rules fuel rec (zeroOrMore ope) s p v c d h
        = Ret (mkResult 0 None v c h)).
Proof.
  split; [|split].
  - intros r Hrun. destruct fuel as [|k]; [discriminate|].
    rewrite parse_S in Hrun. bind_inv Hrun. injection Hrun as <-.
    destruct (traceLeave_fields (zeroOrMore ope) s p d x) as (_ & -> & _).
    cbn [parseCore] in Hx. eapply repetition_loop_no_error. exact Hx.
  - intros r Hrun. destruct fuel as [|k]; [discriminate|].
    rewrite parse_S in Hrun. bind_inv Hrun. injection Hrun as <-.
    destruct (traceLeave_fields (option_ ope) s p d x) as (_ & -> & _).
    cbn [parseCore] in Hx. unfold option_parseCore in Hx. bind_inv Hx.
    destruct (res_err x0); injection Hx as <-; reflexivity.
  - intros rec Hend. cbn [parseCore]. unfold zeroOrMore_parseCore.
    now apply repetition_loop_end.
Qed.

Lemma context_eq (c c' : context) :
  stable c c' -> c_errorPos c' = c_errorPos c -> c_inToken c' = c_inToken c ->
  c' = c.
Proof.
  destruct c, c'. unfold stable. cbn.
  intros (-> & -> & -> & -> & -> & -> & -> & -> & -> & -> & _) -> ->.
  reflexivity.
Qed.

(** X12. A failure tolerated by [option] leaves no trace outside the
    frame's [Pos], [S] and [Choice]: the result is [(0, nil)], [Vs] and
    [Ts] are those from before the call, and, when the call was entered
    out of a token, the context is exactly the one from before the call,
    whatever the child pushed, raised or set on its way to the failure. *)
Theorem option_tolerated_failure (lineInfo : string -> Z -> Z * Z)
    (rules : list Rule) (k : nat) (ope : operator) (s : string) (p : Z)
    (v : Values) (c : context) (d : Any) (h : heap) (rk : result) (e : error) :
  parse lineInfo rules k ope s p v c d (traceEnter (option_ ope) s p v c d h)
  = Ret rk ->
  res_err rk = Some e ->
  exists r : result,
    parse lineInfo rules (S k) (option_ ope) s p v c d h = Ret r
    /\ res_l r = 0 /\ res_err r = None
    /\ v_Vs (res_v r) = v_Vs v /\ v_Ts (res_v r) = v_Ts v
    /\ c_errorPos (res_c r) = c_errorPos c
    /\ (c_inToken c = false -> res_c r = c).
Proof.
  intros Hrk He. rewrite parse_S. cbn [parseCore]. unfold option_parseCore.
  rewrite Hrk. cbn [mbind outcome_bind]. rewrite He. cbn [mbind outcome_bind].
  eexists. split; [reflexivity|].
  match goal with
  | |- context [traceLeave ?o ?s ?p ?d ?r] =>
      destruct (traceLeave_fields o s p d r) as (-> & -> & -> & ->)
  end.
  cbn. repeat split. intros Htok.
  pose proof (parse_stable _ _ _ _ _ _ _ _ _ _ _ Hrk) as Hst.
  apply context_eq.
  - now apply stable_set_errorPos.
  - reflexivity.
  - cbn. destruct Hst as (_ & _ & _ & _ & _ & _ & _ & _ & _ & _ & Ht).
    now rewrite (Ht Htok).
Qed.

(** X13. The operators that evaluate their child on a throwaway frame,
    [andPredicate], [notPredicate] and [ignore], return the frame of the
    caller exactly as they received it, on success and on failure; the two
    predicates moreover always return the length 0. *)
Theorem throwaway_frame (lineInfo : string -> Z -> Z * Z)
    (rules : list Rule) (fuel : nat) (ope : operator) (s : string) (p : Z)
    (v : Values) (c : context) (d : Any) (h : heap) (r : result) :
  (parse lineInfo rules fuel (andPredicate ope) s p v c d h = Ret r ->
   res_v r = v /\ res_l r = 0)
  /\ (parse lineInfo rules fuel (notPredicate ope) s p v c d h = Ret r ->
      res_v r = v /\ res_l r = 0)
  /\ (parse lineInfo rules fuel (ignore ope) s p v c d h = Ret r ->
      res_v r = v).
Proof.
  destruct fuel as [|k]; [split; [|split]; discriminate|].
  split; [|split]; intros Hrun; rewrite parse_S in Hrun; bind_inv Hrun;
    injection Hrun as <-; cbn [parseCore] in Hx;
    match goal with
    | |- context [traceLeave ?o ?s ?p ?d ?r] =>
        destruct (traceLeave_fields o s p d r) as (Hl & _ & Hv & _)
    end; rewrite ?Hl, ?Hv.
  - rewrite andPredicate_parseCore_eq in Hx. bind_inv Hx.
    injection Hx as <-. split; reflexivity.
  - rewrite notPredicate_parseCore_eq in Hx. bind_inv Hx.
    destruct (res_err x0); injection Hx as <-; split; reflexivity.
  - rewrite ignore_parseCore_eq in Hx. bind_inv Hx.
    injection Hx as <-. reflexivity.
Qed.

(** X14. [notPredicate] inverts its child.  When the child fails the
    predicate succeeds with length 0 and, entered out of a token, leaves
    the context exactly as it was; when the child succeeds with length
    [l] the predicate fails with
    [OperatorError{Expected=["Not " + label], Length=l}] and leaves the
    error position at [p] or beyond. *)
Theorem notPredicate_inverts (lineInfo : string -> Z -> Z * Z)
    (rules : list Rule) (k : nat) (ope : operator) (s : string) (p : Z)
    (v : Values) (c : context) (d : Any) (h : heap) (rk : result) :
  parse lineInfo rules k ope s p (push c).1 (push c).2 d
    (traceEnter (notPredicate ope) s p v c d h) = Ret rk ->
  exists r : result,
    parse lineInfo rules (S k) (notPredicate ope) s p v c d h = Ret r
    /\ match res_err rk with
       | Some _ =>
           res_err r = None
           /\ c_errorPos (res_c r) = c_errorPos c
           /\ (c_inToken c = false -> res_c r = c)
       | None =>
           res_err r = Some (mkOperatorError lineInfo ("Not " +:+ Label ope)
                               s p (res_l rk))
           /\ p <= c_errorPos (res_c r)
       end.
Proof.
  intros Hrk. rewrite parse_S. cbn [parseCore].
  rewrite notPredicate_parseCore_eq, Hrk. cbn [mbind outcome_bind].
  pose proof (parse_stable _ _ _ _ _ _ _ _ _ _ _ Hrk) as Hst.
  destruct (Hst) as (_ & _ & _ & Hstack & _).
  rewrite (pop_snoc _ _ _ Hstack). cbn [mbind outcome_bind].
  pose proof (stable_push_pop _ _ _ Hst (pop_snoc _ _ _ Hstack)) as Hst2.
  destruct (res_err rk); cbn [mbind outcome_bind];
    (eexists; split; [reflexivity|]);
    match goal with
    | |- context [traceLeave ?o ?s ?p ?d ?r] =>
        destruct (traceLeave_fields o s p d r) as (_ & -> & _ & ->)
    end; cbn [res_err res_c].
  - split; [reflexivity|]. split; [reflexivity|]. intros Htok.
    apply context_eq.
    + now apply stable_set_errorPos.
    + reflexivity.
    + cbn. destruct Hst2 as (_ & _ & _ & _ & _ & _ & _ & _ & _ & _ & Ht).
      cbn in Ht. now rewrite (Ht Htok).
  - split; [reflexivity|].
    unfold setErrorPos.
    destruct (Z.ltb_spec (c_errorPos (set_svStack (c_svStack c) (res_c rk))) p);
      cbn in *; lia.
Qed.

(** ** The whitespace guard *)

(** X15. A whitespace operator entered while whitespace is being skipped
    does nothing: it returns [(0, nil)] without evaluating its child and
    leaves the frame and the context as they are.  So a literal inside the
    definition of whitespace, whose own skip calls the whitespace operator
    again, keeps its length and does not recurse. *)
Theorem whitespace_reentry (lineInfo : string -> Z -> Z * Z)
    (rules : list Rule) (k : nat) (w : operator) (s : string) (p l : Z)
    (v : Values) (c : context) (d : Any) (h : heap) :
  c_inWhitespace c = true ->
  (exists r : result,
      parse lineInfo rules (S k) (whitespace w) s p v c d h = Ret r
      /\ res_l r = 0 /\ res_err r = None /\ res_v r = v /\ res_c r = c)
  /\ (c_whitespaceOpe c = Some (whitespace w) -> in_int l ->
      exists r : result,
        literalString_skip (parse lineInfo rules (S k)) s p l v c d h = Ret r
        /\ res_l r = l /\ res_err r = None /\ res_v r = v /\ res_c r = c).
Proof.
  intros Hws.
  assert (Hguard : forall q h',
             exists r : result,
               parse lineInfo rules (S k) (whitespace w) s q v c d h' = Ret r
               /\ res_l r = 0 /\ res_err r = None /\ res_v r = v /\ res_c r = c).
  { intros q h'. rewrite parse_S. cbn [parseCore]. unfold whitespace_parseCore.
    rewrite Hws. cbn [mbind outcome_bind]. eexists. split; [reflexivity|].
    match goal with
    | |- context [traceLeave ?o ?s ?p ?d ?r] =>
        destruct (traceLeave_fields o s p d r) as (-> & -> & -> & ->)
    end. cbn. auto. }
  split; [apply Hguard|].
  intros Hope Hl. unfold literalString_skip. rewrite Hope.
  destruct (negb (c_inToken c)).
  - destruct (Hguard (int_add p l) h) as (r & -> & Hz & He & Hv & Hc).
    cbn [mbind outcome_bind]. rewrite He. eexists. split; [reflexivity|].
    cbn. rewrite Hz. unfold int_add. rewrite Z.add_0_r, wrap_id by exact Hl.
    auto.
  - eexists. split; [reflexivity|]. cbn. auto.
Qed.

(** ** How operators compose *)

Lemma wrap_add_wrap_r (a b : Z) : wrap (a + wrap b) = wrap (a + b).
Proof.
  unfold wrap. f_equal.
  replace (a + ((b + 2 ^ 63) mod 2 ^ 64 - 2 ^ 63) + 2 ^ 63)
    with (a + (b + 2 ^ 63) mod 2 ^ 64) by lia.
  rewrite Zplus_mod_idemp_r. f_equal. lia.
Qed.

Lemma int_add_assoc (a b c : Z) :
  int_add a (int_add b c) = int_add (int_add a b) c.
Proof.
  unfold int_add. rewrite wrap_add_wrap_r.
  rewrite (Z.add_comm (wrap (a + b)) c), wrap_add_wrap_r. f_equal. lia.
Qed.

Lemma repetition_loop_shift (rec : parser) (ope : operator) (s : string)
    (p : Z) (d : Any) (save l0 : Z) (k : nat) :
  forall (l : Z) (v : Values) (c : context) (h : heap),
    repetition_loop k rec ope s p save (int_add l0 l) v c d h
    = (r ← repetition_loop k rec ope s (int_add p l0) save l v c d h;
       Ret (add_l l0 r)).
Proof.
  induction k as [|k IH]; intros l v c h; cbn [repetition_loop];
    rewrite int_add_assoc;
    destruct (int_add (int_add p l0) l <? len s); try reflexivity.
  destruct (rec ope s (int_add (int_add p l0) l) v c d h) as [x| |];
    cbn [mbind outcome_bind]; try reflexivity.
  destruct (res_err x); [reflexivity|].
  rewrite <- int_add_assoc. apply IH.
Qed.

(** X16. [oneOrMore] is its child followed by [zeroOrMore] of the child:
    when the first evaluation of the child fails, its result is the
    result; when it succeeds with length [l0], the result is that of
    [zeroOrMore] evaluated at [p + l0] on the frame and the context the
    child left, with [l0] added to the length. *)
Theorem oneOrMore_unfold (lineInfo : string -> Z -> Z * Z)
    (rules : list Rule) (fuel : nat) (rec : parser) (ope : operator)
    (s : string) (p : Z) (v : Values) (c : context) (d : Any) (h : heap)
    (r0 : result) :
  rec ope s p v c d h = Ret r0 ->
  (res_err r0 <> None ->
   parseCore lineInfo rules fuel rec (oneOrMore ope) s p v c d h = Ret r0)
  /\ (res_err r0 = None -> in_int (res_l r0) ->
      parseCore lineInfo rules fuel rec (oneOrMore ope) s p v c d h
      = (r1 ← parseCore lineInfo rules fuel rec (zeroOrMore ope) s
                (int_add p (res_l r0)) (res_v r0) (res_c r0) d (res_h r0);
         Ret (add_l (res_l r0) r1))).
Proof.
  intros Hr0. cbn [parseCore]. unfold oneOrMore_parseCore, zeroOrMore_parseCore.
  rewrite Hr0. cbn [mbind outcome_bind]. split.
  - destruct (res_err r0); [reflexivity|contradiction].
  - intros He Hl. rewrite He.
    rewrite <- repetition_loop_shift.
    unfold int_add at 1. rewrite Z.add_0_r, wrap_id by exact Hl. reflexivity.
Qed.

Lemma sequence_loop_app (rec : parser) (s : string) (p : Z) (d : Any)
    (xs ys : list operator) :
  forall (l : Z) (v : Values) (c : context) (h : heap),
    sequence_loop rec (xs ++ ys) s p l v c d h
    = (r ← sequence_loop rec xs s p l v c d h;
       match res_err r with
       | Some _ => Ret r
       | None =>
           sequence_loop rec ys s p (res_l r) (res_v r) (res_c r) d (res_h r)
       end).
Proof.
  induction xs as [|x xs IH]; intros l v c h; [reflexivity|].
  cbn [app sequence_loop].
  destruct (rec x s (int_add p l) v c d h) as [rx| |];
    cbn [mbind outcome_bind]; try reflexivity.
  destruct (res_err rx) eqn:He; [|apply IH].
  cbn [mbind outcome_bind res_err]. reflexivity.
Qed.

(** X17. A sequence of [xs ++ ys] is the sequence [xs] followed by [ys]:
    when [xs] fails, its result [(0, err)] is the result and nothing of
    [ys] is evaluated; when [xs] succeeds with length [l], the children
    [ys] continue from [p + l] on the frame and the context that [xs]
    left, and their lengths are added to [l]. *)
Theorem sequence_append (lineInfo : string -> Z -> Z * Z)
    (rules : list Rule) (fuel : nat) (rec : parser) (xs ys : list operator)
    (s : string) (p : Z) (v : Values) (c : context) (d : Any) (h : heap) :
  parseCore lineInfo rules fuel rec (sequence (xs ++ ys)) s p v c d h
  = (r ← parseCore lineInfo rules fuel rec (sequence xs) s p v c d h;
     match res_err r with
     | Some _ => Ret r
     | None =>
         sequence_loop rec ys s p (res_l r) (res_v r) (res_c r) d (res_h r)
     end).
Proof. cbn [parseCore]. apply sequence_loop_app. Qed.

(** ** A token boundary around a literal *)

Lemma substring_append_r (pre rest : string) (n m : nat) :
  String.substring (String.length pre + n) m (pre +:+ rest)
  = String.substring n m rest.
Proof. induction pre as [|a pre IH]; [reflexivity|]. exact IH. Qed.

Lemma prefix_length (lit : string) :
  forall rest : string,
    String.prefix lit rest = true ->
    (String.length lit <= String.length rest)%nat.
Proof.
  induction lit as [|b lit IH]; intros rest Hpre.
  - rewrite ?length_String. change (String.length "") with 0%nat. lia.
  - destruct rest as [|a rest]; [discriminate|].
    cbn [String.prefix] in Hpre. destruct (ascii_dec b a); [|discriminate].
    rewrite !length_String. apply IH in Hpre. lia.
Qed.

Lemma slice_prefix (lit pre rest : string) :
  String.prefix lit rest = true ->
  slice (pre +:+ rest) (len pre) (len pre + len lit) = Ret lit.
Proof.
  intros Hpre. pose proof (prefix_length _ _ Hpre) as Hlen.
  unfold slice. rewrite len_append.
  pose proof (len_nonneg pre). pose proof (len_nonneg lit).
  assert (Hle : len lit <= len rest) by (unfold len; lia).
  destruct (Z.leb_spec 0 (len pre)); [|lia].
  destruct (Z.leb_spec (len pre) (len pre + len lit)); [|lia].
  destruct (Z.leb_spec (len pre + len lit) (len pre + len rest)); [|lia].
  cbn [andb]. f_equal.
  replace (Z.to_nat (len pre)) with (String.length pre + 0)%nat
    by (unfold len; lia).
  replace (Z.to_nat (len pre + len lit - len pre)) with (String.length lit)
    by (unfold len; lia).
  rewrite substring_append_r. now apply String.prefix_correct.
Qed.

(** X18. A token boundary around a literal that matches captures the
    literal itself: with no word operator, [Tok(Lit(lit))] evaluated at
    the end of [pre] in [pre ++ rest], where [lit] is a prefix of [rest],
    appends [Token{len(pre), lit}] to the frame and clears [inToken]; the
    literal, being inside the token, skips no whitespace, and the boundary
    skips it once, after the token, adding its length to [len(lit)]. *)
Theorem tokenBoundary_of_literal (lineInfo : string -> Z -> Z * Z)
    (rules : list Rule) (fuel k : nat) (id : nat) (lit pre rest : string)
    (v : Values) (c : context) (d : Any) (h : heap) :
  len (pre +:+ rest) <= int_max ->
  c_wordOpe c = None ->
  h_isWord h !! id <> Some true ->
  String.prefix lit rest = true ->
  let s := pre +:+ rest in
  let v1 := append_Ts (mkToken (len pre) lit) v in
  let c1 := set_inToken false c in
  exists h1 : heap,
    parseCore lineInfo rules fuel (parse lineInfo rules (S k))
      (tokenBoundary (literalString id lit)) s (len pre) v c d h
    = match c_whitespaceOpe c with
      | None => Ret (mkResult (len lit) None v1 c1 h1)
      | Some ws =>
          rw ← parse lineInfo rules (S k) ws s (len pre + len lit) v1 c1 d h1;
          Ret match res_err rw with
              | Some e => mkResult 0 (Some e) (res_v rw) (res_c rw) (res_h rw)
              | None =>
                  mkResult (int_add (len lit) (res_l rw)) None
                    (res_v rw) (res_c rw) (res_h rw)
              end
      end.
Proof.
  intros Hmax Hword Hmemo Hpre s v1 c1. subst s.
  pose proof (prefix_length _ _ Hpre) as Hlen.
  pose proof (len_nonneg pre). pose proof (len_nonneg lit).
  assert (Hle : len pre + len lit <= len (pre +:+ rest))
    by (rewrite len_append; unfold len; lia).
  cbn [parseCore]. unfold tokenBoundary_parseCore.
  rewrite parse_S.
  rewrite (literalString_plain lineInfo rules k (parse lineInfo rules k) id
             lit pre rest v (set_inToken true c) d)
    by (assumption || (left; reflexivity)
        || (unfold traceEnter; destruct (c_tracerEnter _); exact Hmemo)).
  rewrite Hpre. cbn [mbind outcome_bind].
  match goal with
  | |- context [traceLeave ?o ?s ?p ?d ?r] =>
      destruct (traceLeave_fields o s p d r) as (Hl & He & Hv & Hc);
      set (rl := traceLeave o s p d r) in *
  end.
  cbn [res_l res_err res_v res_c] in Hl, He, Hv, Hc.
  rewrite He, Hl, Hv, Hc.
  rewrite int_add_id by (unfold in_int, int_min, int_max in *; lia).
  rewrite (slice_prefix lit pre rest Hpre).
  cbn [mbind outcome_bind].
  change (set_inToken false (set_inToken true c)) with c1.
  change (c_whitespaceOpe c1) with (c_whitespaceOpe c).
  exists (res_h rl). fold v1.
  destruct (c_whitespaceOpe c) as [ws|]; [|reflexivity].
  destruct (parse lineInfo rules (S k) ws (pre +:+ rest) (len pre + len lit)
              v1 c1 d (res_h rl))
    as [rw| |]; cbn [mbind outcome_bind]; try reflexivity.
  destruct (res_err rw); reflexivity.
Qed.

(** ** Instances of the further properties *)

(** [Seq(Lit("a"), Lit("b"))] on ["ac"] fails at position 1. *)
Lemma parse_errorPos_monotone_witness :
  exists r : result,
    parse lineInfo_lf [] 4 (Seq [Lit 1 "a"; Lit 2 "b"]) "ac" 0 Values_zero
      (context_new "ac") AnyNil heap_empty = Ret r
    /\ c_errorPos (res_c r) = 1
    /\ c_errorPos (context_new "ac") <= c_errorPos (res_c r).
Proof.
  eassert (Hrun : parse lineInfo_lf [] 4 (Seq [Lit 1 "a"; Lit 2 "b"]) "ac" 0
                    Values_zero (context_new "ac") AnyNil heap_empty = Ret _)
    by (vm_compute; reflexivity).
  eexists. split; [exact Hrun|]. split; [reflexivity|].
  exact (parse_errorPos_monotone lineInfo_lf [] 4 _ _ _ _ _ _ _ _ Hrun).
Defined.

(** The macro call [M("a")] on ["a"] pushes and pops one argument list. *)
Lemma parse_argsStack_preserved_witness :
  exists r : result,
    parse lineInfo_lf macro_rules 6 macro_call "a" 0 Values_zero
      (context_new "a") AnyNil heap_empty = Ret r
    /\ res_l r = 1 /\ res_err r = None
    /\ c_argsStack (res_c r) = c_argsStack (context_new "a").
Proof.
  eassert (Hrun : parse lineInfo_lf macro_rules 6 macro_call "a" 0 Values_zero
                    (context_new "a") AnyNil heap_empty = Ret _)
    by (vm_compute; reflexivity).
  eexists. split; [exact Hrun|]. split; [reflexivity|]. split; [reflexivity|].
  exact (parse_argsStack_preserved lineInfo_lf macro_rules 6 _ _ _ _ _ _ _ _ Hrun).
Defined.

(** [Seq(Tok(Lit("a")), Lit("b"))] on ["ab"], entered out of a token. *)
Lemma parse_flags_witness :
  exists r : result,
    parse lineInfo_lf [] 5 (Seq [Tok (Lit 1 "a"); Lit 2 "b"]) "ab" 0
      Values_zero (context_new "ab") AnyNil heap_empty = Ret r
    /\ c_inToken (res_c r) = false
    /\ c_inWhitespace (res_c r) = c_inWhitespace (context_new "ab").
Proof.
  eassert (Hrun : parse lineInfo_lf [] 5 (Seq [Tok (Lit 1 "a"); Lit 2 "b"])
                    "ab" 0 Values_zero (context_new "ab") AnyNil heap_empty
                  = Ret _) by (vm_compute; reflexivity).
  eexists. split; [exact Hrun|].
  destruct (parse_flags lineInfo_lf [] 5 _ _ _ _ _ _ _ _ Hrun) as [Htok Hws].
  split; [exact (Htok eq_refl)|exact Hws].
Defined.

(** [Zom(Lit("abc"))] on ["abca"] consumes 3 of the 4 bytes. *)
Lemma parse_user_free_bounds_witness :
  exists r : result,
    parse lineInfo_lf [] 5 (Zom (Lit 1 "abc")) "abca" 0 Values_zero
      (context_new "abca") AnyNil heap_empty = Ret r
    /\ res_l r = 3
    /\ match res_err r with
       | None => 0 <= res_l r <= len "abca" - 0
       | Some _ => res_l r = 0
       end.
Proof.
  eassert (Hrun : parse lineInfo_lf [] 5 (Zom (Lit 1 "abc")) "abca" 0
                    Values_zero (context_new "abca") AnyNil heap_empty = Ret _)
    by (vm_compute; reflexivity).
  eexists. split; [exact Hrun|]. split; [reflexivity|].
  apply (parse_user_free_bounds lineInfo_lf [] 5 (Zom (Lit 1 "abc")) "abca" 0
           Values_zero (context_new "abca") AnyNil heap_empty _).
  - apply Forall_nil. exact Logic.I.
  - reflexivity.
  - repeat split.
  - unfold len, int_max. simpl. lia.
  - unfold len. simpl. lia.
  - exact Hrun.
Defined.

(** [Lit("ab")] at position 1 of ["xabc"]. *)
Lemma literalString_plain_spec_witness :
  parseCore lineInfo_lf [] 0 (parse lineInfo_lf [] 0) (literalString 1 "ab")
    ("x" +:+ "abc") (len "x") Values_zero (context_new "xabc") AnyNil heap_empty
  = Ret (mkResult (len "ab") None Values_zero (context_new "xabc")
           (set_isWord 1 false heap_empty)).
Proof.
  apply (literalString_plain_spec lineInfo_lf [] 0 (parse lineInfo_lf [] 0) 1
           "ab" "x" "abc" Values_zero (context_new "xabc") AnyNil heap_empty).
  - unfold len, int_max. simpl. lia.
  - reflexivity.
  - vm_compute. discriminate.
  - right. reflexivity.
Defined.

(** [Dot()] on ["a"] at position 0. *)
Lemma anyCharacter_spec_witness :
  parseCore lineInfo_lf [] 0 (parse lineInfo_lf [] 0) anyCharacter "a" 0
    Values_zero (context_new "a") AnyNil heap_empty
  = Ret (mkResult 1 None Values_zero (context_new "a") heap_empty).
Proof.
  apply (anyCharacter_spec lineInfo_lf [] 0 (parse lineInfo_lf [] 0) "a" 0
           Values_zero (context_new "a") AnyNil heap_empty).
  - unfold len. simpl. lia.
  - unfold len, int_max. simpl. lia.
Defined.

(** [Opt(Seq(Tok(Lit("a")), Lit("b")))] on ["ac"]: the token and the error
    position of the failed child are gone. *)
Lemma option_tolerated_failure_witness :
  exists r : result,
    parse lineInfo_lf [] 6 (option_ (Seq [Tok (Lit 1 "a"); Lit 2 "b"])) "ac" 0
      Values_zero (context_new "ac") AnyNil heap_empty = Ret r
    /\ res_l r = 0 /\ res_err r = None
    /\ v_Ts (res_v r) = []
    /\ res_c r = context_new "ac".
Proof.
  eassert (Hrk : parse lineInfo_lf [] 5 (Seq [Tok (Lit 1 "a"); Lit 2 "b"]) "ac"
                   0 Values_zero (context_new "ac") AnyNil
                   (traceEnter (option_ (Seq [Tok (Lit 1 "a"); Lit 2 "b"]))
                      "ac" 0 Values_zero (context_new "ac") AnyNil heap_empty)
                 = Ret _) by (vm_compute; reflexivity).
  destruct (option_tolerated_failure lineInfo_lf [] 5 _ _ _ _ _ _ _ _ _ Hrk
              eq_refl) as (r & Hrun & Hl & He & _ & Hts & _ & Hc).
  exists r. split; [exact Hrun|]. split; [exact Hl|]. split; [exact He|].
  split; [exact Hts|exact (Hc eq_refl)].
Defined.

(** [Npd(Lit("a"))] on ["b"] succeeds and leaves the context as it was. *)
Lemma notPredicate_inverts_witness :
  exists r : result,
    parse lineInfo_lf [] 4 (notPredicate (Lit 1 "a")) "b" 0 Values_zero
      (context_new "b") AnyNil heap_empty = Ret r
    /\ res_err r = None /\ res_c r = context_new "b".
Proof.
  eassert (Hrk : parse lineInfo_lf [] 3 (Lit 1 "a") "b" 0
                   (push (context_new "b")).1 (push (context_new "b")).2 AnyNil
                   (traceEnter (notPredicate (Lit 1 "a")) "b" 0 Values_zero
                      (context_new "b") AnyNil heap_empty)
                 = Ret _) by (vm_compute; reflexivity).
  destruct (notPredicate_inverts lineInfo_lf [] 3 _ _ _ Values_zero _ _ _ _ Hrk)
    as (r & Hrun & He & _ & Hc).
  exists r. split; [exact Hrun|]. split; [exact He|exact (Hc eq_refl)].
Defined.

(** A whitespace operator re-entered while whitespace is being skipped. *)
Lemma whitespace_reentry_witness :
  exists r : result,
    parse lineInfo_lf [] 1 (whitespace (Zom (Cls " "))) "  " 0 Values_zero
      (set_inWhitespace true (context_new "  ")) AnyNil heap_empty = Ret r
    /\ res_l r = 0 /\ res_err r = None.
Proof.
  destruct (proj1 (whitespace_reentry lineInfo_lf [] 0 (Zom (Cls " ")) "  " 0 0
                     Values_zero (set_inWhitespace true (context_new "  "))
                     AnyNil heap_empty eq_refl))
    as (r & Hrun & Hl & He & _).
  exists r. split; [exact Hrun|]. split; [exact Hl|exact He].
Defined.

(** [Oom(Lit("a"))] on ["aab"] is [Lit("a")] and then [Zom(Lit("a"))]. *)
Lemma oneOrMore_unfold_witness :
  exists r0 : result,
    parse lineInfo_lf [] 3 (Lit 1 "a") "aab" 0 Values_zero (context_new "aab")
      AnyNil heap_empty = Ret r0
    /\ res_l r0 = 1
    /\ parseCore lineInfo_lf [] 3 (parse lineInfo_lf [] 3) (oneOrMore (Lit 1 "a"))
         "aab" 0 Values_zero (context_new "aab") AnyNil heap_empty
       = (r1 ← parseCore lineInfo_lf [] 3 (parse lineInfo_lf [] 3)
                 (zeroOrMore (Lit 1 "a")) "aab" (int_add 0 (res_l r0))
                 (res_v r0) (res_c r0) AnyNil (res_h r0);
          Ret (add_l (res_l r0) r1)).
Proof.
  eassert (Hr0 : parse lineInfo_lf [] 3 (Lit 1 "a") "aab" 0 Values_zero
                   (context_new "aab") AnyNil heap_empty = Ret _)
    by (vm_compute; reflexivity).
  eexists. split; [exact Hr0|]. split; [reflexivity|].
  apply (proj2 (oneOrMore_unfold lineInfo_lf [] 3 (parse lineInfo_lf [] 3)
                  (Lit 1 "a") "aab" 0 Values_zero (context_new "aab") AnyNil
                  heap_empty _ Hr0)).
  - reflexivity.
  - unfold in_int, int_min, int_max. cbn. lia.
Defined.

(** [Tok(Lit("ab"))] at position 1 of ["xab c"] captures [{1, "ab"}]. *)
Lemma tokenBoundary_of_literal_witness :
  exists h1 : heap,
    parseCore lineInfo_lf [] 0 (parse lineInfo_lf [] 1)
      (tokenBoundary (literalString 1 "ab")) ("x" +:+ "ab c") (len "x")
      Values_zero (context_new "xab c") AnyNil heap_empty
    = Ret (mkResult (len "ab") None (append_Ts (mkToken (len "x") "ab") Values_zero)
             (set_inToken false (context_new "xab c")) h1).
Proof.
  apply (tokenBoundary_of_literal lineInfo_lf [] 0 0 1 "ab" "x" "ab c"
           Values_zero (context_new "xab c") AnyNil heap_empty).
  - unfold len, int_max. simpl. lia.
  - reflexivity.
  - vm_compute. discriminate.
  - reflexivity.
Defined.

(** ** The word flag of a literal is set at most once *)

Lemma memo_le_refl (h : heap) : memo_le h h.
Proof. intros id b Hb. exact Hb. Qed.

Lemma memo_le_trans (h1 h2 h3 : heap) :
  memo_le h1 h2 -> memo_le h2 h3 -> memo_le h1 h3.
Proof. intros H12 H23 id b Hb. apply H23, H12, Hb. Qed.

Lemma memo_le_emit (h : heap) (line : string) : memo_le h (emit line h).
Proof. intros id b Hb. exact Hb. Qed.

Lemma memo_le_set_fresh (h h' : heap) (id : nat) (b : bool) :
  h_isWord h !! id = None -> memo_le h h' -> memo_le h (set_isWord id b h').
Proof.
  intros Hnone Hle k bk Hk. unfold set_isWord. cbn [h_isWord].
  destruct (decide (id = k)) as [->|Hne]; [congruence|].
  rewrite lookup_insert_ne by exact Hne. apply Hle, Hk.
Qed.

Lemma memo_le_traceEnter (o : operator) (s : string) (p : Z) (v : Values)
    (c : context) (d : Any) (h : heap) :
  memo_le h (traceEnter o s p v c d h).
Proof.
  unfold traceEnter. destruct (c_tracerEnter c);
    [apply memo_le_emit|apply memo_le_refl].
Qed.

Lemma memo_le_traceLeave (o : operator) (s : string) (p : Z) (d : Any)
    (r : result) :
  memo_le (res_h r) (res_h (traceLeave o s p d r)).
Proof.
  unfold traceLeave. destruct (c_tracerLeave (res_c r));
    [apply memo_le_emit|apply memo_le_refl].
Qed.

Section MemoChildren.

Variable rec : parser.
Hypothesis Hmemo : memo_parser rec.

Lemma sequence_loop_memo (opes : list operator) (s : string) (p : Z)
    (d : Any) :
  forall (l : Z) (v : Values) (c : context) (h : heap) (r : result),
    sequence_loop rec opes s p l v c d h = Ret r -> memo_le h (res_h r).
Proof.
  induction opes as [|ope rest IH]; intros l v c h r Hrun.
  - injection Hrun as <-. apply memo_le_refl.
  - cbn [sequence_loop] in Hrun. bind_inv Hrun. apply Hmemo in Hx.
    destruct (res_err x).
    + injection Hrun as <-. exact Hx.
    + eapply memo_le_trans; [exact Hx|]. eapply IH. exact Hrun.
Qed.

Lemma prioritizedChoice_loop_memo (opes : list operator) (s : string)
    (p : Z) (v : Values) (d : Any) :
  forall (c : context) (h : heap) (errs : list error) (id : Z) (r : result),
    prioritizedChoice_loop rec opes s p v c d h errs id = Ret r ->
    memo_le h (res_h r).
Proof.
  induction opes as [|ope rest IH]; intros c h errs id r Hrun.
  - injection Hrun as <-. apply memo_le_refl.
  - rewrite prioritizedChoice_loop_cons in Hrun. bind_inv Hrun.
    apply Hmemo in Hx. destruct (res_err x).
    + eapply memo_le_trans; [exact Hx|]. eapply IH. exact Hrun.
    + injection Hrun as <-. exact Hx.
Qed.

Lemma repetition_loop_memo (ope : operator) (s : string) (p : Z) (d : Any)
    (save : Z) (k : nat) :
  forall (l : Z) (v : Values) (c : context) (h : heap) (r : result),
    repetition_loop k rec ope s p save l v c d h = Ret r ->
    memo_le h (res_h r).
Proof.
  induction k as [|k IH]; intros l v c h r Hrun;
    cbn [repetition_loop] in Hrun;
    destruct (int_add p l <? len s); try discriminate;
    try (injection Hrun as <-; apply memo_le_refl).
  bind_inv Hrun. apply Hmemo in Hx. destruct (res_err x).
  - injection Hrun as <-. exact Hx.
  - eapply memo_le_trans; [exact Hx|]. eapply IH. exact Hrun.
Qed.

Lemma literalString_initIsWord_memo (id : nat) (lit s : string) (c : context)
    (h h1 : heap) :
  literalString_initIsWord rec id lit s c h = Ret h1 -> memo_le h h1.
Proof.
  unfold literalString_initIsWord. intros Hrun.
  destruct (h_isWord h !! id) eqn:Hid.
  - injection Hrun as <-. apply memo_le_refl.
  - destruct (c_wordOpe c).
    + bind_inv Hrun. apply Hmemo in Hx. injection Hrun as <-.
      now apply memo_le_set_fresh.
    + injection Hrun as <-. apply memo_le_set_fresh;
        [exact Hid|apply memo_le_refl].
Qed.

Lemma literalString_skip_memo (s : string) (p l : Z) (v : Values)
    (c : context) (d : Any) (h : heap) (r : result) :
  literalString_skip rec s p l v c d h = Ret r -> memo_le h (res_h r).
Proof.
  unfold literalString_skip. intros Hrun.
  destruct (negb (c_inToken c)), (c_whitespaceOpe c);
    try (injection Hrun as <-; apply memo_le_refl).
  bind_inv Hrun. apply Hmemo in Hx.
  destruct (res_err x); injection Hrun as <-; exact Hx.
Qed.

Lemma Rule_parse_memo (rl : Rule) (s : string) (p : Z) (v : Values)
    (c : context) (d : Any) (h : heap) (r : result) :
  Rule_parse rec rl s p v c d h = Ret r -> memo_le h (res_h r).
Proof.
  rewrite Rule_parse_eq. intros Hrun. bind_inv Hrun. apply Hmemo in Hx.
  destruct (res_err x); injection Hrun as <-; exact Hx.
Qed.

Lemma parseCore_memo (lineInfo : string -> Z -> Z * Z) (rules : list Rule)
    (fuel : nat) (o : operator) (s : string) (p : Z) (v : Values)
    (c : context) (d : Any) (h : heap) (r : result) :
  parseCore lineInfo rules fuel rec o s p v c d h = Ret r ->
  memo_le h (res_h r).
Proof.
  destruct o; cbn [parseCore]; intros Hrun.
  - eapply sequence_loop_memo; exact Hrun.
  - eapply prioritizedChoice_loop_memo; exact Hrun.
  - eapply repetition_loop_memo; exact Hrun.
  - unfold oneOrMore_parseCore in Hrun. bind_inv Hrun.
    pose proof (Hmemo _ _ _ _ _ _ _ _ Hx) as Hle.
    destruct (res_err x); [injection Hrun as <-; exact Hle|].
    eapply memo_le_trans; [exact Hle|].
    eapply repetition_loop_memo; exact Hrun.
  - unfold option_parseCore in Hrun. bind_inv Hrun. apply Hmemo in Hx.
    destruct (res_err x); injection Hrun as <-; exact Hx.
  - rewrite andPredicate_parseCore_eq in Hrun. bind_inv Hrun.
    apply Hmemo in Hx. injection Hrun as <-. exact Hx.
  - rewrite notPredicate_parseCore_eq in Hrun. bind_inv Hrun.
    apply Hmemo in Hx. destruct (res_err x); injection Hrun as <-; exact Hx.
  - unfold literalString_parseCore in Hrun. bind_inv Hrun.
    destruct x; [|injection Hrun as <-; apply memo_le_refl].
    apply bind_Ret_inv in Hrun as (h1 & Hinit & Hrun).
    apply literalString_initIsWord_memo in Hinit.
    eapply memo_le_trans; [exact Hinit|].
    destruct (isWord lit_id h1).
    + apply bind_Ret_inv in Hrun as (rb & Hrb & Hrun).
      unfold literalString_boundary in Hrb.
      destruct (c_wordOpe c); [|discriminate]. apply Hmemo in Hrb.
      eapply memo_le_trans; [exact Hrb|].
      destruct (res_err rb).
      * injection Hrun as <-. apply memo_le_refl.
      * eapply literalString_skip_memo; exact Hrun.
    + eapply literalString_skip_memo; exact Hrun.
  - unfold characterClass_parseCore in Hrun.
    destruct (int_sub (len s) p <? 1).
    + injection Hrun as <-. apply memo_le_refl.
    + bind_inv Hrun. destruct x0; injection Hrun as <-; apply memo_le_refl.
  - unfold anyCharacter_parseCore in Hrun.
    destruct (int_sub (len s) p <? 1); injection Hrun as <-;
      apply memo_le_refl.
  - unfold tokenBoundary_parseCore in Hrun.
    apply bind_Ret_inv in Hrun as (x & Hx & Hrun). apply Hmemo in Hx.
    destruct (res_err x); [injection Hrun as <-; exact Hx|].
    apply bind_Ret_inv in Hrun as (tok & Htok & Hrun).
    cbn [c_whitespaceOpe set_inToken] in Hrun.
    destruct (c_whitespaceOpe (res_c x)).
    + apply bind_Ret_inv in Hrun as (xw & Hxw & Hrun). apply Hmemo in Hxw.
      pose proof (memo_le_trans _ _ _ Hx Hxw).
      destruct (res_err xw); injection Hrun as <-; assumption.
    + injection Hrun as <-. exact Hx.
  - rewrite ignore_parseCore_eq in Hrun. bind_inv Hrun.
    apply Hmemo in Hx. injection Hrun as <-. exact Hx.
  - unfold user_parseCore in Hrun. destruct (fn s p v d) as [[l e] v1].
    injection Hrun as <-. apply memo_le_refl.
  - unfold reference_parseCore in Hrun. destruct rule as [rid|].
    + destruct (rules !! rid) as [rl|]; [|discriminate].
      destruct (rule_Parameters rl) as [params|].
      * bind_inv Hrun. apply Rule_parse_memo in Hx. injection Hrun as <-.
        exact Hx.
      * eapply Rule_parse_memo; exact Hrun.
    + destruct (nth_arg (topArg c) iarg); [|discriminate].
      eapply Hmemo; exact Hrun.
  - unfold whitespace_parseCore in Hrun.
    destruct (c_inWhitespace c).
    + injection Hrun as <-. apply memo_le_refl.
    + bind_inv Hrun. apply Hmemo in Hx. injection Hrun as <-. exact Hx.
Qed.

End MemoChildren.

Lemma parse_memo (lineInfo : string -> Z -> Z * Z) (rules : list Rule)
    (fuel : nat) : memo_parser (parse lineInfo rules fuel).
Proof.
  induction fuel as [|k IH]; intros o s p v c d h r Hrun; [discriminate|].
  rewrite parse_S in Hrun. bind_inv Hrun. injection Hrun as <-.
  apply (parseCore_memo _ IH) in Hx.
  eapply memo_le_trans; [apply memo_le_traceEnter|].
  eapply memo_le_trans; [exact Hx|apply memo_le_traceLeave].
Qed.

(** X19. The word flag of a literal node is set at most once: a node that
    is classified, as a word or not, before an evaluation is classified
    the same way after it, whatever word operator the contexts of that
    evaluation carry. *)
Theorem parse_isWord_once (lineInfo : string -> Z -> Z * Z)
    (rules : list Rule) (fuel : nat) (o : operator) (s : string) (p : Z)
    (v : Values) (c : context) (d : Any) (h : heap) (r : result)
    (id : nat) (b : bool) :
  parse lineInfo rules fuel o s p v c d h = Ret r ->
  h_isWord h !! id = Some b ->
  h_isWord (res_h r) !! id = Some b.
Proof. intros Hrun. apply (parse_memo lineInfo rules fuel _ _ _ _ _ _ _ _ Hrun). Qed.

(** The literal ["if"], classified as not a word, is evaluated in a
    context whose word operator would classify it as a word. *)
Lemma parse_isWord_once_witness :
  exists r : result,
    parse lineInfo_lf [] 5 (Lit 1 "if") "ifx" 0 Values_zero
      (word_context "ifx") AnyNil (set_isWord 1 false heap_empty) = Ret r
    /\ res_l r = 2 /\ res_err r = None
    /\ h_isWord (res_h r) !! 1%nat = Some false.
Proof.
  eassert (Hrun : parse lineInfo_lf [] 5 (Lit 1 "if") "ifx" 0 Values_zero
                    (word_context "ifx") AnyNil (set_isWord 1 false heap_empty)
                  = Ret _) by (vm_compute; reflexivity).
  eexists. split; [exact Hrun|]. split; [reflexivity|]. split; [reflexivity|].
  apply (parse_isWord_once lineInfo_lf [] 5 _ _ _ _ _ _ _ _ 1%nat false Hrun).
  vm_compute. reflexivity.
Defined.

(** * Termination of the repetitions *)

Lemma string_split (s : string) :
  forall q : Z,
    0 <= q <= len s ->
    exists pre rest : string, s = pre +:+ rest /\ len pre = q.
Proof.
  induction s as [|a s IH]; intros q Hq.
  - exists "", "". split; [reflexivity|]. unfold len in *. simpl in *. lia.
  - destruct (Z.eq_dec q 0) as [->|Hne].
    + exists "", (String a s). split; reflexivity.
    + rewrite len_String in Hq.
      destruct (IH (q - 1)) as (pre & rest & -> & Hlen); [lia|].
      exists (String a pre), rest. split; [reflexivity|].
      rewrite len_String. lia.
Qed.

Lemma traceEnter_isWord (o : operator) (s : string) (p : Z) (v : Values)
    (c : context) (d : Any) (h : heap) :
  h_isWord (traceEnter o s p v c d h) = h_isWord h.
Proof. unfold traceEnter. destruct (c_tracerEnter c); reflexivity. Qed.

Lemma traceLeave_isWord (o : operator) (s : string) (p : Z) (d : Any)
    (r : result) :
  h_isWord (res_h (traceLeave o s p d r)) = h_isWord (res_h r).
Proof. unfold traceLeave. destruct (c_tracerLeave (res_c r)); reflexivity. Qed.

(** In such a state the evaluation of a literal ends with any fuel but
    none; a success has the length of the literal, which lies within the
    input, and leaves such a state. *)
Lemma parse_literal_state (lineInfo : string -> Z -> Z * Z)
    (rules : list Rule) (k id : nat) (lit s : string) (q : Z) (v : Values)
    (c : context) (d : Any) (h : heap) :
  len s <= int_max ->
  0 <= q <= len s ->
  literal_state id c h ->
  exists r : result,
    parse lineInfo rules (S k) (literalString id lit) s q v c d h = Ret r
    /\ (res_err r = None ->
        res_l r = len lit
        /\ len lit <= len s - q
        /\ literal_state id (res_c r) (res_h r)).
Proof.
  intros Hmax Hq (Hword & Hmemo & Hskip).
  destruct (string_split s q Hq) as (pre & rest & -> & <-).
  rewrite parse_S.
  rewrite (literalString_plain lineInfo rules k (parse lineInfo rules k) id
             lit pre rest v c d _ Hmax Hword)
    by (rewrite ?traceEnter_isWord; assumption).
  destruct (String.prefix lit rest) eqn:Hpre; cbn [mbind outcome_bind];
    (eexists; split; [reflexivity|]); unfold literal_state;
    match goal with
    | |- context [traceLeave ?o ?s ?p ?d ?r] =>
        destruct (traceLeave_fields o s p d r) as (-> & -> & _ & ->);
        rewrite (traceLeave_isWord o s p d r)
    end; cbn [res_l res_err res_c res_h]; [|discriminate].
  intros _. split; [reflexivity|]. split.
  - apply prefix_length in Hpre. rewrite len_append. unfold len. lia.
  - split; [exact Hword|]. split; [|exact Hskip].
    rewrite traceEnter_isWord.
    destruct (h_isWord h !! id) as [b|] eqn:Hm.
    + rewrite traceEnter_isWord, Hm. exact Hmemo.
    + unfold set_isWord. cbn [h_isWord]. rewrite lookup_insert_eq. discriminate.
Qed.

(** The repetitions end, with fuel for one iteration per byte left, when
    on the states they reach the child ends and each of its successes
    stays within the input, consumes a byte before the end of the input
    and leaves such a state. *)
Lemma repetition_terminates (lineInfo : string -> Z -> Z * Z)
    (rules : list Rule) (rec : parser) (ope : operator) (s : string) (p : Z)
    (d : Any) (I : Values -> context -> heap -> Prop) :
  len s <= int_max ->
  0 <= p <= len s ->
  (forall q v c h,
      p <= q <= len s -> I v c h -> rec ope s q v c d h <> OutOfFuel) ->
  (forall q v c h r,
      p <= q <= len s -> I v c h ->
      rec ope s q v c d h = Ret r -> res_err r = None ->
      0 <= res_l r <= len s - q
      /\ (q < len s -> 1 <= res_l r)
      /\ I (res_v r) (res_c r) (res_h r)) ->
  forall (k : nat) (v : Values) (c : context) (h : heap),
    I v c h ->
    (Z.to_nat (len s - p) <= k)%nat ->
    parseCore lineInfo rules k rec (zeroOrMore ope) s p v c d h <> OutOfFuel
    /\ parseCore lineInfo rules k rec (oneOrMore ope) s p v c d h <> OutOfFuel.
Proof.
  intros Hmax Hp Htotal Hstep k v c h HI Hk.
  assert (Htotal' : forall q v c h,
             p <= q < len s -> I v c h -> rec ope s q v c d h <> OutOfFuel).
  { intros q v' c' h' Hq. apply Htotal. lia. }
  assert (Hstep' : forall q v c h r,
             p <= q < len s -> I v c h ->
             rec ope s q v c d h = Ret r -> res_err r = None ->
             1 <= res_l r <= len s - q /\ I (res_v r) (res_c r) (res_h r)).
  { intros q v' c' h' r Hq HI' Hr He.
    destruct (Hstep q v' c' h' r ltac:(lia) HI' Hr He) as (Hb & Hone & HI'').
    split; [|exact HI'']. split; [apply Hone|]; lia. }
  cbn [parseCore]. split.
  - unfold zeroOrMore_parseCore.
    apply (repetition_loop_terminates rec ope s p d _ I); try assumption; lia.
  - unfold oneOrMore_parseCore.
    assert (Hpp : p <= p <= len s) by lia.
    destruct (rec ope s p v c d h) as [r| |] eqn:Hr;
      cbn [mbind outcome_bind];
      [|discriminate|now apply (Htotal _ _ _ _ Hpp HI) in Hr].
    destruct (res_err r) eqn:He; [discriminate|].
    destruct (Hstep _ _ _ _ _ Hpp HI Hr He) as (Hb & _ & HI').
    apply (repetition_loop_terminates rec ope s p d _ I); try assumption; lia.
Qed.

(** C9 (amended). The repetition loops have no guard against an
    iteration that makes no progress.  They end, with fuel for one
    iteration per byte left, whenever on the states the loop reaches the
    child ends and each of its successes consumes bytes of the input, at
    least one before the end of the input; so the repetitions of a literal
    that is not empty end on every input, in every state where the literal
    has no word check to make and no whitespace to skip.  They do not end
    when, before the end of the input, the child succeeds without
    consuming input and goes on doing so from the state it leaves, as
    [Opt] of an operator that fails there or a predicate does. *)
Theorem repetition_termination_spec :
  (forall (lineInfo : string -> Z -> Z * Z) (rules : list Rule)
          (rec : parser) (ope : operator) (s : string) (p : Z) (d : Any)
          (I : Values -> context -> heap -> Prop),
      len s <= int_max ->
      0 <= p <= len s ->
      (forall q v c h,
          p <= q <= len s -> I v c h -> rec ope s q v c d h <> OutOfFuel) ->
      (forall q v c h r,
          p <= q <= len s -> I v c h ->
          rec ope s q v c d h = Ret r -> res_err r = None ->
          0 <= res_l r <= len s - q
          /\ (q < len s -> 1 <= res_l r)
          /\ I (res_v r) (res_c r) (res_h r)) ->
      forall (k : nat) (v : Values) (c : context) (h : heap),
        I v c h ->
        (Z.to_nat (len s - p) <= k)%nat ->
        parseCore lineInfo rules k rec (zeroOrMore ope) s p v c d h <> OutOfFuel
        /\ parseCore lineInfo rules k rec (oneOrMore ope) s p v c d h <> OutOfFuel)
  /\ (forall (lineInfo : string -> Z -> Z * Z) (rules : list Rule)
             (id : nat) (lit s : string) (p : Z) (v : Values) (c : context)
             (d : Any) (h : heap) (k : nat),
         1 <= len lit ->
         len s <= int_max ->
         0 <= p <= len s ->
         c_wordOpe c = None ->
         h_isWord h !! id <> Some true ->
         c_inToken c = true \/ c_whitespaceOpe c = None ->
         (Z.to_nat (len s - p) + 2 <= k)%nat ->
         parse lineInfo rules k (Zom (Lit id lit)) s p v c d h <> OutOfFuel
         /\ parse lineInfo rules k (Oom (Lit id lit)) s p v c d h <> OutOfFuel)
  /\ (forall (lineInfo : string -> Z -> Z * Z) (rules : list Rule)
             (rec : parser) (ope : operator) (s : string) (p : Z) (d : Any)
             (I : Values -> context -> heap -> Prop),
         in_int p ->
         p < len s ->
         (forall v c h,
             I v c h ->
             exists r, rec ope s p v c d h = Ret r
                       /\ res_err r = None /\ res_l r = 0
                       /\ I (res_v r) (res_c r) (res_h r)) ->
         forall (k : nat) (v : Values) (c : context) (h : heap),
           I v c h ->
           parseCore lineInfo rules k rec (zeroOrMore ope) s p v c d h = OutOfFuel
           /\ parseCore lineInfo rules k rec (oneOrMore ope) s p v c d h = OutOfFuel)
  /\ (forall fuel : nat, run fuel (Zom (Opt (Lit 1 "x"))) "a" = OutOfFuel)
  /\ (forall fuel : nat, run fuel (Zom (Npd (Lit 1 "x"))) "a" = OutOfFuel)
  /\ (forall fuel : nat, run fuel (Oom (Opt (Lit 1 "x"))) "a" = OutOfFuel).
Proof.
  split; [|split; [|split; [|split; [|split]]]].
  - exact repetition_terminates.
  - intros lineInfo rules id lit s p v c d h k Hlit Hmax Hp Hword Hmemo Hskip Hk.
    destruct k as [|[|k]]; [lia..|].
    assert (Hchild : forall q v c h,
               p <= q <= len s -> literal_state id c h ->
               exists r : result,
                 parse lineInfo rules (S k) (literalString id lit) s q v c d h
                 = Ret r
                 /\ (res_err r = None ->
                     res_l r = len lit
                     /\ len lit <= len s - q
                     /\ literal_state id (res_c r) (res_h r))).
    { intros q v' c' h' Hq HI.
      apply parse_literal_state; [exact Hmax|lia|exact HI]. }
    pose proof (repetition_terminates lineInfo rules
                  (parse lineInfo rules (S k)) (literalString id lit) s p d
                  (fun _ c h => literal_state id c h) Hmax Hp) as Hrep.
    assert (Hends : forall (v : Values) (c : context) (h : heap),
               literal_state id c h ->
               parseCore lineInfo rules (S k) (parse lineInfo rules (S k))
                 (zeroOrMore (literalString id lit)) s p v c d h <> OutOfFuel
               /\ parseCore lineInfo rules (S k) (parse lineInfo rules (S k))
                    (oneOrMore (literalString id lit)) s p v c d h
                  <> OutOfFuel).
    { intros v' c' h' HI. apply Hrep; [| |exact HI|lia].
      - intros q v1 c1 h1 Hq HI1.
        destruct (Hchild q v1 c1 h1 Hq HI1) as (r & -> & _). discriminate.
      - intros q v1 c1 h1 r Hq HI1 Hr He.
        destruct (Hchild q v1 c1 h1 Hq HI1) as (r' & Hr' & Hok).
        rewrite Hr in Hr'. injection Hr' as <-.
        destruct (Hok He) as (-> & Hle & HI'). split; [lia|].
        split; [lia|exact HI']. }
    assert (HI0 : forall o : operator,
               literal_state id c (traceEnter o s p v c d h)).
    { intros o. split; [exact Hword|]. split; [|exact Hskip].
      now rewrite traceEnter_isWord. }
    unfold Zom, Oom, Lit. rewrite !parse_S. split.
    + destruct (Hends v c (traceEnter (zeroOrMore (literalString id lit)) s p
                             v c d h) (HI0 _)) as [Hz _].
      destruct (parseCore lineInfo rules (S k) (parse lineInfo rules (S k))
                  (zeroOrMore (literalString id lit)) s p v c d _);
        [discriminate|discriminate|contradiction].
    + destruct (Hends v c (traceEnter (oneOrMore (literalString id lit)) s p
                             v c d h) (HI0 _)) as [_ Ho].
      destruct (parseCore lineInfo rules (S k) (parse lineInfo rules (S k))
                  (oneOrMore (literalString id lit)) s p v c d _);
        [discriminate|discriminate|contradiction].
  - intros lineInfo rules rec ope s p d I Hp Hlt Hstep k v c h HI.
    assert (Hp0 : int_add p 0 = p) by (rewrite int_add_id; [lia|now rewrite Z.add_0_r]).
    assert (H00 : int_add 0 0 = 0) by reflexivity.
    cbn [parseCore]. split.
    + unfold zeroOrMore_parseCore.
      apply (repetition_loop_diverges rec ope s p d _ 0 I); try assumption.
      * now rewrite Hp0.
      * now rewrite Hp0.
    + unfold oneOrMore_parseCore.
      destruct (Hstep _ _ _ HI) as (r & Hr & He & Hz & HI').
      rewrite Hr. cbn [mbind outcome_bind]. rewrite He, Hz.
      apply (repetition_loop_diverges rec ope s p d _ 0 I); try assumption.
      * now rewrite Hp0.
      * now rewrite Hp0.
  - intros [|[|[|m]]]; try reflexivity.
    unfold run. rewrite parse_S. cbn [Zom parseCore]. unfold Zom.
    cbn [parseCore]. unfold zeroOrMore_parseCore.
    rewrite (repetition_loop_diverges _ _ _ _ _ _ 0 (fun _ _ _ => True));
      [reflexivity|reflexivity|reflexivity| |exact Logic.I].
    intros v c h _. apply parse_option_of_failure.
    intros h'. now apply parse_literal_mismatch.
  - intros [|[|[|m]]]; try reflexivity.
    unfold run. rewrite parse_S. unfold Zom, Npd.
    cbn [parseCore]. unfold zeroOrMore_parseCore.
    rewrite (repetition_loop_diverges _ _ _ _ _ _ 0 (fun _ _ _ => True));
      [reflexivity|reflexivity|reflexivity| |exact Logic.I].
    intros v c h _. apply parse_notPredicate_of_failure.
    intros h'. now apply parse_literal_mismatch.
  - intros [|[|[|m]]]; try reflexivity.
    unfold run. rewrite parse_S. unfold Oom.
    cbn [parseCore]. unfold oneOrMore_parseCore.
    destruct (parse_option_of_failure lineInfo_lf [] (S m) (Lit 1 "x") "a" 0
                Values_zero (context_new "a") AnyNil
                (traceEnter (oneOrMore (Opt (Lit 1 "x"))) "a" 0 Values_zero
                   (context_new "a") AnyNil heap_empty))
      as (r & Hr & He & Hz & _).
    { intros h'. now apply parse_literal_mismatch. }
    unfold Opt in *. rewrite Hr. cbn [mbind outcome_bind]. rewrite He, Hz.
    rewrite (repetition_loop_diverges _ _ _ _ _ _ 0 (fun _ _ _ => True));
      [reflexivity|reflexivity|reflexivity| |exact Logic.I].
    intros v c h _. apply parse_option_of_failure.
    intros h'. now apply parse_literal_mismatch.
Qed.

(** [Zom(Lit("abc"))] and [Oom(Lit("abc"))] end on ["abcabc"] under the
    evaluator itself: the states the loop reaches have no word operator
    and no whitespace operator, and there every success of the literal
    consumes three bytes. *)
Lemma repetition_termination_spec_witness :
  parse lineInfo_lf [] 7 (Zom (Lit 1 "abc")) "abcabc" 0 Values_zero
    (context_new "abcabc") AnyNil heap_empty <> OutOfFuel
  /\ parse lineInfo_lf [] 7 (Oom (Lit 1 "abc")) "abcabc" 0 Values_zero
       (context_new "abcabc") AnyNil heap_empty <> OutOfFuel.
Proof.
  assert (Hmax : len "abcabc" <= int_max) by (unfold len, int_max; simpl; lia).
  assert (Hp : 0 <= 0 <= len "abcabc") by (unfold len; simpl; lia).
  assert (Hchild : forall q v c h,
             0 <= q <= len "abcabc" -> literal_state 1 c h ->
             exists r : result,
               parse lineInfo_lf [] 6 (literalString 1 "abc") "abcabc" q v c
                 AnyNil h = Ret r
               /\ (res_err r = None ->
                   res_l r = len "abc"
                   /\ len "abc" <= len "abcabc" - q
                   /\ literal_state 1 (res_c r) (res_h r))).
  { intros q v c h Hq HI. now apply parse_literal_state. }
  assert (Hends : forall h : heap,
             literal_state 1 (context_new "abcabc") h ->
             parseCore lineInfo_lf [] 6 (parse lineInfo_lf [] 6)
               (zeroOrMore (literalString 1 "abc")) "abcabc" 0 Values_zero
               (context_new "abcabc") AnyNil h <> OutOfFuel
             /\ parseCore lineInfo_lf [] 6 (parse lineInfo_lf [] 6)
                  (oneOrMore (literalString 1 "abc")) "abcabc" 0 Values_zero
                  (context_new "abcabc") AnyNil h <> OutOfFuel).
  { intros h HI.
    apply (proj1 repetition_termination_spec lineInfo_lf []
             (parse lineInfo_lf [] 6) (literalString 1 "abc") "abcabc" 0
             AnyNil (fun _ c h => literal_state 1 c h) Hmax Hp).
    - intros q v c h' Hq HI'.
      destruct (Hchild q v c h' Hq HI') as (r & -> & _). discriminate.
    - intros q v c h' r Hq HI' Hr He.
      destruct (Hchild q v c h' Hq HI') as (r' & Hr' & Hok).
      rewrite Hr in Hr'. injection Hr' as <-.
      destruct (Hok He) as (-> & Hle & HI'').
      split; [unfold len in *; simpl in *; lia|].
      split; [unfold len; simpl; lia|exact HI''].
    - exact HI.
    - unfold len. simpl. lia. }
  assert (HI0 : literal_state 1 (context_new "abcabc") heap_empty).
  { split; [reflexivity|]. split; [vm_compute; discriminate|now right]. }
  unfold Zom, Oom, Lit. rewrite !parse_S. split.
  - destruct (Hends _ HI0) as [Hz _].
    destruct (parseCore lineInfo_lf [] 6 (parse lineInfo_lf [] 6)
                (zeroOrMore (literalString 1 "abc")) "abcabc" 0 Values_zero
                (context_new "abcabc") AnyNil _);
      [discriminate|discriminate|contradiction].
  - destruct (Hends _ HI0) as [_ Ho].
    destruct (parseCore lineInfo_lf [] 6 (parse lineInfo_lf [] 6)
                (oneOrMore (literalString 1 "abc")) "abcabc" 0 Values_zero
                (context_new "abcabc") AnyNil _);
      [discriminate|discriminate|contradiction].
Defined.
